(** * Email response system: scheduler, sink and deadline model

    A shallow embedding of [src/app/models.py], [src/app/config.py],
    [src/app/client.py], [src/app/sink.py], [src/app/scheduler.py] and the
    worker loop of [src/app/responder.py].

    - Python [int] is [Z]; Python [float] is the primitive binary64 [float];
      [str] is [string] (its UTF-8 bytes, whose lexicographic order is the
      code-point order Python uses to compare [str]).
    - [dict] and [set] are [gmap] and [gset]; the [heapq] list is a [list].
    - A call that can raise returns a [result]. *)

From Stdlib Require Import ZArith ZifyNat Ascii QArith Qround Qpower Floats.PrimFloat Floats.FloatOps
  Floats.SpecFloat
  Floats.FloatAxioms.
From stdpp Require Import gmap strings list sorting.

Local Open Scope Z_scope.

(** ** Exceptions *)

Inductive exn : Type :=
  | ValueError (msg : string)
  | OverflowError
  | KeyError (key : string)
  | IndexError
  | HTTPStatusError (status : Z)
  | TransportError
  | CycleError (cycle : list string)
  | JSONDecodeError.

Inductive result (A : Type) : Type :=
  | Ok (a : A)
  | Raise (e : exn).
Arguments Ok {A} a.
Arguments Raise {A} e.

(** Sequencing: an exception skips the rest ([x ← r; k] is stdpp's notation
    for [mbind]). *)
#[global] Instance result_ret : MRet result := λ A a, Ok a.
#[global] Instance result_bind : MBind result := λ A B k r,
  match r with
  | Ok a => k a
  | Raise e => Raise e
  end.

Definition is_ok {A : Type} (r : result A) : bool :=
  match r with Ok _ => true | Raise _ => false end.

(** ** [config.py] *)

Module Config.

Record Settings : Type := {
  request_timeout : float;
  max_retries : Z;
  concurrency_limit : Z;
  inter_dependency_gap : float
}.

(** The class defaults of [Settings]. *)
Definition defaults : Settings := {|
  request_timeout := 10%float;
  max_retries := 3;
  concurrency_limit := 10;
  inter_dependency_gap := 0x1.a36e2eb1c432dp-14%float
|}.

End Config.

(** ** [models.py] *)

Module Models.

Record EmailIn : Type := {
  in_email_id : string;
  in_subject : string;
  in_body : string;
  in_deadline : float;
  in_dependencies : list string
}.

Record EmailInternal : Type := {
  email_id : string;
  subject : string;
  body : string;
  deadline : float;
  dependencies : list string;
  deadline_ns : Z
}.

(** Python's [int(x)] on a float: the fraction is dropped (rounding toward
    zero); infinities and NaN raise. A finite binary64 value is
    [(-1)^s * m * 2^e]. *)
Definition int_of_float (x : float) : result Z :=
  match Prim2SF x with
  | S754_zero _ => Ok 0
  | S754_finite s m e =>
      let mag := Z.shiftl (Z.pos m) e in
      Ok (if s then - mag else mag)
  | S754_infinity _ => Raise OverflowError
  | S754_nan => Raise (ValueError "cannot convert float NaN to integer")
  end.

(** [raw.deadline * 1_000_000_000]: the int operand is converted to the
    float [1e9] (exact) and the product is the rounded binary64 product. *)
Definition from_external (raw : EmailIn) (fetch_start_ns : Z)
  : result EmailInternal :=
  ns ← int_of_float (in_deadline raw * 1000000000)%float;
  Ok {| email_id := in_email_id raw;
        subject := in_subject raw;
        body := in_body raw;
        deadline := in_deadline raw;
        dependencies := in_dependencies raw;
        deadline_ns := fetch_start_ns + ns |}.

(** The exact rational value of a finite float. *)
Definition SF2Q (x : spec_float) : option Q :=
  match x with
  | S754_zero _ => Some 0%Q
  | S754_finite s m e =>
      let v := (inject_Z (Z.pos m) * Qpower 2 e)%Q in
      Some (if s then Qopp v else v)
  | _ => None
  end.

Definition float_value (x : float) : option Q := SF2Q (Prim2SF x).

(** Rounding a rational toward zero. *)
Definition Qtrunc (v : Q) : Z :=
  if Qle_bool 0 v then Qfloor v else Qceiling v.

(** [floor (d * 1e9)] over the exact value of the offset [d], as the
    deadline formula is written in the specification. *)
Definition floor_scaled (d : float) : option Z :=
  v ← float_value d; Some (Qfloor (v * 1000000000)%Q).

End Models.

(** ** [client.py] *)

Module Client.

(** What one awaited [post_response] call does: it returns the decoded JSON
    body, or raises. *)
Inductive response : Type :=
  | Returned
  | Raised (e : exn).

(** What the shared [httpx.AsyncClient] does with one POST: the request
    fails in transport, or a response with a status code arrives, whose body
    is JSON or is not. *)
Inductive http_outcome : Type :=
  | NoResponse
  | HttpResponse (status : Z) (body_is_json : bool).

(** [httpx.Response.is_success]. *)
Definition is_success (status : Z) : bool :=
  (200 <=? status) && (status <=? 299).

(** [EmailClient.post_response]: [post], then [raise_for_status], then
    [json]. *)
Definition post_response (o : http_outcome) : response :=
  match o with
  | NoResponse => Raised TransportError
  | HttpResponse status body_is_json =>
      if is_success status then
        if body_is_json then Returned else Raised JSONDecodeError
      else Raised (HTTPStatusError status)
  end.

(** [DummyClient.post_response] of [tests/unit/test_sink.py]: the status
    codes to answer with, one per call. *)
Definition dummy_post_response (behaviour : list Z) (calls : nat) : response :=
  match behaviour !! calls with
  | None => Raised IndexError
  | Some code =>
      if (200 <=? code) && (code <? 300) then Returned
      else Raised (HTTPStatusError code)
  end.

End Client.

(** ** [sink.py] *)

Module Sink.
Import Client.

Inductive log_record : Type :=
  | LogError4xx (status : Z) (email : option string)
  | LogWarning5xx (status : Z) (attempt max_retries : Z) (email : option string).

(** A [ResponseSink] together with what its [send] does to the outside: the
    number of [post_response] calls made on its client, the sleeps taken and
    the records logged. *)
Record ResponseSink : Type := {
  _max_retries : Z;
  success_count : Z;
  failure_count : Z;
  retry_count : Z;
  calls : nat;
  sleeps : list float;
  log : list log_record
}.

(** Python's [a or b] on an optional int: [None] and [0] are falsy. *)
Definition or_default (a : option Z) (b : Z) : Z :=
  match a with
  | None => b
  | Some v => if v =? 0 then b else v
  end.

(** [ResponseSink.__init__]. *)
Definition init (settings : Config.Settings) (max_retries : option Z)
  : ResponseSink := {|
  _max_retries := or_default max_retries (Config.max_retries settings);
  success_count := 0;
  failure_count := 0;
  retry_count := 0;
  calls := 0;
  sleeps := [];
  log := []
|}.

Definition add_success (s : ResponseSink) : ResponseSink :=
  {| _max_retries := _max_retries s; success_count := success_count s + 1;
     failure_count := failure_count s; retry_count := retry_count s;
     calls := calls s; sleeps := sleeps s; log := log s |}.

Definition add_failure (s : ResponseSink) : ResponseSink :=
  {| _max_retries := _max_retries s; success_count := success_count s;
     failure_count := failure_count s + 1; retry_count := retry_count s;
     calls := calls s; sleeps := sleeps s; log := log s |}.

Definition add_retry (s : ResponseSink) : ResponseSink :=
  {| _max_retries := _max_retries s; success_count := success_count s;
     failure_count := failure_count s; retry_count := retry_count s + 1;
     calls := calls s; sleeps := sleeps s; log := log s |}.

Definition add_call (s : ResponseSink) : ResponseSink :=
  {| _max_retries := _max_retries s; success_count := success_count s;
     failure_count := failure_count s; retry_count := retry_count s;
     calls := S (calls s); sleeps := sleeps s; log := log s |}.

Definition add_sleep (t : float) (s : ResponseSink) : ResponseSink :=
  {| _max_retries := _max_retries s; success_count := success_count s;
     failure_count := failure_count s; retry_count := retry_count s;
     calls := calls s; sleeps := sleeps s ++ [t]; log := log s |}.

Definition add_log (r : log_record) (s : ResponseSink) : ResponseSink :=
  {| _max_retries := _max_retries s; success_count := success_count s;
     failure_count := failure_count s; retry_count := retry_count s;
     calls := calls s; sleeps := sleeps s; log := log s ++ [r] |}.

(** [range(1, n + 1)]. *)
Definition range1 (n : Z) : list Z :=
  (λ k : nat, Z.of_nat k) <$> seq 1 (Z.to_nat n).

Section send.
(** The collaborator: what the client's [post_response] does on its k-th
    call, and the factor [random.uniform(0.8, 1.2)] draws at each attempt. *)
Variable post : nat → response.
Variable jitter : Z → float.
Variable payload : gmap string string.

(** The body of [for attempt in range(1, self._max_retries + 1)], over the
    attempts left. Leaving the loop returns. *)
Fixpoint send_loop (attempts : list Z) (delay : float) (s : ResponseSink)
  : result unit * ResponseSink :=
  match attempts with
  | [] => (Ok (), s)
  | attempt :: rest =>
      let r := post (calls s) in
      let s := add_call s in
      match r with
      | Returned => (Ok (), add_success s)
      | Raised (HTTPStatusError status) =>
          if (400 <=? status) && (status <? 500) then
            (Ok (), add_log (LogError4xx status (payload !! "email_id"))
                      (add_failure s))
          else
            let s := add_log (LogWarning5xx status attempt (_max_retries s)
                                (payload !! "email_id")) s in
            if attempt >=? _max_retries s then (Ok (), add_failure s)
            else
              let jitter_factor := jitter attempt in
              let s := add_sleep (delay * jitter_factor)%float s in
              send_loop rest (delay * 2)%float (add_retry s)
      | Raised e => (Raise e, s)
      end
  end.

(** [ResponseSink.send]. *)
Definition send (s : ResponseSink) : result unit * ResponseSink :=
  send_loop (range1 (_max_retries s)) 0x1.999999999999ap-3%float s.

End send.

End Sink.

(** ** [graphlib.TopologicalSorter] (Python standard library)

    The scheduler builds a sorter from [deps_map] and calls [prepare], which
    raises [CycleError] when [_find_cycle] returns a cycle. [_node2info] is
    kept as the map from each node to its [successors] list; a dict is
    traversed here in the order of [map_to_list]. *)

Module Graphlib.

Abbreviation node2info := (gmap string (list string)).

(** [_get_nodeinfo]: a node seen for the first time gets an empty record. *)
Definition get_nodeinfo (node : string) (n2i : node2info) : node2info :=
  match n2i !! node with
  | Some _ => n2i
  | None => <[node := []]> n2i
  end.

Definition successors (n2i : node2info) (node : string) : list string :=
  default [] (n2i !! node).

(** [add(node, *predecessors)]. *)
Definition add (node : string) (predecessors : list string) (n2i : node2info)
  : node2info :=
  foldl (λ n2i pred,
           let n2i := get_nodeinfo pred n2i in
           <[pred := successors n2i pred ++ [node]]> n2i)
        (get_nodeinfo node n2i) predecessors.

(** [TopologicalSorter(graph)]. *)
Definition sorter (graph : gmap string (gset string)) : node2info :=
  foldl (λ n2i '(node, predecessors), add node (elements predecessors) n2i)
        ∅ (map_to_list graph).

(** The two stacks of [_find_cycle] as one: each entry is a node with the
    successors its iterator has not yet yielded; the top is the head. A node
    is in [node2stacki] exactly when it is on the stack. *)
Abbreviation frame := (string * list string)%type.

(** "Backtrack to the topmost stack entry with at least another successor":
    the next node and the stack left, or [None] when the stack runs empty. *)
Fixpoint backtrack (stack : list frame) : option (string * list frame) :=
  match stack with
  | [] => None
  | (n, []) :: stack => backtrack stack
  | (n, s :: it) :: stack => Some (s, (n, it) :: stack)
  end.

(** [stack[node2stacki[node]:] + [node]], the stack being kept top first. *)
Fixpoint stack_from (node : string) (stack : list frame) : list string :=
  match stack with
  | [] => []
  | (n, _) :: stack =>
      if decide (n = node) then [n] else stack_from node stack ++ [n]
  end.

Inductive walk_result : Type :=
  | Cycle (c : list string)
  | Finished (seen : gset string)
  | OutOfFuel.

(** The [while True] loop of [_find_cycle], entered at [node]. *)
Fixpoint walk (n2i : node2info) (fuel : nat) (node : string)
    (stack : list frame) (seen : gset string) : walk_result :=
  match fuel with
  | O => OutOfFuel
  | S fuel =>
      if decide (node ∈ seen) then
        if decide (node ∈ stack.*1) then Cycle (stack_from node stack ++ [node])
        else
          match backtrack stack with
          | None => Finished seen
          | Some (node, stack) => walk n2i fuel node stack seen
          end
      else
        let seen := {[node]} ∪ seen in
        let stack := (node, successors n2i node) :: stack in
        match backtrack stack with
        | None => Finished seen
        | Some (node, stack) => walk n2i fuel node stack seen
        end
  end.

(** The [for node in n2i] loop around it. *)
Fixpoint find_cycle_from (n2i : node2info) (fuel : nat) (nodes : list string)
    (seen : gset string) : walk_result :=
  match nodes with
  | [] => Finished seen
  | node :: nodes =>
      if decide (node ∈ seen) then find_cycle_from n2i fuel nodes seen
      else
        match walk n2i fuel node [] seen with
        | Finished seen => find_cycle_from n2i fuel nodes seen
        | r => r
        end
  end.

(** Every turn of the loop but the last takes a successor from an iterator,
    and the successors of a node are put on the stack once: this many turns
    are enough. *)
Definition enough_fuel (n2i : node2info) : nat :=
  S (sum_list_with (λ n, length (successors n2i n)) (elements (dom n2i))).

Definition find_cycle (n2i : node2info) : walk_result :=
  find_cycle_from n2i (enough_fuel n2i) (map_to_list n2i).*1 ∅.

(** [prepare]: "if cycle: raise CycleError". *)
Definition prepare (n2i : node2info) : result unit :=
  match find_cycle n2i with
  | Cycle c => Raise (CycleError c)
  | Finished _ => Ok ()
  | OutOfFuel => Raise (ValueError "_find_cycle did not finish")
  end.

End Graphlib.

(** ** [heapq] (Python standard library)

    A heap is a list [h] with [h[(k-1)/2] <= h[k]] for every index [k > 0];
    the items are compared with [<] alone. *)

Module Heapq.

Section heapq.
Context {A : Type}.
Variable lt : A → A → bool.

(** The [while pos > startpos] loop of [_siftdown]: parents larger than
    [newitem] move down; the position left for [newitem] is returned. *)
Fixpoint siftdown_loop (fuel : nat) (heap : list A) (startpos pos : nat)
    (newitem : A) : list A * nat :=
  match fuel with
  | O => (heap, pos)
  | S fuel =>
      if decide (startpos < pos)%nat then
        let parentpos := ((pos - 1) / 2)%nat in
        match heap !! parentpos with
        | Some parent =>
            if lt newitem parent then
              siftdown_loop fuel (<[pos := parent]> heap) startpos parentpos
                newitem
            else (heap, pos)
        | None => (heap, pos)
        end
      else (heap, pos)
  end.

Definition _siftdown (heap : list A) (startpos pos : nat) : list A :=
  match heap !! pos with
  | Some newitem =>
      let '(heap, pos) := siftdown_loop pos heap startpos pos newitem in
      <[pos := newitem]> heap
  | None => heap
  end.

(** [heappush]: append, then sift the new item toward the root. *)
Definition heappush (heap : list A) (item : A) : list A :=
  _siftdown (heap ++ [item]) 0 (length heap).

(** The [while childpos < endpos] loop of [_siftup]: the smaller child moves
    up until a leaf is reached. *)
Fixpoint siftup_loop (fuel : nat) (heap : list A) (pos : nat)
    : list A * nat :=
  match fuel with
  | O => (heap, pos)
  | S fuel =>
      let endpos := length heap in
      let childpos := (2 * pos + 1)%nat in
      if decide (childpos < endpos)%nat then
        let rightpos := (childpos + 1)%nat in
        let childpos :=
          match heap !! childpos, heap !! rightpos with
          | Some c, Some r => if negb (lt c r) then rightpos else childpos
          | _, _ => childpos
          end in
        match heap !! childpos with
        | Some c => siftup_loop fuel (<[pos := c]> heap) childpos
        | None => (heap, pos)
        end
      else (heap, pos)
  end.

Definition _siftup (heap : list A) (pos : nat) : list A :=
  match heap !! pos with
  | Some newitem =>
      let '(heap, leaf) := siftup_loop (length heap) heap pos in
      _siftdown (<[leaf := newitem]> heap) pos leaf
  | None => heap
  end.

(** [heappop]: [None] stands for the [IndexError] of popping an empty
    list. *)
Definition heappop (heap : list A) : option (A * list A) :=
  match last heap with
  | None => None
  | Some lastelt =>
      let heap := removelast heap in
      match heap with
      | [] => Some (lastelt, heap)
      | returnitem :: _ => Some (returnitem, _siftup (<[0%nat := lastelt]> heap) 0)
      end
  end.

End heapq.

End Heapq.

(** ** [scheduler.py] *)

Module Scheduler.
Import Models.

(** A queue entry [(deadline_ns, email_id)]. *)
Definition entry : Type := Z * string.

(** Python's [<] on such tuples: the first components that differ
    decide. *)
Definition entry_lt (a b : entry) : bool :=
  if a.1 =? b.1 then String.ltb a.2 b.2 else a.1 <? b.1.

Record DependencyScheduler : Type := {
  deps_map : gmap string (gset string);
  dependents_map : gmap string (gset string);
  _queue : list entry;
  _emails : gmap string EmailInternal
}.

(** [d[k]] on a dict. *)
Definition getitem {V : Type} (d : gmap string V) (k : string) : result V :=
  match d !! k with
  | Some v => Ok v
  | None => Raise (KeyError k)
  end.

(** [{e.email_id: set(e.dependencies) for e in emails}]: a later item
    replaces an earlier one with the same id. *)
Definition build_deps_map (emails : list EmailInternal)
  : gmap string (gset string) :=
  foldl (λ m e, <[email_id e := list_to_set (dependencies e)]> m) ∅ emails.

(** [dependents_map[parent].add(eid)] on a [defaultdict(set)]. *)
Definition add_dependent (parent eid : string)
    (m : gmap string (gset string)) : gmap string (gset string) :=
  <[parent := {[eid]} ∪ default ∅ (m !! parent)]> m.

Definition build_dependents_map (deps_map : gmap string (gset string))
  : gmap string (gset string) :=
  map_fold (λ eid deps m, set_fold (λ parent m, add_dependent parent eid m) m deps)
    ∅ deps_map.

(** [{e.email_id: e for e in emails}]. *)
Definition build_emails (emails : list EmailInternal)
  : gmap string EmailInternal :=
  foldl (λ m e, <[email_id e := e]> m) ∅ emails.

(** The "Ready queue initialisation" loop. *)
Fixpoint init_queue (deps_map : gmap string (gset string))
    (emails : list EmailInternal) (queue : list entry) : result (list entry) :=
  match emails with
  | [] => Ok queue
  | email :: emails =>
      deps ← getitem deps_map (email_id email);
      if decide (deps = ∅)
      then init_queue deps_map emails
             (Heapq.heappush entry_lt queue (deadline_ns email, email_id email))
      else init_queue deps_map emails queue
  end.

(** [DependencyScheduler.__init__]. *)
Definition init (emails : list EmailInternal) : result DependencyScheduler :=
  let deps_map := build_deps_map emails in
  let dependents_map := build_dependents_map deps_map in
  match Graphlib.prepare (Graphlib.sorter deps_map) with
  | Raise (CycleError c) => Raise (ValueError "Dependency cycle detected")
  | Raise e => Raise e
  | Ok _ =>
      queue ← init_queue deps_map emails [];
      Ok {| deps_map := deps_map;
            dependents_map := dependents_map;
            _queue := queue;
            _emails := build_emails emails |}
  end.

Definition set_queue (queue : list entry) (s : DependencyScheduler)
  : DependencyScheduler :=
  {| deps_map := deps_map s; dependents_map := dependents_map s;
     _queue := queue; _emails := _emails s |}.

Definition set_deps (child : string) (deps : gset string)
    (s : DependencyScheduler) : DependencyScheduler :=
  {| deps_map := <[child := deps]> (deps_map s);
     dependents_map := dependents_map s;
     _queue := _queue s; _emails := _emails s |}.

(** The loop of [get_ready_batch]; [room] is [count - len(batch)]. *)
Fixpoint get_ready_loop (room : nat) (s : DependencyScheduler)
    (batch : list EmailInternal)
  : result (list EmailInternal) * DependencyScheduler :=
  match room with
  | O => (Ok batch, s)
  | S room =>
      if decide (_queue s = []) then (Ok batch, s)
      else
        match Heapq.heappop entry_lt (_queue s) with
        | None => (Raise IndexError, s)
        | Some ((_, eid), queue) =>
            let s := set_queue queue s in
            match getitem (_emails s) eid with
            | Ok e => get_ready_loop room s (batch ++ [e])
            | Raise x => (Raise x, s)
            end
        end
  end.

Definition get_ready_batch (count : Z) (s : DependencyScheduler)
  : result (list EmailInternal) * DependencyScheduler :=
  get_ready_loop (Z.to_nat count) s [].

(** The loop of [mark_done] over the children of [email_id]. *)
Fixpoint mark_done_loop (email_id : string) (children : list string)
    (s : DependencyScheduler) : result unit * DependencyScheduler :=
  match children with
  | [] => (Ok (), s)
  | child :: children =>
      match getitem (deps_map s) child with
      | Raise x => (Raise x, s)
      | Ok deps =>
          let deps := deps ∖ {[email_id]} in
          let s := set_deps child deps s in
          if decide (deps = ∅) then
            match getitem (_emails s) child with
            | Raise x => (Raise x, s)
            | Ok child_email =>
                mark_done_loop email_id children
                  (set_queue (Heapq.heappush entry_lt (_queue s)
                                (deadline_ns child_email, child)) s)
            end
          else mark_done_loop email_id children s
      end
  end.

Definition mark_done (email_id : string) (s : DependencyScheduler)
  : result unit * DependencyScheduler :=
  mark_done_loop email_id
    (elements (default ∅ (dependents_map s !! email_id))) s.

Definition has_work (s : DependencyScheduler) : bool :=
  bool_decide (_queue s ≠ []).

Definition has_next (s : DependencyScheduler) : bool := has_work s.

Definition pop_next (s : DependencyScheduler)
  : result (option EmailInternal) * DependencyScheduler :=
  match get_ready_batch 1 s with
  | (Ok batch, s) => (Ok (head batch), s)
  | (Raise x, s) => (Raise x, s)
  end.

End Scheduler.

(** * [responder.py]: the worker loop *)

Module Responder.
Import Models Scheduler.

(** Where a task running [_process_loop] is suspended. asyncio tasks share
    one thread, so between two suspensions a task runs alone; the body of
    each [async with self._sched_lock] block awaits nothing and is one
    step. *)
Inductive task : Type :=
  | AtPop
      (** entering the first [async with self._sched_lock] *)
  | Idle
      (** in [asyncio.sleep(0.01)], after an empty pop with [has_work()] *)
  | Preparing (email : EmailInternal)
      (** [email] popped: in the timing sleep, the mock response or
          [sink.send] *)
  | Sent (email : EmailInternal)
      (** [sink.send] has returned: in the gap sleep or entering the second
          [async with self._sched_lock] *)
  | Returned
      (** out of the loop by [break] *)
  | Crashed.
      (** out of the loop by an exception *)

(** What a task does to the scheduler and the sink. *)
Inductive action : Type :=
  | Pop (email : EmailInternal)
  | Send (email : EmailInternal)
  | Done (email_id : string).

(** One resumption of a task, up to its next suspension. [ok] tells whether
    the awaits it is suspended in complete, or one of them raises: an
    exception out of the mock response or of [sink.send], or the
    [CancelledError] the task group delivers once another task has failed.
    Nothing in the loop catches an exception. The timing sleep, the mock
    response and [sink.send] touch neither the scheduler nor another task. *)
Definition _process_loop (ok : bool) (t : task) (s : DependencyScheduler)
  : task * DependencyScheduler * list action :=
  match t, ok with
  | Returned, _ => (Returned, s, [])
  | Crashed, _ => (Crashed, s, [])
  | _, false => (Crashed, s, [])
  | AtPop, true =>
      match pop_next s with
      | (Ok (Some email), s) => (Preparing email, s, [Pop email])
      | (Ok None, s) =>
          if has_work s then (Idle, s, []) else (Returned, s, [])
      | (Raise _, s) => (Crashed, s, [])
      end
  | Idle, true => (AtPop, s, [])
  | Preparing email, true => (Sent email, s, [Send email])
  | Sent email, true =>
      match mark_done (email_id email) s with
      | (Ok _, s) => (AtPop, s, [Done (email_id email)])
      | (Raise _, s) => (Crashed, s, [])
      end
  end.

(** The tasks of one [EmailProcessor] and the scheduler they share. *)
Record EmailProcessor : Type := {
  _scheduler : DependencyScheduler;
  tasks : list task
}.

(** [run]: [workers] tasks are created, [settings.concurrency_limit] of
    them when [workers] is [None]; none for a count of zero or less. *)
Definition run (settings : Config.Settings) (workers : option Z)
    (s : DependencyScheduler) : EmailProcessor :=
  let workers := default (Config.concurrency_limit settings) workers in
  {| _scheduler := s; tasks := replicate (Z.to_nat workers) AtPop |}.

(** The event loop resumes task [i]. *)
Definition turn (i : nat) (ok : bool) (p : EmailProcessor)
  : EmailProcessor * list action :=
  match tasks p !! i with
  | None => (p, [])
  | Some t =>
      let '(t, s, acts) := _process_loop ok t (_scheduler p) in
      ({| _scheduler := s; tasks := <[i := t]> (tasks p) |}, acts)
  end.

(** The event loop resumes the tasks in the order of [schedule]. *)
Fixpoint play (schedule : list (nat * bool)) (p : EmailProcessor)
  : EmailProcessor * list action :=
  match schedule with
  | [] => (p, [])
  | (i, ok) :: schedule =>
      let '(p, acts) := turn i ok p in
      let '(p, acts') := play schedule p in
      (p, acts ++ acts')
  end.

(** The task group is left without an exception: every task returned. *)
Definition completed (p : EmailProcessor) : bool :=
  forallb (λ t, match t with Returned => true | _ => false end) (tasks p).

End Responder.

(** * [str] methods used by the validators *)

Module Str.

(** A [str] is handled as the list of the bytes of its UTF-8 encoding. The
    characters for which [str.isspace] holds, which [strip] removes:
    U+0009..U+000D, U+001C..U+0020, U+0085, U+00A0, U+1680, U+2000..U+200A,
    U+2028, U+2029, U+202F, U+205F and U+3000, each as its encoding. No
    encoding of a character ends with the whole encoding of another one, so
    a string that ends with one of these byte sequences ends with that
    character. *)
Definition whitespace : list (list ascii) :=
  [ ["009"]; ["010"]; ["011"]; ["012"]; ["013"];
    ["028"]; ["029"]; ["030"]; ["031"]; ["032"];
    ["194"; "133"]; ["194"; "160"];
    ["225"; "154"; "128"];
    ["226"; "128"; "128"]; ["226"; "128"; "129"]; ["226"; "128"; "130"];
    ["226"; "128"; "131"]; ["226"; "128"; "132"]; ["226"; "128"; "133"];
    ["226"; "128"; "134"]; ["226"; "128"; "135"]; ["226"; "128"; "136"];
    ["226"; "128"; "137"]; ["226"; "128"; "138"];
    ["226"; "128"; "168"]; ["226"; "128"; "169"]; ["226"; "128"; "175"];
    ["226"; "129"; "159"];
    ["227"; "128"; "128"] ]%char.

(** [s.lstrip()]: whitespace characters are taken off the front as long as
    there is one; [fuel] bounds the number of characters taken. *)
Fixpoint lstrip_loop (fuel : nat) (s : list ascii) : list ascii :=
  match fuel with
  | O => s
  | S fuel =>
      match find (λ w, bool_decide (w `prefix_of` s)) whitespace with
      | Some w => lstrip_loop fuel (drop (length w) s)
      | None => s
      end
  end.

Definition lstrip (s : list ascii) : list ascii := lstrip_loop (length s) s.

(** [s.rstrip()]. *)
Fixpoint rstrip_loop (fuel : nat) (s : list ascii) : list ascii :=
  match fuel with
  | O => s
  | S fuel =>
      match find (λ w, bool_decide (w `suffix_of` s)) whitespace with
      | Some w => rstrip_loop fuel (take (length s - length w) s)
      | None => s
      end
  end.

Definition rstrip (s : list ascii) : list ascii := rstrip_loop (length s) s.

(** [s.strip()]. *)
Definition strip (s : list ascii) : list ascii := rstrip (lstrip s).

(** [s.split(sep)] for a separator of one byte: the pieces between the
    separators, empty ones included; one empty piece for an empty [s]. *)
Fixpoint split (sep : ascii) (s : list ascii) : list (list ascii) :=
  match s with
  | [] => [[]]
  | c :: s =>
      if decide (c = sep) then [] :: split sep s
      else
        match split sep s with
        | piece :: pieces => (c :: piece) :: pieces
        | [] => [[c]]
        end
  end.

(** [sep.join(pieces)]. *)
Fixpoint join (sep : list ascii) (pieces : list (list ascii)) : list ascii :=
  match pieces with
  | [] => []
  | [piece] => piece
  | piece :: pieces => piece ++ sep ++ join sep pieces
  end.

End Str.

(** * [models.py]: the validator of [dependencies] *)

Module Validators.

(** [_parse_deps]: a [str] is split at the commas into the list of its
    stripped pieces that are not empty; a value of any other type [A] is
    returned as it is. *)
Definition _parse_deps {A : Type} (v : string + A) : list string + A :=
  match v with
  | inl v =>
      let v := Str.strip (String.list_ascii_of_string v) in
      if decide (v = []) then inl []
      else
        inl (String.string_of_list_ascii
               <$> omap (λ d, let d := Str.strip d in
                              if decide (d = []) then None else Some d)
                     (Str.split "," v))
  | inr v => inr v
  end.

End Validators.

(** * Vocabulary of the properties *)

(** The collaborator either returns or raises [HTTPStatusError]. *)
Definition http_only (post : nat → Client.response) : Prop :=
  ∀ k, post k = Client.Returned
       ∨ ∃ status, post k = Client.Raised (HTTPStatusError status).

(** The collaborator of the sink tests that answers 500 to every call. *)
Definition always_500 (k : nat) : Client.response :=
  Client.post_response (Client.HttpResponse 500 true).

(** A client whose connection fails. *)
Definition unreachable (k : nat) : Client.response :=
  Client.post_response Client.NoResponse.

(** A raw item due 1.5 s after the fetch, as in [tests/unit/test_models.py],
    and one whose offset is [-2^-31] s, just under half a nanosecond before
    the fetch. *)
Definition item_1_5 : Models.EmailIn := {|
  Models.in_email_id := "e1"; Models.in_subject := "S"; Models.in_body := "B";
  Models.in_deadline := 1.5%float; Models.in_dependencies := []
|}.

Definition item_before_fetch : Models.EmailIn := {|
  Models.in_email_id := "e2"; Models.in_subject := "S"; Models.in_body := "B";
  Models.in_deadline := (-0x1p-31)%float; Models.in_dependencies := []
|}.


(** *** Heaps *)

(** The comparison of the items is a strict total order. *)
Class StrictTotal {A : Type} (lt : A → A → bool) : Prop := {
  lt_irrefl a : lt a a = false;
  lt_trans a b c : lt a b = true → lt b c = true → lt a c = true;
  lt_total a b : lt a b = false → lt b a = false → a = b
}.

(** [heapq]'s invariant: no item is smaller than its parent. *)
Definition heap_ok {A : Type} (lt : A → A → bool) (h : list A) : Prop :=
  ∀ k x p, (0 < k)%nat →
    h !! k = Some x → h !! ((k - 1) / 2)%nat = Some p → lt x p = false.


(** A list that is a heap but for the item at [pos], which may be smaller
    than its parent (the state of [_siftdown]'s loop, [newitem] put at
    [pos]). *)
Definition almost_heap {A : Type} (lt : A → A → bool) (h : list A)
    (pos : nat) : Prop :=
  (∀ k x p, (0 < k)%nat → k ≠ pos →
     h !! k = Some x → h !! ((k - 1) / 2)%nat = Some p → lt x p = false)
  ∧ (∀ c x p, (0 < pos)%nat → (0 < c)%nat → ((c - 1) / 2)%nat = pos →
       h !! c = Some x → h !! ((pos - 1) / 2)%nat = Some p → lt x p = false).

(** A list that is a heap but for the place [pos], whose content no longer
    counts (the state of [_siftup]'s loop). *)
Definition hole_heap {A : Type} (lt : A → A → bool) (h : list A)
    (pos : nat) : Prop :=
  (∀ k x p, (0 < k)%nat → k ≠ pos → ((k - 1) / 2)%nat ≠ pos →
     h !! k = Some x → h !! ((k - 1) / 2)%nat = Some p → lt x p = false)
  ∧ (∀ c x p, (0 < pos)%nat → (0 < c)%nat → ((c - 1) / 2)%nat = pos →
       h !! c = Some x → h !! ((pos - 1) / 2)%nat = Some p → lt x p = false).


(** *** Dependency graphs *)

(** [y] is among the dependencies that [g] records for [x]. *)
Definition depends (g : gmap string (gset string)) (x y : string) : Prop :=
  ∃ deps, g !! x = Some deps ∧ y ∈ deps.

(** An item of the batch with id [x] declares a dependency on [y]. *)
Definition declares (emails : list Models.EmailInternal) (x y : string)
  : Prop :=
  ∃ e, e ∈ emails ∧ Models.email_id e = x ∧ y ∈ Models.dependencies e.

(** Some node reaches itself along one or more edges. *)
Definition cyclic {A : Type} (R : relation A) : Prop := ∃ x, tc R x x.

Definition ids (emails : list Models.EmailInternal) : list string :=
  Models.email_id <$> emails.

(** The edges [_find_cycle] follows: from a node to its successors. *)
Definition edge (n2i : Graphlib.node2info) (p n : string) : Prop :=
  n ∈ Graphlib.successors n2i p.

(** *** The state of [_find_cycle] *)

(** The nodes done with: seen and no longer on the stack. *)
Definition finished (seen : gset string) (stack : list Graphlib.frame)
  : gset string :=
  seen ∖ list_to_set stack.*1.

(** Every edge from [B] stays in [B], and no node of [B] is on a cycle. *)
Definition settled (n2i : Graphlib.node2info) (B : gset string) : Prop :=
  (∀ b s, b ∈ B → edge n2i b s → s ∈ B) ∧ (∀ b, b ∈ B → ¬ tc (edge n2i) b b).

(** The stack is a path that leads to [above], and each entry has left to
    visit the successors still in its iterator: the others are finished, or
    are the entry above it. *)
Fixpoint stack_ok (n2i : Graphlib.node2info) (B : gset string)
    (above : string) (stack : list Graphlib.frame) : Prop :=
  match stack with
  | [] => True
  | (n, it) :: stack =>
      edge n2i n above
      ∧ (∀ s, s ∈ it → edge n2i n s)
      ∧ (∀ s, edge n2i n s → s ∈ it ∨ s ∈ B ∨ s = above)
      ∧ stack_ok n2i B n stack
  end.

(** The same once the node above the top entry is finished. *)
Definition stack_back (n2i : Graphlib.node2info) (B : gset string)
    (stack : list Graphlib.frame) : Prop :=
  match stack with
  | [] => True
  | (n, it) :: stack =>
      (∀ s, s ∈ it → edge n2i n s)
      ∧ (∀ s, edge n2i n s → s ∈ it ∨ s ∈ B)
      ∧ stack_ok n2i B n stack
  end.

(** The successors that the unseen nodes of [U] will put on the stack, and
    those waiting in the iterators of the stack. *)
Definition weight (n2i : Graphlib.node2info) (U : gset string) : nat :=
  sum_list_with (λ n, length (Graphlib.successors n2i n)) (elements U).

Definition waiting (stack : list Graphlib.frame) : nat :=
  sum_list_with (λ f : Graphlib.frame, length f.2) stack.

(** *** Runs of the scheduler *)

Inductive op : Type :=
  | PopNext
  | GetReadyBatch (count : Z)
  | MarkDone (email_id : string).

Inductive event : Type :=
  | Popped (e : Models.EmailInternal)
  | Marked (email_id : string).

(** One call on the scheduler and what it shows: the items it returns, the
    id it marks. *)
Definition step (o : op) (s : Scheduler.DependencyScheduler)
  : result (list event) * Scheduler.DependencyScheduler :=
  match o with
  | PopNext =>
      match Scheduler.pop_next s with
      | (Ok r, s) => (Ok (Popped <$> option_list r), s)
      | (Raise x, s) => (Raise x, s)
      end
  | GetReadyBatch count =>
      match Scheduler.get_ready_batch count s with
      | (Ok batch, s) => (Ok (Popped <$> batch), s)
      | (Raise x, s) => (Raise x, s)
      end
  | MarkDone email_id =>
      match Scheduler.mark_done email_id s with
      | (Ok _, s) => (Ok [Marked email_id], s)
      | (Raise x, s) => (Raise x, s)
      end
  end.

(** A sequence of calls, stopped by the first exception. *)
Fixpoint run (ops : list op) (s : Scheduler.DependencyScheduler)
  : result (list event) * Scheduler.DependencyScheduler :=
  match ops with
  | [] => (Ok [], s)
  | o :: ops =>
      match step o s with
      | (Ok evs, s) =>
          match run ops s with
          | (Ok evs', s) => (Ok (evs ++ evs'), s)
          | (Raise x, s) => (Raise x, s)
          end
      | (Raise x, s) => (Raise x, s)
      end
  end.

(** The ids marked done by a sequence of calls. *)
Definition marks (ops : list op) : list string :=
  omap (λ o, match o with MarkDone i => Some i | _ => None end) ops.

(** What holds of the scheduler built from [emails] once the ids of [done]
    have been marked. *)
Record sched_inv (emails : list Models.EmailInternal) (done : gset string)
    (s : Scheduler.DependencyScheduler) : Prop := {
  inv_emails : Scheduler._emails s = Scheduler.build_emails emails;
  inv_dependents :
    Scheduler.dependents_map s
    = Scheduler.build_dependents_map (Scheduler.build_deps_map emails);
  inv_deps : ∀ i e, Scheduler._emails s !! i = Some e →
    ∃ deps, Scheduler.deps_map s !! i = Some deps
            ∧ deps ⊆ list_to_set (Models.dependencies e)
            ∧ list_to_set (Models.dependencies e) ∖ done ⊆ deps;
  inv_queue : ∀ d i, (d, i) ∈ Scheduler._queue s →
    is_Some (Scheduler._emails s !! i) ∧ Scheduler.deps_map s !! i = Some ∅;
  inv_heap : heap_ok Scheduler.entry_lt (Scheduler._queue s)
}.

(** Every queue entry carries the deadline of the item it names. *)
Definition keys_ok (s : Scheduler.DependencyScheduler) : Prop :=
  ∀ d i, (d, i) ∈ Scheduler._queue s →
    ∃ e, Scheduler._emails s !! i = Some e ∧ Models.deadline_ns e = d.

(** [a] is not after [b] in the order of the queue: an earlier deadline, or
    the same deadline and an id that is not larger. *)
Definition entry_le (a b : Scheduler.entry) : Prop :=
  a.1 < b.1 ∨ (a.1 = b.1 ∧ String.leb a.2 b.2 = true).

(** The batch of [tests/unit/test_scheduler.py]. *)
Definition email (i : string) (deadline_ns : Z) (deps : list string)
  : Models.EmailInternal := {|
  Models.email_id := i; Models.subject := i; Models.body := "";
  Models.deadline := 0%float; Models.dependencies := deps;
  Models.deadline_ns := deadline_ns
|}.

Definition email_A : Models.EmailInternal := email "A" 1000000000 [].
Definition email_B : Models.EmailInternal := email "B" 2000000000 ["A"].
Definition email_C : Models.EmailInternal := email "C" 1500000000 ["A"].


(** The ids marked in a list of events. *)
Definition marked_of (evs : list event) : gset string :=
  list_to_set
    (omap (λ ev, match ev with Marked i => Some i | Popped _ => None end) evs).

(** Every item is popped after all its declared dependencies have been
    marked, [done] holding the ids marked before the events. *)
Fixpoint trace_ok (done : gset string) (evs : list event) : Prop :=
  match evs with
  | [] => True
  | Popped e :: evs =>
      (∀ x, x ∈ Models.dependencies e → x ∈ done) ∧ trace_ok done evs
  | Marked i :: evs => trace_ok ({[i]} ∪ done) evs
  end.

(** A cycle between X and Y, X also depending on an id Z that no item has. *)
Definition email_X : Models.EmailInternal := email "X" 1000000000 ["Y"; "Z"].
Definition email_Y : Models.EmailInternal := email "Y" 1000000000 ["X"].

(** An item waiting for an id that no item has. *)
Definition email_D : Models.EmailInternal := email "D" 500000000 ["Z"].

(** *** The retry loop of the sink *)

(** A response the loop answers with another attempt: an HTTP status error
    outside 400..499. *)
Definition retriable (r : Client.response) : bool :=
  match r with
  | Client.Raised (HTTPStatusError status) =>
      negb ((400 <=? status) && (status <? 500))
  | _ => false
  end.

(** The sleeps of [k] retries in a row, the first after attempt [attempt]
    with back-off [delay]: the back-off doubles each time. *)
Fixpoint backoff_sleeps (jitter : Z → float) (attempt : Z) (delay : float)
    (k : nat) : list float :=
  match k with
  | O => []
  | S k =>
      (delay * jitter attempt)%float
      :: backoff_sleeps jitter (attempt + 1) (delay * 2)%float k
  end.

(** *** More on runs of the scheduler *)

(** The queue entry of an item. *)
Definition entry_of (e : Models.EmailInternal) : Scheduler.entry :=
  (Models.deadline_ns e, Models.email_id e).

(** The unmet dependencies of every item are exactly its declared
    dependencies not yet marked. *)
Definition deps_exact (done : gset string) (s : Scheduler.DependencyScheduler)
  : Prop :=
  Scheduler.deps_map s
  = (λ e, list_to_set (Models.dependencies e) ∖ done) <$> Scheduler._emails s.

(** The entry [mark_done email_id] pushes for the child [c], if any: the
    child's, when [email_id] was all that was left of its unmet
    dependencies. *)
Definition released (email_id : string) (s : Scheduler.DependencyScheduler)
    (c : string) : option Scheduler.entry :=
  match Scheduler.deps_map s !! c, Scheduler._emails s !! c with
  | Some deps, Some e =>
      if decide (deps ∖ {[email_id]} = ∅)
      then Some (Models.deadline_ns e, c) else None
  | _, _ => None
  end.

(** The ids of the items popped in a list of events. *)
Definition popped_ids (evs : list event) : list string :=
  omap (λ ev, match ev with
              | Popped e => Some (Models.email_id e)
              | Marked _ => None
              end) evs.

(** No id is twice among the queue entries and the ids popped so far, and
    the popped ids have no unmet dependency. *)
Definition fresh_inv (popped : list string)
    (s : Scheduler.DependencyScheduler) : Prop :=
  NoDup ((Scheduler._queue s).*2 ++ popped)
  ∧ ∀ i, i ∈ popped → Scheduler.deps_map s !! i = Some ∅.

(** *** Runs of the worker pool *)

(** The ids popped, sent and marked done in a list of actions. *)
Definition pops_of (acts : list Responder.action) : list string :=
  omap (λ a, match a with
             | Responder.Pop e => Some (Models.email_id e)
             | _ => None
             end) acts.

Definition sends_of (acts : list Responder.action) : list string :=
  omap (λ a, match a with
             | Responder.Send e => Some (Models.email_id e)
             | _ => None
             end) acts.

Definition dones_of (acts : list Responder.action) : list string :=
  omap (λ a, match a with
             | Responder.Done i => Some i
             | _ => None
             end) acts.

(** The items the tasks hold: popped and not yet marked done. *)
Definition preparing (ts : list Responder.task) : list string :=
  omap (λ t, match t with
             | Responder.Preparing e => Some (Models.email_id e)
             | _ => None
             end) ts.

Definition sent (ts : list Responder.task) : list string :=
  omap (λ t, match t with
             | Responder.Sent e => Some (Models.email_id e)
             | _ => None
             end) ts.

(** Every declared dependency is the id of an item of the batch. *)
Definition closed (emails : list Models.EmailInternal) : Prop :=
  ∀ e x, e ∈ emails → x ∈ Models.dependencies e → x ∈ ids emails.

(** What the actions of a list may follow: an item is popped after each of
    its declared dependencies has been sent and marked done, sent after it
    has been popped, marked done after it has been sent. [before] holds the
    earlier actions. *)
Fixpoint order_ok (emails : list Models.EmailInternal)
    (before acts : list Responder.action) : Prop :=
  match acts with
  | [] => True
  | a :: acts =>
      match a with
      | Responder.Pop e =>
          e ∈ emails
          ∧ ∀ x, x ∈ Models.dependencies e →
              x ∈ sends_of before ∧ x ∈ dones_of before
      | Responder.Send e => Models.email_id e ∈ pops_of before
      | Responder.Done i => i ∈ sends_of before
      end
      ∧ order_ok emails (before ++ [a]) acts
  end.

(** What holds of the scheduler [s] and the tasks [ts] working on [emails]
    after the actions [acts]. *)
Record pool_inv (emails : list Models.EmailInternal)
    (s : Scheduler.DependencyScheduler) (ts : list Responder.task)
    (acts : list Responder.action) : Prop := {
  pi_sched : sched_inv emails (list_to_set (dones_of acts)) s;
  pi_keys : keys_ok s;
  pi_exact : deps_exact (list_to_set (dones_of acts)) s;
  pi_fresh : fresh_inv (pops_of acts) s;
  pi_sends : NoDup (sends_of acts ++ preparing ts);
  pi_dones : NoDup (dones_of acts ++ sent ts);
  pi_sent : ∀ i, i ∈ dones_of acts ++ sent ts → i ∈ sends_of acts;
  pi_popped : ∀ i, i ∈ sends_of acts ++ preparing ts → i ∈ pops_of acts;
  pi_ready : ∀ i, Scheduler.deps_map s !! i = Some ∅ →
    i ∈ (Scheduler._queue s).*2 ++ pops_of acts;
  pi_alive : Responder.Crashed ∉ ts →
    ∀ i, i ∈ pops_of acts → i ∈ dones_of acts ++ sent ts ++ preparing ts;
  pi_queue : ts ≠ [] → Forall (λ t, t = Responder.Returned) ts →
    Scheduler._queue s = [];
  pi_idle : Responder.Idle ∉ ts
}.

(** The scheduler of the batch A, B, C. *)
Definition sched_ABC : Scheduler.DependencyScheduler :=
  match Scheduler.init [email_A; email_B; email_C] with
  | Ok s => s
  | Raise _ =>
      {| Scheduler.deps_map := ∅; Scheduler.dependents_map := ∅;
         Scheduler._queue := []; Scheduler._emails := ∅ |}
  end.

(** *** Parsed dependency ids *)

(** [s] neither begins nor ends with a whitespace character. *)
Definition trimmed (s : list ascii) : Prop :=
  ∀ w, w ∈ Str.whitespace → ¬ w `prefix_of` s ∧ ¬ w `suffix_of` s.

(** An id as [_parse_deps] returns them: not empty, without a comma, and
    with no whitespace at either end. *)
Definition clean (d : string) : Prop :=
  d ≠ ""
  ∧ (("," : ascii) ∉ String.list_ascii_of_string d)
  ∧ trimmed (String.list_ascii_of_string d).

(** * Properties *)

(** ** The sink *)

Section range_facts.
Import Sink.

Lemma last_range1 n : 1 ≤ n → last (range1 n) = Some n.
Proof.
  intros Hn. unfold range1.
  destruct (Z.to_nat n) as [|k] eqn:Hk; [lia|].
  rewrite seq_S, fmap_app. cbn [fmap list_fmap]. rewrite last_snoc.
  f_equal. lia.
Qed.

Lemma range1_nonpos n : n ≤ 0 → range1 n = [].
Proof. intros. unfold range1. by replace (Z.to_nat n) with 0%nat by lia. Qed.

End range_facts.

Section sink_facts.
Import Client Sink.
Variable post : nat → response.
Variable jitter : Z → float.
Variable payload : gmap string string.

Lemma send_loop_max_retries attempts delay s :
  _max_retries (send_loop post jitter payload attempts delay s).2
  = _max_retries s.
Proof.
  revert delay s. induction attempts as [|a rest IH]; intros delay s; [done|].
  simpl. destruct (post (calls s)) as [|[]]; try done.
  destruct (_ && _); [done|]. simpl.
  destruct (a >=? _max_retries s); [done|]. by rewrite IH.
Qed.

(** A loop whose last attempt is numbered [_max_retries] or more leaves
    through one of its [return]s, after counting one success or one
    failure. *)
Lemma send_loop_http_only attempts : ∀ delay s last_attempt,
  http_only post →
  last attempts = Some last_attempt →
  _max_retries s ≤ last_attempt →
  ∃ s', send_loop post jitter payload attempts delay s = (Ok (), s')
        ∧ success_count s' + failure_count s'
          = success_count s + failure_count s + 1.
Proof.
  induction attempts as [|a rest IH]; intros delay s la Hpost Hlast Hle;
    [done|].
  cbn [send_loop].
  destruct (Hpost (calls s)) as [->|[status ->]].
  { eexists; split; [done|]. simpl. lia. }
  destruct (_ && _).
  { eexists; split; [done|]. simpl. lia. }
  cbn [add_log add_call _max_retries].
  destruct (Z.geb_spec a (_max_retries s)) as [?|Hlt].
  { eexists; split; [done|]. simpl. lia. }
  destruct rest as [|b rest].
  { simpl in Hlast. simplify_eq. lia. }
  edestruct (IH (delay * 2)%float) as (s' & Hs' & Hsum); [done|exact Hlast| |].
  2:{ exists s'. split; [exact Hs'|]. rewrite Hsum. simpl. lia. }
  simpl. lia.
Qed.

Lemma send_loop_calls_mono attempts : ∀ delay s,
  (calls s ≤ calls (send_loop post jitter payload attempts delay s).2)%nat.
Proof.
  induction attempts as [|a rest IH]; intros delay s; [done|].
  cbn [send_loop]. destruct (post (calls s)) as [|[]]; cbn; try lia.
  destruct (_ && _); cbn; [lia|].
  destruct (a >=? _max_retries s); cbn; [lia|].
  etrans; [|apply IH]. cbn. lia.
Qed.

(** The first attempt of a loop calls the collaborator. *)
Lemma send_loop_calls_first a rest delay s :
  (1 ≤ calls (send_loop post jitter payload (a :: rest) delay s).2)%nat.
Proof.
  cbn [send_loop]. destruct (post (calls s)) as [|[]]; cbn; try lia.
  destruct (_ && _); cbn; [lia|].
  destruct (a >=? _max_retries s); cbn; [lia|].
  etrans; [|apply send_loop_calls_mono]. cbn. lia.
Qed.

End sink_facts.

(** C2 (as amended). Whatever the payload, when every call of the
    collaborator either returns or raises an HTTP status error (4xx, 5xx or
    any other status), [send] returns normally; with a retry cap of at least
    one it has then counted exactly one success or one failure. *)
Theorem send_returns_on_http_outcomes
    (post : nat → Client.response) (jitter : Z → float)
    (payload : gmap string string) (s : Sink.ResponseSink) :
  http_only post →
  ∃ s', Sink.send post jitter payload s = (Ok (), s')
        ∧ (1 ≤ Sink._max_retries s →
           Sink.success_count s' + Sink.failure_count s'
           = Sink.success_count s + Sink.failure_count s + 1).
Proof.
  intros Hpost. unfold Sink.send.
  destruct (Z.le_gt_cases 1 (Sink._max_retries s)) as [Hm|Hm].
  - destruct (send_loop_http_only post jitter payload
                (Sink.range1 (Sink._max_retries s))
                0x1.999999999999ap-3%float s (Sink._max_retries s))
      as (s' & Hs' & Hsum); [done|by apply last_range1|lia|].
    exists s'. by split.
  - rewrite range1_nonpos by lia. exists s. split; [done|lia].
Qed.

Lemma send_returns_on_http_outcomes_witness :
  ∃ s', Sink.send always_500 (λ _, 1%float) ∅
          (Sink.init Config.defaults None) = (Ok (), s')
        ∧ (1 ≤ Sink._max_retries (Sink.init Config.defaults None) →
           Sink.success_count s' + Sink.failure_count s'
           = Sink.success_count (Sink.init Config.defaults None)
             + Sink.failure_count (Sink.init Config.defaults None) + 1).
Proof.
  apply send_returns_on_http_outcomes.
  intros k. right. exists 500. reflexivity.
Defined.

(** C2 (counterexample). A client that cannot reach the endpoint makes
    [send] raise on its first attempt: only [HTTPStatusError] is caught. *)
Lemma send_raises_transport_error :
  (Sink.send unreachable (λ _, 1%float) ∅ (Sink.init Config.defaults None)).1
  = Raise TransportError.
Proof. reflexivity. Qed.

(** C3 (what the code does). With [max_retries=2] and a collaborator that
    always answers 500, [send] stops at the second attempt without sleeping
    again: one retry is counted, not two. *)
Theorem send_always_500_counts (jitter : Z → float)
    (payload : gmap string string) :
  ∃ s', Sink.send always_500 jitter payload
          (Sink.init Config.defaults (Some 2)) = (Ok (), s')
        ∧ Sink.success_count s' = 0
        ∧ Sink.retry_count s' = 1
        ∧ Sink.failure_count s' = 1
        ∧ Sink.calls s' = 2%nat.
Proof. eexists. split; [reflexivity|]. by simpl. Qed.

(** C7. With [max_retries=5] and a collaborator answering 500, 502, 200,
    [send] ends with one success, two retries and no failure, and makes no
    call after the third. *)
Theorem send_500_502_200_counts (jitter : Z → float)
    (payload : gmap string string) :
  ∃ s', Sink.send (Client.dummy_post_response [500; 502; 200]) jitter payload
          (Sink.init Config.defaults (Some 5)) = (Ok (), s')
        ∧ Sink.success_count s' = 1
        ∧ Sink.retry_count s' = 2
        ∧ Sink.failure_count s' = 0
        ∧ Sink.calls s' = 3%nat.
Proof. eexists. split; [reflexivity|]. by simpl. Qed.

(** C9. [max_retries=0] is replaced by the configured default, 3 with the
    class defaults, so [send] calls the collaborator at least once. *)
Theorem init_zero_retries_uses_default :
  (∀ settings, Sink._max_retries (Sink.init settings (Some 0))
               = Config.max_retries settings)
  ∧ Sink._max_retries (Sink.init Config.defaults (Some 0)) = 3
  ∧ ∀ post jitter payload,
      (1 ≤ Sink.calls (Sink.send post jitter payload
                         (Sink.init Config.defaults (Some 0%Z))).2)%nat.
Proof.
  split; [done|]. split; [done|]. intros post jitter payload.
  apply send_loop_calls_first.
Qed.

(** ** Deadlines *)

Section deadline_facts.
Import Models.

Lemma Qfloor_scale (m e : Z) :
  Qfloor (inject_Z m * Qpower 2 e) = Z.shiftl m e.
Proof.
  destruct (Z.le_gt_cases 0 e) as [He|He].
  - rewrite Z.shiftl_mul_pow2 by done.
    rewrite <- (Qfloor_Z (m * 2 ^ e)). apply Qfloor_comp.
    rewrite inject_Z_mult, Zpower_Qpower by done. reflexivity.
  - rewrite Z.shiftl_div_pow2 by lia. rewrite Zdiv_Qdiv.
    apply Qfloor_comp. unfold Qdiv.
    rewrite Zpower_Qpower by lia. rewrite Qpower_opp, Qinv_involutive.
    reflexivity.
Qed.

Lemma Qscale_pos (m : positive) (e : Z) :
  (0 < inject_Z (Z.pos m) * Qpower 2 e)%Q.
Proof.
  apply Qmult_lt_0_compat; [|by apply Qpower_0_lt].
  unfold Qlt, inject_Z. simpl. lia.
Qed.

(** [int] drops the fraction of the exact value of its argument. *)
Lemma int_of_float_trunc (x : float) (v : Q) :
  float_value x = Some v → int_of_float x = Ok (Qtrunc v).
Proof.
  unfold float_value, int_of_float, SF2Q, Qtrunc.
  destruct (Prim2SF x) as [? | ? | | s m e]; intros Hv; simplify_eq; [done|].
  pose proof (Qscale_pos m e) as Hpos. f_equal.
  destruct s.
  - destruct (Qle_bool _ _) eqn:Hle.
    + apply Qle_bool_iff in Hle. exfalso.
      apply (Qlt_irrefl 0). eapply Qlt_le_trans; [exact Hpos|].
      apply Qopp_le_compat in Hle. rewrite Qopp_involutive in Hle.
      exact Hle.
    + unfold Qceiling. rewrite (Qfloor_comp _ _ (Qopp_involutive _)).
      by rewrite Qfloor_scale.
  - destruct (Qle_bool _ _) eqn:Hle.
    + symmetry. apply Qfloor_scale.
    + exfalso. apply Qlt_le_weak, Qle_bool_iff in Hpos. congruence.
Qed.

End deadline_facts.

(** C8 (as amended). When the binary64 product [d * 1e9] is finite with
    exact value [v], [from_external] yields the deadline [t + trunc v], the
    fraction of [v] being dropped toward zero; for [v >= 0] that is
    [t + floor v]. An offset of 1.5 s at fetch-start 1_000_000_000 ns gives
    2_500_000_000 ns. *)
Theorem from_external_deadline :
  (∀ (raw : Models.EmailIn) (t : Z) (v : Q),
      Models.float_value (Models.in_deadline raw * 1000000000)%float = Some v →
      ∃ e, Models.from_external raw t = Ok e
           ∧ Models.deadline_ns e = t + Models.Qtrunc v
           ∧ ((0 <= v)%Q → Models.deadline_ns e = t + Qfloor v)
           ∧ Models.email_id e = Models.in_email_id raw
           ∧ Models.dependencies e = Models.in_dependencies raw)
  ∧ (∀ id subj body deps,
      ∃ e, Models.from_external
             {| Models.in_email_id := id; Models.in_subject := subj;
                Models.in_body := body; Models.in_deadline := 1.5%float;
                Models.in_dependencies := deps |} 1000000000 = Ok e
           ∧ Models.deadline_ns e = 2500000000).
Proof.
  split.
  - intros raw t v Hv. unfold Models.from_external.
    rewrite (int_of_float_trunc _ v Hv). eexists. split; [reflexivity|].
    cbn. split; [done|]. split; [|done].
    intros Hle. unfold Models.Qtrunc.
    apply Qle_bool_iff in Hle. by rewrite Hle.
  - intros. eexists. split; reflexivity.
Qed.

Lemma from_external_deadline_witness :
  ∃ e, Models.from_external item_1_5 1000000000 = Ok e
       ∧ Models.deadline_ns e
         = 1000000000 + Models.Qtrunc (6291456000000000 # 4194304)
       ∧ ((0 <= 6291456000000000 # 4194304)%Q →
          Models.deadline_ns e
          = 1000000000 + Qfloor (6291456000000000 # 4194304))
       ∧ Models.email_id e = Models.in_email_id item_1_5
       ∧ Models.dependencies e = Models.in_dependencies item_1_5.
Proof.
  apply (proj1 from_external_deadline item_1_5 1000000000
           (6291456000000000 # 4194304)).
  vm_compute. reflexivity.
Defined.

(** C8 (counterexample). For the offset [-2^-31] s the product is about
    -0.47: [int] gives 0 where the floor is -1, so the deadline is the
    fetch-start itself and not one nanosecond before it. *)
Lemma from_external_not_floor :
  ∃ e z, Models.from_external item_before_fetch 1000000000 = Ok e
         ∧ Models.floor_scaled (Models.in_deadline item_before_fetch) = Some z
         ∧ Models.deadline_ns e = 1000000000
         ∧ 1000000000 + z = 999999999.
Proof. eexists _, _. split; [|split]; [vm_compute; reflexivity..|done]. Qed.

(** ** Heaps *)

(** Let [lia] reason about the index arithmetic [(k - 1) / 2]. *)
#[local] Ltac Zify.zify_post_hook ::= Z.to_euclidean_division_equations.

Section heap_facts.
Context {A : Type} (lt : A → A → bool) `{!StrictTotal lt}.

Lemma lt_asym a b : lt a b = true → lt b a = false.
Proof.
  intros Hab. destruct (lt b a) eqn:Hba; [|done].
  by rewrite <- (lt_irrefl (lt:=lt) a), (lt_trans (lt:=lt) a b a).
Qed.

(** [a <= b] and [b <= c] give [a <= c], where [a <= b] is [not b < a]. *)
Lemma le_trans a b c : lt b a = false → lt c b = false → lt c a = false.
Proof.
  intros Hab Hbc. destruct (lt c a) eqn:Hca; [|done].
  destruct (lt a b) eqn:Hlt.
  - by rewrite (lt_trans (lt:=lt) c a b) in Hbc.
  - assert (a = b) as -> by by apply (lt_total (lt:=lt)). congruence.
Qed.

Lemma lt_le_trans a b c : lt a b = true → lt c b = false → lt c a = false.
Proof.
  intros Hab Hbc. destruct (lt c a) eqn:Hca; [|done].
  by rewrite (lt_trans (lt:=lt) c a b) in Hbc.
Qed.

Lemma list_swap_perm (h : list A) i j a b :
  h !! i = Some a → h !! j = Some b → <[i := b]> (<[j := a]> h) ≡ₚ h.
Proof.
  intros Hi Hj. apply Permutation_inj. split.
  { by rewrite !length_insert. }
  exists (λ k, if decide (k = i) then j else if decide (k = j) then i else k).
  split.
  - intros k1 k2 Hk. repeat case_decide; congruence.
  - intros k. pose proof (lookup_lt_Some _ _ _ Hi).
    pose proof (lookup_lt_Some _ _ _ Hj).
    destruct (decide (k = i)) as [->|].
    { rewrite list_lookup_insert_eq by by rewrite length_insert. done. }
    rewrite list_lookup_insert_ne by done.
    destruct (decide (k = j)) as [->|].
    { by rewrite list_lookup_insert_eq. }
    by rewrite list_lookup_insert_ne.
Qed.

Lemma heap_ok_min (h : list A) r :
  heap_ok lt h → h !! 0%nat = Some r →
  ∀ k y, h !! k = Some y → lt y r = false.
Proof.
  intros Hh Hr k. induction (lt_wf k) as [k _ IH]. intros y Hy.
  destruct (decide (k = 0%nat)) as [->|].
  { simplify_eq. apply (lt_irrefl (lt:=lt)). }
  assert ((k - 1) / 2 < k)%nat as Hp by lia.
  destruct (lookup_lt_is_Some_2 h ((k - 1) / 2)%nat) as [z Hz].
  { apply lookup_lt_Some in Hy. lia. }
  eapply le_trans; [by eapply IH|]. eapply Hh; [|done..]. lia.
Qed.


(** One turn of [_siftdown]'s loop keeps the invariant: the parent moves
    down and [newitem] stands one level higher. *)
Lemma almost_heap_up (h : list A) pos x parent :
  (0 < pos)%nat → (pos < length h)%nat →
  h !! ((pos - 1) / 2)%nat = Some parent →
  lt x parent = true →
  almost_heap lt (<[pos := x]> h) pos →
  almost_heap lt (<[((pos - 1) / 2)%nat := x]> (<[pos := parent]> h))
    ((pos - 1) / 2)%nat.
Proof.
  intros Hpos Hlen Hparent Hlt [H1 H2].
  set (pp := ((pos - 1) / 2)%nat) in *.
  assert (pp < pos)%nat as Hpp by (unfold pp; lia).
  assert (∀ k, k ≠ pos → <[pos := x]> h !! k = h !! k) as Hv
    by (intros; by apply list_lookup_insert_ne).
  assert (<[pos := x]> h !! pp = Some parent) as Hvpp
    by (rewrite Hv by lia; done).
  assert (∀ k, k ≠ pos → k ≠ pp →
            <[pp := x]> (<[pos := parent]> h) !! k = h !! k) as Hw.
  { intros. by rewrite !list_lookup_insert_ne. }
  assert (<[pp := x]> (<[pos := parent]> h) !! pp = Some x) as Hwpp.
  { apply list_lookup_insert_eq. rewrite length_insert. lia. }
  assert (<[pp := x]> (<[pos := parent]> h) !! pos = Some parent) as Hwpos.
  { rewrite list_lookup_insert_ne by lia. by apply list_lookup_insert_eq. }
  split.
  - intros k xk pk Hk Hne Hxk Hpk.
    destruct (decide (k = pos)) as [->|Hkpos].
    { fold pp in Hpk. assert (xk = parent) as -> by congruence.
      assert (pk = x) as -> by congruence. by apply lt_asym. }
    rewrite Hw in Hxk by done.
    destruct (decide (((k - 1) / 2)%nat = pos)) as [Hq|Hq].
    { rewrite Hq in Hpk. assert (pk = parent) as -> by congruence.
      apply (H2 k xk parent); try done. by rewrite Hv. }
    destruct (decide (((k - 1) / 2)%nat = pp)) as [Hq'|Hq'].
    { rewrite Hq' in Hpk. assert (pk = x) as -> by congruence.
      eapply lt_le_trans; [exact Hlt|].
      apply (H1 k xk parent); try done; [by rewrite Hv|by rewrite Hq']. }
    rewrite Hw in Hpk by done.
    apply (H1 k xk pk); try done; by rewrite Hv.
  - intros c xc g Hpp0 Hc Hcp Hxc Hg.
    assert ((pp - 1) / 2 < pp)%nat by lia.
    rewrite Hw in Hg by lia.
    assert (lt parent g = false) as Hgp.
    { apply (H1 pp parent g); try done; [lia|by rewrite Hv by lia]. }
    destruct (decide (c = pos)) as [->|Hcpos].
    { by assert (xc = parent) as -> by congruence. }
    rewrite Hw in Hxc by lia.
    eapply le_trans; [exact Hgp|].
    apply (H1 c xc parent); try done; [by rewrite Hv|by rewrite Hcp].
Qed.

Lemma siftdown_loop_spec fuel : ∀ (h : list A) pos x,
  (pos ≤ fuel)%nat → (pos < length h)%nat →
  almost_heap lt (<[pos := x]> h) pos →
  ∃ h1 p1, Heapq.siftdown_loop lt fuel h 0 pos x = (h1, p1)
    ∧ heap_ok lt (<[p1 := x]> h1)
    ∧ <[p1 := x]> h1 ≡ₚ <[pos := x]> h.
Proof.
  induction fuel as [|fuel IH]; intros h pos x Hfuel Hlen Halmost.
  - exists h, pos. split; [done|]. split; [|done].
    intros k xk pk Hk. apply Halmost; [done|lia].
  - cbn [Heapq.siftdown_loop]. case_decide as Hpos.
    2:{ exists h, pos. split; [done|]. split; [|done].
        intros k xk pk Hk. apply Halmost; [done|lia]. }
    assert ((pos - 1) / 2 < pos)%nat as Hpp by lia.
    destruct (lookup_lt_is_Some_2 h ((pos - 1) / 2)%nat) as [parent Hparent];
      [lia|].
    rewrite Hparent. destruct (lt x parent) eqn:Hlt.
    + destruct (IH (<[pos := parent]> h) ((pos - 1) / 2)%nat x)
        as (h1 & p1 & Hloop & Hheap & Hperm).
      * lia.
      * rewrite length_insert. lia.
      * by apply almost_heap_up.
      * exists h1, p1. split; [done|]. split; [done|].
        rewrite Hperm.
        rewrite <- (list_insert_insert_eq h pos parent x).
        apply list_swap_perm.
        -- rewrite list_lookup_insert_ne by lia. done.
        -- by apply list_lookup_insert_eq.
    + exists h, pos. split; [done|]. split; [|done].
      destruct Halmost as [H1 _]. intros k xk pk Hk Hxk Hpk.
      destruct (decide (k = pos)) as [->|]; [|by eapply H1].
      rewrite list_lookup_insert_eq in Hxk by done.
      rewrite list_lookup_insert_ne in Hpk by lia. by simplify_eq.
Qed.


Lemma siftdown_spec (h : list A) pos :
  (pos < length h)%nat → almost_heap lt h pos →
  heap_ok lt (Heapq._siftdown lt h 0 pos) ∧ Heapq._siftdown lt h 0 pos ≡ₚ h.
Proof.
  intros Hlen Halmost. unfold Heapq._siftdown.
  destruct (lookup_lt_is_Some_2 h pos Hlen) as [x Hx]. rewrite Hx.
  destruct (siftdown_loop_spec pos h pos x) as (h1 & p1 & -> & Hheap & Hperm);
    [done|done|by rewrite list_insert_id|].
  split; [done|]. by rewrite Hperm, list_insert_id.
Qed.

Lemma heappush_spec (h : list A) item :
  heap_ok lt h →
  heap_ok lt (Heapq.heappush lt h item) ∧ Heapq.heappush lt h item ≡ₚ item :: h.
Proof.
  intros Hh. unfold Heapq.heappush.
  destruct (siftdown_spec (h ++ [item]) (length h)) as [Hheap Hperm].
  { rewrite length_app. simpl. lia. }
  { split.
    - intros k x p Hk Hne Hx Hp.
      assert (k < length h)%nat.
      { apply lookup_lt_Some in Hx. rewrite length_app in Hx. simpl in Hx. lia. }
      rewrite lookup_app_l in Hx, Hp by lia. by eapply Hh.
    - intros c x p _ Hc Hcp Hx _.
      apply lookup_lt_Some in Hx. rewrite length_app in Hx. simpl in Hx. lia. }
  split; [done|]. rewrite Hperm. by rewrite Permutation_app_comm.
Qed.

(** One turn of [_siftup]'s loop keeps the invariant: the smaller child moves
    up and leaves its place. *)
Lemma hole_heap_down (h : list A) pos c xc :
  (c = 2 * pos + 1 ∨ c = 2 * pos + 2)%nat →
  h !! c = Some xc →
  (∀ c' x', (c' = 2 * pos + 1 ∨ c' = 2 * pos + 2)%nat →
            h !! c' = Some x' → lt x' xc = false) →
  hole_heap lt h pos →
  hole_heap lt (<[pos := xc]> h) c.
Proof.
  intros Hc Hxc Hsmall [H1 H2].
  assert (pos < c)%nat by lia.
  assert (pos < length h)%nat by (apply lookup_lt_Some in Hxc; lia).
  assert (<[pos := xc]> h !! pos = Some xc) as Hwpos
    by by apply list_lookup_insert_eq.
  assert (∀ k, k ≠ pos → <[pos := xc]> h !! k = h !! k) as Hw
    by (intros; by apply list_lookup_insert_ne).
  split.
  - intros k xk pk Hk Hkc Hpc Hxk Hpk.
    destruct (decide (k = pos)) as [->|Hkpos].
    { assert (xk = xc) as -> by congruence.
      rewrite Hw in Hpk by lia. apply (H2 c xc pk); try done; lia. }
    rewrite Hw in Hxk by done.
    destruct (decide (((k - 1) / 2)%nat = pos)) as [Hq|Hq].
    { rewrite Hq in Hpk. assert (pk = xc) as -> by congruence.
      apply (Hsmall k); [lia|done]. }
    rewrite Hw in Hpk by done. by apply (H1 k xk pk).
  - intros d xd g Hc0 Hd Hdc Hxd Hg.
    replace ((c - 1) / 2)%nat with pos in Hg by lia.
    assert (g = xc) as -> by congruence.
    rewrite Hw in Hxd by lia.
    apply (H1 d xd xc); try done; [lia..|by rewrite Hdc].
Qed.

Lemma siftup_loop_spec fuel : ∀ (h : list A) pos x,
  (length h - pos ≤ fuel)%nat → (pos < length h)%nat →
  hole_heap lt h pos →
  ∃ h1 leaf, Heapq.siftup_loop lt fuel h pos = (h1, leaf)
    ∧ (leaf < length h1)%nat ∧ (length h1 ≤ 2 * leaf + 1)%nat
    ∧ hole_heap lt h1 leaf
    ∧ <[leaf := x]> h1 ≡ₚ <[pos := x]> h.
Proof.
  induction fuel as [|fuel IH]; intros h pos x Hfuel Hlen Hhole; [lia|].
  cbn [Heapq.siftup_loop]. case_decide as Hchild.
  2:{ exists h, pos. split; [done|]. split; [done|]. split; [lia|].
      by split. }
  destruct (lookup_lt_is_Some_2 h (2 * pos + 1)%nat Hchild) as [l Hl].
  rewrite Hl.
  assert (∃ c xc, (c = 2 * pos + 1 ∨ c = 2 * pos + 2)%nat
            ∧ h !! c = Some xc
            ∧ (∀ c' x', (c' = 2 * pos + 1 ∨ c' = 2 * pos + 2)%nat →
                 h !! c' = Some x' → lt x' xc = false)
            ∧ match h !! (2 * pos + 1 + 1)%nat with
              | Some r => if negb (lt l r) then (2 * pos + 1 + 1)%nat
                          else (2 * pos + 1)%nat
              | None => (2 * pos + 1)%nat
              end = c) as (c & xc & Hc & Hxc & Hsmall & ->).
  { destruct (h !! (2 * pos + 1 + 1)%nat) as [r|] eqn:Hr.
    - destruct (lt l r) eqn:Hlr; cbn [negb].
      + exists (2 * pos + 1)%nat, l. split; [lia|]. split; [done|].
        split; [|done]. intros c' x' [->| ->] Hx'.
        * assert (x' = l) as -> by congruence. apply (lt_irrefl (lt:=lt)).
        * replace (2 * pos + 2)%nat with (2 * pos + 1 + 1)%nat in Hx' by lia.
          assert (x' = r) as -> by congruence. by apply lt_asym.
      + exists (2 * pos + 1 + 1)%nat, r. split; [lia|]. split; [done|].
        split; [|done]. intros c' x' [->| ->] Hx'.
        * by assert (x' = l) as -> by congruence.
        * replace (2 * pos + 2)%nat with (2 * pos + 1 + 1)%nat in Hx' by lia.
          assert (x' = r) as -> by congruence. apply (lt_irrefl (lt:=lt)).
    - exists (2 * pos + 1)%nat, l. split; [lia|]. split; [done|].
      split; [|done]. intros c' x' [->| ->] Hx'.
      + assert (x' = l) as -> by congruence. apply (lt_irrefl (lt:=lt)).
      + replace (2 * pos + 2)%nat with (2 * pos + 1 + 1)%nat in Hx' by lia.
        congruence. }
  rewrite Hxc.
  assert (c < length h)%nat by by eapply lookup_lt_Some.
  destruct (IH (<[pos := xc]> h) c x)
    as (h1 & leaf & Hloop & Hleaf & Hleaf' & Hhole' & Hperm).
  - rewrite length_insert. lia.
  - by rewrite length_insert.
  - by apply hole_heap_down.
  - exists h1, leaf. do 4 (split; [done|]).
    rewrite Hperm. rewrite <- (list_insert_insert_eq h pos xc x).
    apply list_swap_perm.
    + rewrite list_lookup_insert_ne by lia. done.
    + by apply list_lookup_insert_eq.
Qed.


(** At a leaf the hole can take any item: only its parent may be larger. *)
Lemma hole_leaf_almost (h : list A) leaf x :
  (length h ≤ 2 * leaf + 1)%nat → hole_heap lt h leaf →
  almost_heap lt (<[leaf := x]> h) leaf.
Proof.
  intros Hleaf [H1 _]. split.
  - intros k xk pk Hk Hne Hxk Hpk.
    rewrite list_lookup_insert_ne in Hxk by done.
    assert (((k - 1) / 2)%nat ≠ leaf).
    { intros Hq. apply lookup_lt_Some in Hxk. lia. }
    rewrite list_lookup_insert_ne in Hpk by done. by eapply H1.
  - intros c xc p _ Hc Hcp Hxc _.
    apply lookup_lt_Some in Hxc. rewrite length_insert in Hxc. lia.
Qed.

Lemma siftup_spec (t : list A) x :
  hole_heap lt (x :: t) 0 →
  heap_ok lt (Heapq._siftup lt (x :: t) 0)
  ∧ Heapq._siftup lt (x :: t) 0 ≡ₚ x :: t.
Proof.
  intros Hhole. unfold Heapq._siftup. cbn [lookup list_lookup].
  destruct (siftup_loop_spec (length (x :: t)) (x :: t) 0 x)
    as (h1 & leaf & -> & Hleaf & Hleaf' & Hhole' & Hperm);
    [lia|simpl; lia|done|].
  destruct (siftdown_spec (<[leaf := x]> h1) leaf) as [Hheap Hperm'].
  { by rewrite length_insert. }
  { by apply hole_leaf_almost. }
  split; [done|]. by rewrite Hperm', Hperm.
Qed.

Lemma heap_ok_prefix (h1 h2 : list A) : heap_ok lt (h1 ++ h2) → heap_ok lt h1.
Proof.
  intros Hh k x p Hk Hx Hp. apply (Hh k x p Hk); by apply lookup_app_l_Some.
Qed.

Lemma heappop_nil : Heapq.heappop lt [] = None.
Proof. done. Qed.

(** [heappop] takes the first item, which no item of the heap is smaller
    than, and leaves a heap of the other items. *)
Lemma heappop_spec (h : list A) :
  heap_ok lt h → h ≠ [] →
  ∃ x h', Heapq.heappop lt h = Some (x, h')
    ∧ h ≡ₚ x :: h' ∧ heap_ok lt h' ∧ ∀ y, y ∈ h → lt y x = false.
Proof.
  intros Hh Hne. apply last_is_Some in Hne as [lastelt Hlast].
  unfold Heapq.heappop. rewrite Hlast.
  apply last_Some in Hlast as [t0 ->]. rewrite removelast_last.
  assert (∀ x, (t0 ++ [lastelt]) !! 0%nat = Some x →
            ∀ y, y ∈ t0 ++ [lastelt] → lt y x = false) as Hmin.
  { intros x Hx y [k Hy]%list_elem_of_lookup. by eapply heap_ok_min. }
  destruct t0 as [|r t].
  - exists lastelt, []. split; [done|]. split; [done|]. split.
    + intros k x p _ Hx. done.
    + by apply Hmin.
  - cbn [insert list_insert].
    destruct (siftup_spec t lastelt) as [Hheap Hperm].
    { split; [|intros; lia].
      intros k x p Hk _ Hq Hx Hp.
      destruct k as [|k]; [lia|].
      destruct ((S k - 1) / 2)%nat as [|q] eqn:Hq'; [done|].
      apply (heap_ok_prefix _ _ Hh (S k) x p); [lia|done|by rewrite Hq']. }
    eexists _, _. split; [done|]. split; [|split; [done|by apply Hmin]].
    rewrite Hperm. simpl. f_equiv. by rewrite Permutation_app_comm.
Qed.

End heap_facts.

(** ** The order of the queue entries *)

Lemma ascii_compare_refl a : Ascii.compare a a = Eq.
Proof. apply N.compare_refl. Qed.

Lemma string_compare_refl s : String.compare s s = Eq.
Proof. induction s as [|a s IH]; [done|]. simpl. by rewrite ascii_compare_refl. Qed.

Lemma string_compare_lt_trans a : ∀ b c,
  String.compare a b = Lt → String.compare b c = Lt → String.compare a c = Lt.
Proof.
  induction a as [|x a IH]; intros [|y b] [|z c]; simpl; try done.
  unfold Ascii.compare.
  destruct (N.compare_spec (Ascii.N_of_ascii x) (Ascii.N_of_ascii y)) as [Hxy|Hxy|Hxy];
    [| |done].
  - rewrite Hxy. destruct (N.compare (Ascii.N_of_ascii y) (Ascii.N_of_ascii z));
      [apply IH|done..].
  - intros _.
    destruct (N.compare_spec (Ascii.N_of_ascii y) (Ascii.N_of_ascii z)) as [Hyz|Hyz|Hyz];
      [| |done]; intros _.
    + rewrite <- Hyz. by apply N.compare_lt_iff in Hxy as ->.
    + assert (Ascii.N_of_ascii x < Ascii.N_of_ascii z)%N as Hxz by lia.
      by apply N.compare_lt_iff in Hxz as ->.
Qed.

#[global] Instance string_ltb_strict_total : StrictTotal String.ltb.
Proof.
  split.
  - intros s. unfold String.ltb. by rewrite string_compare_refl.
  - intros a b c. unfold String.ltb.
    destruct (String.compare a b) eqn:Hab; try done.
    destruct (String.compare b c) eqn:Hbc; try done.
    by rewrite (string_compare_lt_trans a b c).
  - intros a b. unfold String.ltb. rewrite (String.compare_antisym b a).
    destruct (String.compare a b) eqn:Hab; try done.
    intros _ _. by apply String.compare_eq_iff.
Qed.

#[global] Instance entry_lt_strict_total : StrictTotal Scheduler.entry_lt.
Proof.
  split.
  - intros [d i]. unfold Scheduler.entry_lt. simpl. rewrite Z.eqb_refl.
    apply (lt_irrefl (lt:=String.ltb)).
  - intros [d1 i1] [d2 i2] [d3 i3]. unfold Scheduler.entry_lt. simpl.
    destruct (Z.eqb_spec d1 d2), (Z.eqb_spec d2 d3), (Z.eqb_spec d1 d3),
      (Z.ltb_spec d1 d2), (Z.ltb_spec d2 d3), (Z.ltb_spec d1 d3);
      try done; try lia.
    apply (lt_trans (lt:=String.ltb)).
  - intros [d1 i1] [d2 i2]. unfold Scheduler.entry_lt. simpl.
    destruct (Z.eqb_spec d1 d2), (Z.eqb_spec d2 d1),
      (Z.ltb_spec d1 d2), (Z.ltb_spec d2 d1); try done; try lia.
    all: intros; subst; f_equal; by apply (lt_total (lt:=String.ltb)).
Qed.

(** ** The scheduler *)

Section scheduler_facts.
Import Models Scheduler.

Lemma build_deps_map_emails emails :
  build_deps_map emails
  = (λ e, list_to_set (dependencies e)) <$> build_emails emails.
Proof.
  unfold build_deps_map, build_emails.
  rewrite <- (fmap_empty (λ e : EmailInternal, list_to_set (dependencies e))).
  generalize (∅ : gmap string EmailInternal).
  induction emails as [|e emails IH]; intros acc; [done|].
  simpl. rewrite <- IH. f_equal.
  by rewrite (fmap_insert (λ e : EmailInternal, list_to_set (dependencies e))).
Qed.

Lemma build_emails_snoc emails e :
  build_emails (emails ++ [e]) = <[email_id e := e]> (build_emails emails).
Proof. unfold build_emails. by rewrite foldl_app. Qed.

Lemma build_emails_lookup emails i e :
  build_emails emails !! i = Some e → e ∈ emails ∧ email_id e = i.
Proof.
  induction emails as [|x emails IH] using rev_ind; [done|].
  rewrite build_emails_snoc. intros [[<- <-]|[? H]]%lookup_insert_Some.
  - split; [|done]. apply elem_of_app. right. by apply list_elem_of_singleton.
  - destruct (IH H). split; [|done]. apply elem_of_app. by left.
Qed.

Lemma build_emails_unique emails e :
  NoDup (ids emails) → e ∈ emails →
  build_emails emails !! email_id e = Some e.
Proof.
  induction emails as [|x emails IH] using rev_ind; [by intros _ ?%elem_of_nil|].
  unfold ids. rewrite fmap_app. intros [Hnd [Hx _]]%NoDup_app.
  rewrite build_emails_snoc.
  intros [He| ->%list_elem_of_singleton]%elem_of_app.
  - rewrite lookup_insert_ne; [by apply IH|].
    intros Heq. apply (Hx (email_id e)).
    + by apply list_elem_of_fmap_2.
    + simpl. rewrite Heq. by left.
  - by rewrite lookup_insert_eq.
Qed.

Lemma build_emails_dom emails i :
  is_Some (build_emails emails !! i) ↔ i ∈ ids emails.
Proof.
  split.
  - intros [e [He <-]%build_emails_lookup]. by apply list_elem_of_fmap_2.
  - induction emails as [|x emails IH] using rev_ind; [by intros ?%elem_of_nil|].
    unfold ids. rewrite fmap_app, build_emails_snoc.
    destruct (decide (email_id x = i)) as [->|].
    { intros _. rewrite lookup_insert_eq. by eexists. }
    rewrite lookup_insert_ne by done.
    intros [?|Hi%list_elem_of_singleton]%elem_of_app; [by apply IH|done].
Qed.


Lemma add_dependent_lookup parent eid (m : gmap string (gset string)) p child :
  child ∈ default ∅ (add_dependent parent eid m !! p)
  ↔ child ∈ default ∅ (m !! p) ∨ (child = eid ∧ p = parent).
Proof.
  unfold add_dependent. destruct (decide (parent = p)) as [->|].
  - rewrite lookup_insert_eq. simpl.
    rewrite elem_of_union, elem_of_singleton. tauto.
  - rewrite lookup_insert_ne by done. split; [by left|].
    intros [?|[_ ?]]; [done|congruence].
Qed.

(** [dependents_map] holds the declared dependencies, turned round. *)
Lemma build_dependents_spec (dm : gmap string (gset string)) :
  ∀ parent child,
    child ∈ default ∅ (build_dependents_map dm !! parent)
    ↔ depends dm child parent.
Proof.
  unfold build_dependents_map.
  apply (map_fold_weak_ind (λ r m, ∀ parent child,
           child ∈ default ∅ (r !! parent) ↔ depends m child parent)).
  { intros parent child. rewrite lookup_empty. simpl.
    split; [by intros ?%not_elem_of_empty|].
    intros (deps & Hdeps & _). by rewrite lookup_empty in Hdeps. }
  intros i x m r Hi IH.
  assert (∀ parent child,
            child ∈ default ∅ (set_fold (λ parent m, add_dependent parent i m)
                                 r x !! parent)
            ↔ child ∈ default ∅ (r !! parent) ∨ (child = i ∧ parent ∈ x))
    as Hfold.
  { apply (set_fold_ind_L (λ acc (X : gset string), ∀ parent child,
      child ∈ default ∅ (acc !! parent)
      ↔ child ∈ default ∅ (r !! parent) ∨ (child = i ∧ parent ∈ X))).
    - intros p c. split; [by left|]. intros [?|[_ []%not_elem_of_empty]].
      done.
    - intros p X acc Hp IHacc p' c. rewrite add_dependent_lookup, IHacc.
      rewrite elem_of_union, elem_of_singleton. tauto. }
  intros parent child. rewrite Hfold, IH. unfold depends. split.
  - intros [(deps & Hdeps & Hin)|[-> Hin]].
    + exists deps. split; [|done]. rewrite lookup_insert_ne; [done|].
      intros ->. congruence.
    + exists x. by rewrite lookup_insert_eq.
  - intros (deps & [[<- <-]|[? Hdeps]]%lookup_insert_Some & Hin);
      [by right|left; by exists deps].
Qed.


Lemma heappush_heap_ok (q : list entry) x :
  heap_ok entry_lt q → heap_ok entry_lt (Heapq.heappush entry_lt q x).
Proof. intros Hq. by destruct (heappush_spec entry_lt q x Hq). Qed.

Lemma heappush_elem (q : list entry) x y :
  heap_ok entry_lt q →
  y ∈ Heapq.heappush entry_lt q x ↔ y = x ∨ y ∈ q.
Proof.
  intros Hq. destruct (heappush_spec entry_lt q x Hq) as [_ Hperm].
  rewrite Hperm. apply elem_of_cons.
Qed.

(** The queue built by [__init__]: a heap of the entries of the items whose
    dependency set is empty. *)
Lemma init_queue_spec dm emails : ∀ q,
  (∀ e, e ∈ emails → is_Some (dm !! email_id e)) →
  heap_ok entry_lt q →
  ∃ q', init_queue dm emails q = Ok q'
    ∧ heap_ok entry_lt q'
    ∧ ∀ d i, (d, i) ∈ q'
        ↔ (d, i) ∈ q
          ∨ ∃ e, e ∈ emails ∧ d = deadline_ns e ∧ i = email_id e
                 ∧ dm !! i = Some ∅.
Proof.
  induction emails as [|e emails IH]; intros q Hdom Hq.
  { exists q. split; [done|]. split; [done|]. intros d i. split; [by left|].
    intros [?|(e & []%elem_of_nil & _)]. done. }
  cbn [init_queue]. destruct (Hdom e) as [deps Hdeps]; [by left|].
  unfold getitem. rewrite Hdeps. cbn.
  assert (∀ e', e' ∈ emails → is_Some (dm !! email_id e')) as Hdom'
    by (intros; apply Hdom; by right).
  case_decide as Hempty.
  - destruct (IH (Heapq.heappush entry_lt q (deadline_ns e, email_id e)))
      as (q' & -> & Hq' & Hin); [done|by apply heappush_heap_ok|].
    exists q'. split; [done|]. split; [done|]. intros d i.
    rewrite Hin, heappush_elem by done. split.
    + intros [[[= -> ->]|?]|(e' & ? & ?)].
      * right. exists e. subst. split; [by left|done].
      * by left.
      * right. exists e'. split; [by right|done].
    + intros [?|(e' & [->|?]%elem_of_cons & -> & -> & ?)].
      * left. by right.
      * left. by left.
      * right. by exists e'.
  - destruct (IH q) as (q' & -> & Hq' & Hin); [done..|].
    exists q'. split; [done|]. split; [done|]. intros d i.
    rewrite Hin. split.
    + intros [?|(e' & ? & ?)]; [by left|].
      right. exists e'. split; [by right|done].
    + intros [?|(e' & [->|?]%elem_of_cons & -> & -> & ?)]; [by left| |].
      * congruence.
      * right. by exists e'.
Qed.

Lemma heap_ok_nil : heap_ok entry_lt [].
Proof. intros k x p _ Hx. done. Qed.

Lemma build_deps_map_lookup emails e :
  e ∈ emails → is_Some (build_deps_map emails !! email_id e).
Proof.
  intros He. rewrite build_deps_map_emails, lookup_fmap.
  apply fmap_is_Some, build_emails_dom. by apply list_elem_of_fmap_2.
Qed.

(** [__init__] goes through exactly when [prepare] finds no cycle. *)
Lemma init_prepare_ok emails :
  Graphlib.prepare (Graphlib.sorter (build_deps_map emails)) = Ok () →
  ∃ s, init emails = Ok s.
Proof.
  intros Hprep. unfold init. rewrite Hprep.
  destruct (init_queue_spec (build_deps_map emails) emails [])
    as (q & -> & _); [apply build_deps_map_lookup|apply heap_ok_nil|].
  by eexists.
Qed.

Lemma init_inv emails s :
  init emails = Ok s →
  Graphlib.prepare (Graphlib.sorter (build_deps_map emails)) = Ok ()
  ∧ deps_map s = build_deps_map emails
  ∧ sched_inv emails ∅ s
  ∧ ∀ d i, (d, i) ∈ _queue s
      ↔ ∃ e, e ∈ emails ∧ d = deadline_ns e ∧ i = email_id e
             ∧ build_deps_map emails !! i = Some ∅.
Proof.
  unfold init.
  destruct (Graphlib.prepare _) as [[]|[]] eqn:Hprep; try done.
  destruct (init_queue_spec (build_deps_map emails) emails [])
    as (q & -> & Hq & Hin); [apply build_deps_map_lookup|apply heap_ok_nil|].
  cbn. intros [= <-]. split; [done|]. split; [done|].
  assert (∀ d i, (d, i) ∈ q
            ↔ ∃ e, e ∈ emails ∧ d = deadline_ns e ∧ i = email_id e
                   ∧ build_deps_map emails !! i = Some ∅) as Hin'.
  { intros d i. rewrite Hin. split; [|by right].
    by intros [?%elem_of_nil|?]. }
  split; [|done]. split; cbn; try done.
  - intros i e He. rewrite build_deps_map_emails, lookup_fmap, He. cbn.
    eexists. split; [done|]. split; [done|].
    by intros x [? _]%elem_of_difference.
  - intros d i (e & He & -> & -> & Hempty)%Hin'. split; [|done].
    apply build_emails_dom. by apply list_elem_of_fmap_2.
Qed.

Lemma init_keys emails s :
  NoDup (ids emails) → init emails = Ok s → keys_ok s.
Proof.
  intros Hnd (_ & _ & Hinv & Hin)%init_inv d i (e & He & -> & -> & _)%Hin.
  exists e. split; [|done]. rewrite (inv_emails _ _ _ Hinv).
  by apply build_emails_unique.
Qed.


Section invariant.
Variable emails : list EmailInternal.

Lemma sched_inv_mono dn dn' s :
  dn ⊆ dn' → sched_inv emails dn s → sched_inv emails dn' s.
Proof.
  intros Hsub [H1 H2 H3 H4 H5]. split; try done.
  intros i e He. destruct (H3 i e He) as (deps & Hdeps & Hsub1 & Hsub2).
  exists deps. split; [done|]. split; [done|].
  intros x [Hx Hnot]%elem_of_difference. apply Hsub2, elem_of_difference.
  split; [done|]. intros ?. by apply Hnot, Hsub.
Qed.

Lemma sched_inv_set_queue dn s q :
  sched_inv emails dn s →
  heap_ok entry_lt q →
  (∀ x, x ∈ q → x ∈ _queue s) →
  sched_inv emails dn (set_queue q s).
Proof.
  intros [H1 H2 H3 H4 H5] Hq Hsub. split; cbn; try done.
  intros d i Hin. by apply (H4 d i), Hsub.
Qed.

(** An item whose entry is in the queue has all its declared dependencies
    marked done. *)
Lemma sched_inv_ready dn s d i e :
  sched_inv emails dn s →
  (d, i) ∈ _queue s → _emails s !! i = Some e →
  e ∈ emails ∧ email_id e = i ∧ ∀ x, x ∈ dependencies e → x ∈ dn.
Proof.
  intros Hinv Hin He.
  destruct (inv_queue _ _ _ Hinv d i Hin) as [_ Hempty].
  destruct (inv_deps _ _ _ Hinv i e He) as (deps & Hdeps & _ & Hsub).
  rewrite (inv_emails _ _ _ Hinv) in He.
  apply build_emails_lookup in He as [He Hid]. split; [done|]. split; [done|].
  intros x Hx. destruct (decide (x ∈ dn)) as [|Hnot]; [done|].
  assert (x ∈ deps) as Hxd.
  { apply Hsub, elem_of_difference. split; [|done]. by apply elem_of_list_to_set. }
  assert (deps = ∅) as -> by congruence. by apply not_elem_of_empty in Hxd.
Qed.

(** [get_ready_batch] returns items of the batch whose dependencies are all
    marked done, and only takes entries out of the queue. *)
Lemma get_ready_loop_spec dn room : ∀ s batch,
  sched_inv emails dn s →
  ∃ popped q, get_ready_loop room s batch = (Ok (batch ++ popped), set_queue q s)
    ∧ sched_inv emails dn (set_queue q s)
    ∧ (∀ x, x ∈ q → x ∈ _queue s)
    ∧ (keys_ok s → keys_ok (set_queue q s))
    ∧ Forall (λ e, e ∈ emails ∧ ∀ x, x ∈ dependencies e → x ∈ dn) popped.
Proof.
  assert (∀ s, set_queue (_queue s) s = s) as Hid by by intros [].
  induction room as [|room IH]; intros s batch Hinv.
  { exists [], (_queue s). rewrite app_nil_r, Hid. do 4 (split; [done|]).
    constructor. }
  cbn [get_ready_loop]. case_decide as Hempty.
  { exists [], (_queue s). rewrite app_nil_r, Hid. do 4 (split; [done|]).
    constructor. }
  destruct (heappop_spec entry_lt (_queue s))
    as ([d i] & q & -> & Hperm & Hq & _); [apply Hinv|done|].
  assert ((d, i) ∈ _queue s) as Hin by (rewrite Hperm; by left).
  assert (∀ x, x ∈ q → x ∈ _queue s) as Hsub
    by (intros x Hx; rewrite Hperm; by right).
  destruct (inv_queue _ _ _ Hinv d i Hin) as [[e He] _].
  unfold getitem. cbn [_emails set_queue]. rewrite He.
  destruct (sched_inv_ready dn s d i e) as (Hmem & _ & Hdeps); [done..|].
  destruct (IH (set_queue q s) (batch ++ [e]))
    as (popped & q' & Hloop & Hinv' & Hsub' & Hkeys & Hall).
  { by apply sched_inv_set_queue. }
  exists (e :: popped), q'. rewrite Hloop, <- app_assoc. cbn.
  split; [done|]. split; [done|]. split; [by intros x ?%Hsub'%Hsub|].
  split.
  - intros Hk. apply Hkeys. intros d' i' Hin'. by apply Hk, Hsub.
  - by constructor.
Qed.


(** One turn of the loop of [mark_done], [email_id] counting as done. *)
Lemma mark_done_loop_spec dn email_id children : ∀ s,
  email_id ∈ dn →
  sched_inv emails dn s →
  (∀ c, c ∈ children → is_Some (_emails s !! c)) →
  ∃ s', mark_done_loop email_id children s = (Ok (), s')
    ∧ sched_inv emails dn s'
    ∧ (keys_ok s → keys_ok s').
Proof.
  intros s Hdone. revert s.
  induction children as [|c children IH]; intros s Hinv Hdom.
  { by exists s. }
  cbn [mark_done_loop].
  destruct (Hdom c) as [e He]; [by left|].
  destruct (inv_deps _ _ _ Hinv c e He) as (deps & Hdeps & Hsub1 & Hsub2).
  unfold getitem at 1. rewrite Hdeps.
  set (s1 := set_deps c (deps ∖ {[email_id]}) s).
  assert (sched_inv emails dn s1) as Hinv1.
  { destruct Hinv as [H1 H2 H3 H4 H5]. split; cbn; try done.
    - intros i e' He'. destruct (decide (i = c)) as [->|].
      + rewrite lookup_insert_eq. eexists. split; [done|].
        assert (e' = e) as -> by congruence. split.
        * by intros x [?%Hsub1 _]%elem_of_difference.
        * intros x Hx. apply elem_of_difference. split; [by apply Hsub2|].
          apply elem_of_difference in Hx as [_ Hx].
          intros ->%elem_of_singleton. done.
      + rewrite lookup_insert_ne by done. by apply H3.
    - intros d i Hin. destruct (H4 d i Hin) as [Hsome Hempty].
      split; [done|]. destruct (decide (i = c)) as [->|].
      + rewrite lookup_insert_eq. f_equal.
        assert (deps = ∅) as -> by congruence. apply empty_difference_L.
      + by rewrite lookup_insert_ne. }
  assert (∀ c', c' ∈ children → is_Some (_emails s1 !! c')) as Hdom1
    by (intros; apply Hdom; by right).
  case_decide as Hempty.
  - unfold getitem. cbn [_emails s1 set_deps]. rewrite He.
    edestruct (IH (set_queue (Heapq.heappush entry_lt (_queue s1)
                                (deadline_ns e, c)) s1))
      as (s' & Hloop & Hinv' & Hkeys).
    + destruct Hinv1 as [H1 H2 H3 H4 H5]. split; cbn; try done.
      * intros d i [[= -> ->]|Hin]%heappush_elem; [|by apply (H4 d i)|done].
        split; [by rewrite He|]. by rewrite lookup_insert_eq, Hempty.
      * by apply heappush_heap_ok.
    + done.
    + exists s'. split; [done|]. split; [done|].
      intros Hk. apply Hkeys. intros d i.
      intros [[= -> ->]|Hin]%heappush_elem; [by exists e|by apply Hk|].
      apply Hinv1.
  - destruct (IH s1) as (s' & Hloop & Hinv' & Hkeys); [done..|].
    exists s'. split; [done|]. split; [done|]. intros Hk. by apply Hkeys.
Qed.

Lemma mark_done_spec dn email_id s :
  sched_inv emails dn s →
  ∃ s', mark_done email_id s = (Ok (), s')
    ∧ sched_inv emails (dn ∪ {[email_id]}) s'
    ∧ (keys_ok s → keys_ok s').
Proof.
  intros Hinv. unfold mark_done. apply mark_done_loop_spec.
  - apply elem_of_union_r. by apply elem_of_singleton.
  - eapply sched_inv_mono; [|done]. apply union_subseteq_l.
  - intros c Hc%elem_of_elements.
    rewrite (inv_dependents _ _ _ Hinv) in Hc.
    apply build_dependents_spec in Hc as (deps & Hdeps & _).
    rewrite (inv_emails _ _ _ Hinv).
    rewrite build_deps_map_emails, lookup_fmap in Hdeps.
    by destruct (build_emails emails !! c).
Qed.


Lemma trace_ok_mono dn dn' evs :
  dn ⊆ dn' → trace_ok dn evs → trace_ok dn' evs.
Proof.
  revert dn dn'. induction evs as [|[e|i] evs IH]; intros dn dn' Hsub;
    cbn; [done| |].
  - intros [Hdeps Hevs]. split; [|by eapply IH]. intros x Hx. by apply Hsub, Hdeps.
  - apply IH. by apply union_mono_l.
Qed.

Lemma marked_of_app evs1 evs2 :
  marked_of (evs1 ++ evs2) = marked_of evs1 ∪ marked_of evs2.
Proof. unfold marked_of. by rewrite omap_app, list_to_set_app_L. Qed.

Lemma trace_ok_app dn evs1 evs2 :
  trace_ok dn evs1 → trace_ok (dn ∪ marked_of evs1) evs2 →
  trace_ok dn (evs1 ++ evs2).
Proof.
  revert dn. induction evs1 as [|[e|i] evs1 IH]; intros dn; cbn.
  - intros _. apply trace_ok_mono. unfold marked_of. cbn.
    by rewrite (right_id_L ∅ (∪)).
  - intros [Hdeps Hevs] H2. split; [done|]. by apply IH.
  - intros H1 H2. apply IH; [done|]. eapply trace_ok_mono; [|exact H2].
    unfold marked_of. cbn. rewrite (comm_L (∪) {[i]} dn).
    by rewrite (assoc_L (∪)).
Qed.

Lemma trace_ok_popped dn popped :
  Forall (λ e, e ∈ emails ∧ ∀ x, x ∈ dependencies e → x ∈ dn) popped →
  trace_ok dn (Popped <$> popped) ∧ marked_of (Popped <$> popped) = ∅.
Proof.
  induction 1 as [|e popped [_ Hdeps] _ [IH1 IH2]]; [done|].
  split; [by split|done].
Qed.

(** Before an item is popped, each of its dependencies is marked. *)
Lemma trace_ok_split dn pre e post :
  trace_ok dn (pre ++ Popped e :: post) →
  ∀ x, x ∈ dependencies e → x ∈ dn ∨ Marked x ∈ pre.
Proof.
  revert dn. induction pre as [|[e'|i] pre IH]; intros dn; cbn.
  - intros [Hdeps _] x Hx. left. by apply Hdeps.
  - intros [_ Hevs] x Hx. destruct (IH _ Hevs x Hx); [by left|].
    right. by right.
  - intros Hevs x Hx.
    destruct (IH _ Hevs x Hx) as [[->%elem_of_singleton|?]%elem_of_union|?].
    + right. by left.
    + by left.
    + right. by right.
Qed.

Lemma marked_of_elem evs i : i ∈ marked_of evs ↔ Marked i ∈ evs.
Proof.
  unfold marked_of. rewrite elem_of_list_to_set, list_elem_of_omap. split.
  - by intros ([] & ? & [= ->]).
  - intros ?. by exists (Marked i).
Qed.

Lemma step_spec dn o s :
  sched_inv emails dn s →
  ∃ evs s', step o s = (Ok evs, s')
    ∧ sched_inv emails (dn ∪ marked_of evs) s'
    ∧ (keys_ok s → keys_ok s')
    ∧ trace_ok dn evs
    ∧ (∀ e, Popped e ∈ evs → e ∈ emails)
    ∧ (∀ i, Marked i ∈ evs → o = MarkDone i).
Proof.
  intros Hinv. destruct o as [|count|i]; cbn [step].
  - unfold pop_next, get_ready_batch.
    destruct (get_ready_loop_spec dn (Z.to_nat 1) s [] Hinv)
      as (popped & q & -> & Hinv' & _ & Hkeys & Hall).
    cbn [app].
    assert (Forall (λ e, e ∈ emails ∧ ∀ x, x ∈ dependencies e → x ∈ dn)
              (option_list (head popped))) as Hhead.
    { destruct Hall as [|e popped He _]; cbn; [constructor|].
      constructor; [done|constructor]. }
    destruct (trace_ok_popped dn _ Hhead) as [Htrace Hmarked].
    eexists _, _. split; [done|]. rewrite Hmarked, (right_id_L ∅ (∪)).
    do 3 (split; [done|]). split.
    + intros e (e' & [= <-] & He)%list_elem_of_fmap.
      by apply (proj1 (Forall_forall _ _) Hhead).
    + by intros i' (e' & ? & _)%list_elem_of_fmap.
  - unfold get_ready_batch.
    destruct (get_ready_loop_spec dn (Z.to_nat count) s [] Hinv)
      as (popped & q & -> & Hinv' & _ & Hkeys & Hall).
    cbn [app]. destruct (trace_ok_popped dn _ Hall) as [Htrace Hmarked].
    eexists _, _. split; [done|]. rewrite Hmarked, (right_id_L ∅ (∪)).
    do 3 (split; [done|]). split.
    + intros e (e' & [= <-] & He)%list_elem_of_fmap.
      by apply (proj1 (Forall_forall _ _) Hall).
    + by intros i' (e' & ? & _)%list_elem_of_fmap.
  - destruct (mark_done_spec dn i s Hinv) as (s' & -> & Hinv' & Hkeys).
    eexists _, _. split; [done|].
    replace (marked_of [Marked i]) with ({[i]} : gset string)
      by (unfold marked_of; cbn; by rewrite (right_id_L ∅ (∪))).
    do 2 (split; [done|]). split; [done|]. split.
    + by intros e [=]%list_elem_of_singleton.
    + by intros i' [= ->]%list_elem_of_singleton.
Qed.

(** A run never raises; it keeps the invariant and pops in order. *)
Lemma run_spec ops : ∀ dn s,
  sched_inv emails dn s →
  ∃ evs s', run ops s = (Ok evs, s')
    ∧ sched_inv emails (dn ∪ marked_of evs) s'
    ∧ (keys_ok s → keys_ok s')
    ∧ trace_ok dn evs
    ∧ (∀ e, Popped e ∈ evs → e ∈ emails)
    ∧ (∀ i, Marked i ∈ evs → i ∈ marks ops).
Proof.
  induction ops as [|o ops IH]; intros dn s Hinv.
  { exists [], s. split; [done|]. unfold marked_of. cbn.
    rewrite (right_id_L ∅ (∪)). do 3 (split; [done|]).
    split; by intros ? ?%elem_of_nil. }
  cbn [run].
  destruct (step_spec dn o s Hinv)
    as (evs1 & s1 & -> & Hinv1 & Hkeys1 & Htrace1 & Hpop1 & Hmark1).
  destruct (IH _ _ Hinv1)
    as (evs2 & s2 & -> & Hinv2 & Hkeys2 & Htrace2 & Hpop2 & Hmark2).
  exists (evs1 ++ evs2), s2. split; [done|].
  rewrite marked_of_app, (assoc_L (∪)). split; [done|].
  split; [by intros ?%Hkeys1%Hkeys2|]. split; [by apply trace_ok_app|].
  split.
  - intros e [?|?]%elem_of_app; [by apply Hpop1|by apply Hpop2].
  - intros i [->%Hmark1|?%Hmark2]%elem_of_app; cbn; [by left|].
    unfold marks in *. destruct o; cbn; [done..|by right].
Qed.

End invariant.

End scheduler_facts.

Lemma entry_lt_false_le (a b : Scheduler.entry) :
  Scheduler.entry_lt b a = false → entry_le a b.
Proof.
  destruct a as [d1 i1], b as [d2 i2]. unfold Scheduler.entry_lt, entry_le.
  cbn. destruct (Z.eqb_spec d2 d1) as [->|].
  - intros Hlt. right. split; [done|]. unfold String.ltb in Hlt.
    unfold String.leb. rewrite String.compare_antisym.
    by destruct (String.compare i2 i1).
  - intros ?%Z.ltb_ge. left. lia.
Qed.

(** C5. In every run of a scheduler built from a batch, an item is popped
    only after each of its declared dependencies has been marked done, and
    the id of every queue entry has an empty unmet-dependency set. *)
Theorem pops_respect_dependencies
    (emails : list Models.EmailInternal) (s : Scheduler.DependencyScheduler)
    (ops : list op) :
  Scheduler.init emails = Ok s →
  ∃ evs s', run ops s = (Ok evs, s')
    ∧ (∀ pre e post, evs = pre ++ Popped e :: post →
         e ∈ emails ∧ ∀ x, x ∈ Models.dependencies e → Marked x ∈ pre)
    ∧ (∀ d i, (d, i) ∈ Scheduler._queue s' →
         Scheduler.deps_map s' !! i = Some ∅).
Proof.
  intros (_ & _ & Hinv & _)%init_inv.
  destruct (run_spec emails ops ∅ s Hinv)
    as (evs & s' & Hrun & Hinv' & _ & Htrace & Hpop & _).
  exists evs, s'. split; [done|]. split.
  - intros pre e post ->. split.
    + apply Hpop, elem_of_app. right. by left.
    + intros x Hx.
      by destruct (trace_ok_split ∅ pre e post Htrace x Hx)
        as [?%not_elem_of_empty|?].
  - intros d i Hin. by apply (inv_queue _ _ _ Hinv' d i).
Qed.

Lemma pops_respect_dependencies_witness :
  ∃ s, Scheduler.init [email_A; email_B; email_C] = Ok s
    ∧ ∃ evs s',
        run [PopNext; MarkDone "A"; GetReadyBatch 2] s = (Ok evs, s')
        ∧ (∀ pre e post, evs = pre ++ Popped e :: post →
             e ∈ [email_A; email_B; email_C]
             ∧ ∀ x, x ∈ Models.dependencies e → Marked x ∈ pre)
        ∧ (∀ d i, (d, i) ∈ Scheduler._queue s' →
             Scheduler.deps_map s' !! i = Some ∅).
Proof.
  destruct (init_prepare_ok [email_A; email_B; email_C]) as [s Hs];
    [vm_compute; reflexivity|].
  exists s. split; [exact Hs|].
  exact (pops_respect_dependencies _ s _ Hs).
Defined.

(** C6. In every state a run can reach from a batch with unique ids,
    [pop_next] on an empty queue returns [None]; on a non-empty queue it
    takes out one entry and returns the item of the batch it names, whose
    deadline and id are the entry's, and no entry of the queue has an
    earlier deadline, or the same deadline and a smaller id. *)
Theorem pop_next_earliest
    (emails : list Models.EmailInternal) (s : Scheduler.DependencyScheduler)
    (ops : list op) :
  NoDup (ids emails) →
  Scheduler.init emails = Ok s →
  ∃ evs s1, run ops s = (Ok evs, s1)
    ∧ (Scheduler._queue s1 = [] → Scheduler.pop_next s1 = (Ok None, s1))
    ∧ (Scheduler._queue s1 ≠ [] →
       ∃ e q, Scheduler.pop_next s1 = (Ok (Some e), Scheduler.set_queue q s1)
         ∧ e ∈ emails
         ∧ Scheduler._queue s1
           ≡ₚ (Models.deadline_ns e, Models.email_id e) :: q
         ∧ ∀ x, x ∈ Scheduler._queue s1 →
             entry_le (Models.deadline_ns e, Models.email_id e) x).
Proof.
  intros Hnd Hinit. pose proof (init_keys _ _ Hnd Hinit) as Hkeys.
  apply init_inv in Hinit as (_ & _ & Hinv & _).
  destruct (run_spec emails ops ∅ s Hinv)
    as (evs & s1 & Hrun & Hinv1 & Hkeys1 & _).
  specialize (Hkeys1 Hkeys).
  exists evs, s1. split; [done|]. split.
  - intros Hempty. unfold Scheduler.pop_next, Scheduler.get_ready_batch.
    change (Z.to_nat 1) with 1%nat. cbn [Scheduler.get_ready_loop].
    by rewrite decide_True.
  - intros Hne. unfold Scheduler.pop_next, Scheduler.get_ready_batch.
    change (Z.to_nat 1) with 1%nat. cbn [Scheduler.get_ready_loop].
    rewrite decide_False by done.
    destruct (heappop_spec Scheduler.entry_lt (Scheduler._queue s1))
      as ([d i] & q & -> & Hperm & Hq & Hmin); [apply Hinv1|done|].
    assert ((d, i) ∈ Scheduler._queue s1) as Hin by (rewrite Hperm; by left).
    destruct (Hkeys1 d i Hin) as (e & He & <-).
    unfold Scheduler.getitem. cbn. rewrite He. cbn.
    rewrite (inv_emails _ _ _ Hinv1) in He.
    apply build_emails_lookup in He as [He <-].
    exists e, q. split; [done|]. split; [done|]. split; [done|].
    intros x Hx. by apply entry_lt_false_le, Hmin.
Qed.

Lemma pop_next_earliest_witness :
  ∃ s, Scheduler.init [email_A; email_B; email_C] = Ok s
    ∧ ∃ evs s1, run [PopNext; MarkDone "A"] s = (Ok evs, s1)
        ∧ (Scheduler._queue s1 = [] → Scheduler.pop_next s1 = (Ok None, s1))
        ∧ (Scheduler._queue s1 ≠ [] →
           ∃ e q,
             Scheduler.pop_next s1 = (Ok (Some e), Scheduler.set_queue q s1)
             ∧ e ∈ [email_A; email_B; email_C]
             ∧ Scheduler._queue s1
               ≡ₚ (Models.deadline_ns e, Models.email_id e) :: q
             ∧ ∀ x, x ∈ Scheduler._queue s1 →
                 entry_le (Models.deadline_ns e, Models.email_id e) x).
Proof.
  destruct (init_prepare_ok [email_A; email_B; email_C]) as [s Hs];
    [vm_compute; reflexivity|].
  exists s. split; [exact Hs|].
  apply (pop_next_earliest _ s _); [|exact Hs].
  apply (bool_decide_unpack _). vm_compute. exact I.
Defined.

Lemma has_work_queue (s : Scheduler.DependencyScheduler) :
  Scheduler.has_work s = true ↔ Scheduler._queue s ≠ [].
Proof. unfold Scheduler.has_work. by rewrite bool_decide_eq_true. Qed.

(** C1 (what the code does). [has_work] looks at the ready queue alone: with
    A and B, B depending on A, it is false once A has been popped although
    neither item has been marked done. *)
Theorem has_work_false_with_pending :
  (∀ s, Scheduler.has_work s = true ↔ Scheduler._queue s ≠ [])
  ∧ ∃ s s', Scheduler.init [email_A; email_B] = Ok s
      ∧ Scheduler.pop_next s = (Ok (Some email_A), s')
      ∧ Scheduler.has_work s' = false.
Proof.
  split; [apply has_work_queue|].
  eexists _, _. split; [vm_compute; reflexivity|].
  split; vm_compute; reflexivity.
Qed.

(** ** Cycle detection *)

Section graph_facts.
Import Graphlib.

Lemma successors_get_nodeinfo node (n2i : node2info) p :
  successors (get_nodeinfo node n2i) p = successors n2i p.
Proof.
  unfold get_nodeinfo. destruct (n2i !! node) eqn:Hnode; [done|].
  unfold successors. destruct (decide (node = p)) as [->|].
  - by rewrite lookup_insert_eq, Hnode.
  - by rewrite lookup_insert_ne.
Qed.

Lemma add_spec node predecessors : ∀ (n2i : node2info) p n,
  n ∈ successors (add node predecessors n2i) p
  ↔ n ∈ successors n2i p ∨ (n = node ∧ p ∈ predecessors).
Proof.
  unfold add. intros n2i p n.
  rewrite <- (successors_get_nodeinfo node n2i p).
  generalize (get_nodeinfo node n2i). clear n2i.
  induction predecessors as [|pred preds IH]; intros n2i; cbn [foldl].
  { split; [by left|]. by intros [?|[_ ?%elem_of_nil]]. }
  rewrite IH. clear IH. unfold successors at 1.
  destruct (decide (pred = p)) as [->|Hne].
  - rewrite lookup_insert_eq. cbn. rewrite successors_get_nodeinfo.
    rewrite elem_of_app, list_elem_of_singleton, elem_of_cons. intuition congruence.
  - rewrite lookup_insert_ne by done.
    fold (successors (get_nodeinfo pred n2i) p).
    rewrite successors_get_nodeinfo, elem_of_cons. intuition congruence.
Qed.

(** The sorter's edges are the recorded dependencies, turned round. *)
Lemma sorter_spec (g : gmap string (gset string)) p n :
  edge (sorter g) p n ↔ depends g n p.
Proof.
  unfold edge, sorter, depends.
  assert (∀ l (acc : node2info),
    n ∈ successors (foldl (λ n2i '(node, predecessors),
                             add node (elements predecessors) n2i) acc l) p
    ↔ n ∈ successors acc p
      ∨ ∃ preds : gset string, (n, preds) ∈ l ∧ p ∈ preds) as Hfold.
  { induction l as [|[node preds] l IH]; intros acc; cbn [foldl].
    - split; [by left|]. by intros [?|(? & ?%elem_of_nil & _)].
    - rewrite IH, add_spec, elem_of_elements. split.
      + intros [[?|[-> ?]]|(preds' & ? & ?)].
        * by left.
        * right. exists preds. split; [by left|done].
        * right. exists preds'. split; [by right|done].
      + intros [?|(preds' & [[= -> ->]|?]%elem_of_cons & ?)].
        * left. by left.
        * left. by right.
        * right. by exists preds'. }
  rewrite Hfold. unfold successors. rewrite lookup_empty. cbn. split.
  - intros [?%elem_of_nil|(preds & ?%elem_of_map_to_list & ?)]; [done|].
    by exists preds.
  - intros (preds & ? & ?). right. exists preds.
    by rewrite elem_of_map_to_list.
Qed.

Lemma tc_turn {A} (R S : relation A) x y :
  (∀ a b, R a b → S b a) → tc R x y → tc S y x.
Proof.
  intros HRS. induction 1 as [x y Hxy|x y z Hxy _ IH].
  - by apply tc_once, HRS.
  - eapply tc_r; [exact IH|]. by apply HRS.
Qed.

Lemma cyclic_sorter (g : gmap string (gset string)) :
  cyclic (edge (sorter g)) ↔ cyclic (depends g).
Proof.
  split; intros [x Hx]; exists x; revert Hx; apply tc_turn; intros a b;
    by rewrite sorter_spec.
Qed.


Section find_cycle_facts.
Variable n2i : node2info.

Lemma stack_ok_mono (B B' : gset string) above stack :
  B ⊆ B' → stack_ok n2i B above stack → stack_ok n2i B' above stack.
Proof.
  intros Hsub. revert above.
  induction stack as [|[n it] stack IH]; intros above; [done|].
  cbn. intros (Hedge & Hit & Hsucc & Hstack).
  split; [done|]. split; [done|]. split; [|by apply IH].
  intros s Hs. destruct (Hsucc s Hs) as [?|[?|?]]; [by left| |by right; right].
  right. left. by apply Hsub.
Qed.

(** Every node of the stack reaches the node above the stack. *)
Lemma stack_ok_path (B : gset string) stack : ∀ above x,
  stack_ok n2i B above stack → x ∈ stack.*1 → tc (edge n2i) x above.
Proof.
  induction stack as [|[n it] stack IH]; intros above x;
    [by intros _ ?%elem_of_nil|].
  cbn. intros (Hedge & _ & _ & Hstack) [->|Hx]%elem_of_cons.
  - by apply tc_once.
  - eapply tc_r; [by apply IH|done].
Qed.

Lemma settled_reach (B : gset string) b y :
  settled n2i B → b ∈ B → rtc (edge n2i) b y → y ∈ B.
Proof.
  intros [Hclosed _] Hb Hreach. induction Hreach as [|b s y Hbs _ IH]; [done|].
  apply IH. by apply (Hclosed b).
Qed.

(** A node all of whose successors are finished can be finished too, unless
    it is finished already. *)
Lemma settled_add (B : gset string) n :
  settled n2i B → n ∉ B → (∀ s, edge n2i n s → s ∈ B) →
  settled n2i ({[n]} ∪ B).
Proof.
  intros Hset Hn Hsucc. split.
  - intros b s [->%elem_of_singleton|Hb]%elem_of_union Hbs.
    + apply elem_of_union_r. by apply Hsucc.
    + apply elem_of_union_r. by apply (proj1 Hset b).
  - intros b [->%elem_of_singleton|Hb]%elem_of_union; [|by apply Hset].
    intros Hcycle. apply Hn.
    apply tc_nsteps in Hcycle as (k & Hk & Hsteps).
    inversion Hsteps as [|k' x s z Hns Hrest]; subst; [lia|].
    apply (settled_reach B s); [done|by apply Hsucc|].
    by eapply rtc_nsteps_2.
Qed.

Lemma finished_cons (seen : gset string) n it (stack : list frame) :
  n ∈ seen → n ∉ stack.*1 →
  finished seen stack = {[n]} ∪ finished seen ((n, it) :: stack).
Proof.
  intros Hn Hnot. unfold finished. cbn. apply set_eq. intros x.
  rewrite elem_of_union, !elem_of_difference, elem_of_union,
    elem_of_singleton, !elem_of_list_to_set.
  destruct (decide (x = n)) as [->|]; [tauto|]. tauto.
Qed.

(** Backtracking finishes the entries whose iterator is exhausted and stops
    at the first successor left to visit. *)
Lemma backtrack_spec (seen : gset string) : ∀ stack,
  NoDup stack.*1 →
  (∀ n, n ∈ stack.*1 → n ∈ seen) →
  settled n2i (finished seen stack) →
  stack_back n2i (finished seen stack) stack →
  match backtrack stack with
  | None => settled n2i seen
  | Some (node, stack') =>
      NoDup stack'.*1
      ∧ (∀ n, n ∈ stack'.*1 → n ∈ seen)
      ∧ settled n2i (finished seen stack')
      ∧ stack_ok n2i (finished seen stack') node stack'
      ∧ waiting stack = S (waiting stack')
  end.
Proof.
  induction stack as [|[n [|s it]] stack IH]; intros Hnd Hseen Hset Hback.
  - cbn. unfold finished in Hset. cbn in Hset.
    by rewrite difference_empty_L in Hset.
  - cbn [backtrack]. cbn in Hnd. apply NoDup_cons in Hnd as [Hn Hnd].
    destruct Hback as (_ & Hsucc & Hstack).
    assert (finished seen stack = {[n]} ∪ finished seen ((n, []) :: stack))
      as Heq by (apply finished_cons; [apply Hseen; by left|done]).
    assert (n ∉ finished seen ((n, []) :: stack)) as Hnot.
    { unfold finished. cbn. rewrite elem_of_difference, elem_of_union,
        elem_of_singleton. tauto. }
    specialize (IH Hnd). rewrite Heq in IH.
    assert (match backtrack stack with
            | None => settled n2i seen
            | Some (node, stack') =>
                NoDup stack'.*1
                ∧ (∀ n, n ∈ stack'.*1 → n ∈ seen)
                ∧ settled n2i (finished seen stack')
                ∧ stack_ok n2i (finished seen stack') node stack'
                ∧ waiting stack = S (waiting stack')
            end) as Hrec.
    { apply IH.
      - intros m Hm. apply Hseen. by right.
      - apply settled_add; [done..|].
        intros s' Hs'. by destruct (Hsucc s' Hs') as [?%elem_of_nil|?].
      - destruct stack as [|[m it'] stack']; [done|].
        destruct Hstack as (Hedge & Hit & Hsucc' & Hstack').
        split; [done|]. split.
        + intros s' Hs'. destruct (Hsucc' s' Hs') as [?|[?| ->]].
          * by left.
          * right. by apply elem_of_union_r.
          * right. apply elem_of_union_l. by apply elem_of_singleton.
        + eapply stack_ok_mono; [|done]. apply union_subseteq_r. }
    destruct (backtrack stack) as [[node stack']|]; [|done].
    destruct Hrec as (? & ? & ? & ? & Hwait). do 4 (split; [done|]).
    unfold waiting in *. cbn. done.
  - cbn [backtrack]. destruct Hback as (Hit & Hsucc & Hstack).
    split; [done|]. split; [done|]. split; [done|]. split; [|done].
    cbn. split; [apply Hit; by left|]. split; [intros; apply Hit; by right|].
    split; [|done].
    intros x Hx. destruct (Hsucc x Hx) as [[ ->|?]%elem_of_cons|?].
    + right. by right.
    + by left.
    + right. by left.
Qed.


Lemma weight_mono (U V : gset string) :
  U ⊆ V → (weight n2i U ≤ weight n2i V)%nat.
Proof.
  intros Hsub. unfold weight.
  rewrite (union_difference_L U V Hsub).
  rewrite elements_disj_union by (apply disjoint_difference_r1; done).
  rewrite sum_list_with_app. lia.
Qed.

(** A node seen for the first time takes its successors out of the weight of
    the unseen nodes. *)
Lemma weight_seen (seen : gset string) node :
  node ∉ seen →
  (weight n2i (dom n2i ∖ ({[node]} ∪ seen)) + length (successors n2i node)
   ≤ weight n2i (dom n2i ∖ seen))%nat.
Proof.
  intros Hnode. destruct (decide (node ∈ dom n2i)) as [Hdom|Hdom].
  - assert (dom n2i ∖ seen = {[node]} ∪ dom n2i ∖ ({[node]} ∪ seen)) as ->.
    { apply set_eq. intros x.
      rewrite elem_of_union, !elem_of_difference, elem_of_union,
        elem_of_singleton.
      destruct (decide (x = node)) as [->|]; tauto. }
    unfold weight. rewrite elements_union_singleton.
    + cbn. lia.
    + rewrite elem_of_difference, elem_of_union, elem_of_singleton. tauto.
  - apply not_elem_of_dom in Hdom. unfold successors at 1. rewrite Hdom. cbn.
    rewrite Nat.add_0_r. apply weight_mono. intros x.
    rewrite !elem_of_difference, elem_of_union. tauto.
Qed.

Lemma finished_push (seen : gset string) node it (stack : list frame) :
  node ∉ seen →
  finished ({[node]} ∪ seen) ((node, it) :: stack) = finished seen stack.
Proof.
  intros Hnode. unfold finished. cbn. apply set_eq. intros x.
  rewrite !elem_of_difference, !elem_of_union, elem_of_singleton.
  destruct (decide (x = node)) as [->|]; tauto.
Qed.

(** The loop entered at [node]: it reports a cycle only if there is one,
    finishes with every seen node settled, and runs out of fuel only when
    given less than the successors left to take. *)
Lemma walk_spec fuel : ∀ node stack (seen : gset string),
  NoDup stack.*1 →
  (∀ n, n ∈ stack.*1 → n ∈ seen) →
  settled n2i (finished seen stack) →
  stack_ok n2i (finished seen stack) node stack →
  match walk n2i fuel node stack seen with
  | Cycle c => cyclic (edge n2i)
  | Finished seen' => settled n2i seen' ∧ seen ⊆ seen' ∧ node ∈ seen'
  | OutOfFuel => (fuel ≤ weight n2i (dom n2i ∖ seen) + waiting stack)%nat
  end.
Proof.
  induction fuel as [|fuel IH]; intros node stack seen Hnd Hseen Hset Hstack;
    cbn [walk]; [lia|].
  destruct (decide (node ∈ seen)) as [Hnode|Hnode].
  - destruct (decide (node ∈ stack.*1)) as [Hon|Hoff].
    { exists node. by eapply stack_ok_path. }
    assert (node ∈ finished seen stack) as Hfin.
    { unfold finished. rewrite elem_of_difference, elem_of_list_to_set. tauto. }
    pose proof (backtrack_spec seen stack Hnd Hseen Hset) as Hback.
    destruct (backtrack stack) as [[node' stack']|].
    + destruct Hback as (Hnd' & Hseen' & Hset' & Hstack' & Hwait).
      { destruct stack as [|[n it] stack0]; [done|].
        destruct Hstack as (_ & Hit & Hsucc & Hrest).
        split; [done|]. split; [|done].
        intros s Hs. destruct (Hsucc s Hs) as [?|[?| ->]]; auto. }
      specialize (IH node' stack' seen Hnd' Hseen' Hset' Hstack').
      destruct (walk n2i fuel node' stack' seen) as [c|seen'|]; [done| |lia].
      destruct IH as (? & Hsub & _). split; [done|]. split; [done|].
      by apply Hsub.
    + split; [|done]. apply Hback.
      destruct stack as [|[n it] stack0]; [done|].
      destruct Hstack as (_ & Hit & Hsucc & Hrest).
      split; [done|]. split; [|done].
      intros s Hs. destruct (Hsucc s Hs) as [?|[?| ->]]; auto.
  - assert (node ∉ stack.*1) as Hoff by (intros ?; by apply Hnode, Hseen).
    pose proof (backtrack_spec ({[node]} ∪ seen)
                  ((node, successors n2i node) :: stack)) as Hback.
    rewrite finished_push in Hback by done.
    assert (NoDup ((node, successors n2i node) :: stack).*1) as Hnd1
      by (cbn; by apply NoDup_cons).
    assert (∀ n, n ∈ ((node, successors n2i node) :: stack).*1 →
                 n ∈ {[node]} ∪ seen) as Hseen1.
    { cbn. intros n [->|Hn]%elem_of_cons.
      - apply elem_of_union_l. by apply elem_of_singleton.
      - by apply elem_of_union_r, Hseen. }
    specialize (Hback Hnd1 Hseen1 Hset).
    assert (stack_back n2i (finished seen stack)
              ((node, successors n2i node) :: stack)) as Hback1.
    { split; [done|]. split; [by left|done]. }
    specialize (Hback Hback1).
    pose proof (weight_seen seen node Hnode) as Hweight.
    destruct (backtrack ((node, successors n2i node) :: stack))
      as [[node' stack']|].
    + destruct Hback as (Hnd' & Hseen' & Hset' & Hstack' & Hwait).
      specialize (IH node' stack' _ Hnd' Hseen' Hset' Hstack').
      unfold waiting in Hwait. cbn in Hwait. fold (waiting stack) in Hwait.
      fold (waiting stack') in Hwait.
      destruct (walk n2i fuel node' stack' ({[node]} ∪ seen))
        as [c|seen'|]; [done| |lia].
      destruct IH as (? & Hsub & _). split; [done|]. split.
      * intros x Hx. by apply Hsub, elem_of_union_r.
      * apply Hsub, elem_of_union_l. by apply elem_of_singleton.
    + split; [done|]. split.
      * apply union_subseteq_r.
      * apply elem_of_union_l. by apply elem_of_singleton.
Qed.

Lemma finished_nil (seen : gset string) : finished seen [] = seen.
Proof. unfold finished. cbn. apply difference_empty_L. Qed.

(** The loop over the nodes. *)
Lemma find_cycle_from_spec fuel nodes : ∀ seen : gset string,
  settled n2i seen →
  (weight n2i (dom n2i) < fuel)%nat →
  match find_cycle_from n2i fuel nodes seen with
  | Cycle c => cyclic (edge n2i)
  | Finished seen' =>
      settled n2i seen' ∧ seen ⊆ seen' ∧ ∀ n, n ∈ nodes → n ∈ seen'
  | OutOfFuel => False
  end.
Proof.
  induction nodes as [|node nodes IH]; intros seen Hset Hfuel;
    cbn [find_cycle_from].
  { split; [done|]. split; [done|]. by intros n ?%elem_of_nil. }
  destruct (decide (node ∈ seen)) as [Hnode|Hnode].
  - specialize (IH seen Hset Hfuel).
    destruct (find_cycle_from n2i fuel nodes seen); [done| |done].
    destruct IH as (? & Hsub & Hall). split; [done|]. split; [done|].
    intros n [->|?]%elem_of_cons; [by apply Hsub|by apply Hall].
  - pose proof (walk_spec fuel node [] seen) as Hwalk.
    rewrite finished_nil in Hwalk.
    specialize (Hwalk (NoDup_nil_2 : NoDup ([] : list frame).*1)).
    assert (∀ n, n ∈ ([] : list frame).*1 → n ∈ seen) as Hnil
      by (by intros n ?%elem_of_nil).
    specialize (Hwalk Hnil Hset I).
    destruct (walk n2i fuel node [] seen) as [c|seen1|].
    + exact Hwalk.
    + destruct Hwalk as (Hset1 & Hsub1 & Hnode1).
      specialize (IH seen1 Hset1 Hfuel).
      destruct (find_cycle_from n2i fuel nodes seen1); [done| |done].
      destruct IH as (? & Hsub & Hall). split; [done|].
      split; [by etrans|].
      intros n [->|?]%elem_of_cons; [by apply Hsub|by apply Hall].
    + pose proof (weight_mono (dom n2i ∖ seen) (dom n2i)) as Hmono.
      unfold waiting in Hwalk. cbn in Hwalk.
      assert (dom n2i ∖ seen ⊆ dom n2i) as Hsub
        by (intros x [? _]%elem_of_difference; done).
      specialize (Hmono Hsub). lia.
Qed.

(** [prepare] raises [CycleError] exactly when some node reaches itself. *)
Lemma prepare_spec :
  (prepare n2i = Ok () ∧ ¬ cyclic (edge n2i))
  ∨ (∃ c, prepare n2i = Raise (CycleError c) ∧ cyclic (edge n2i)).
Proof.
  unfold prepare, find_cycle.
  pose proof (find_cycle_from_spec (enough_fuel n2i) (map_to_list n2i).*1 ∅)
    as Hspec.
  assert (settled n2i ∅) as Hempty
    by (split; [intros b s ?%not_elem_of_empty|intros b ?%not_elem_of_empty];
        done).
  assert (weight n2i (dom n2i) < enough_fuel n2i)%nat as Hfuel
    by (unfold enough_fuel, weight; lia).
  specialize (Hspec Hempty Hfuel).
  destruct (find_cycle_from n2i (enough_fuel n2i) (map_to_list n2i).*1 ∅)
    as [c|seen|].
  - right. by exists c.
  - left. split; [done|]. destruct Hspec as ([_ Hfree] & _ & Hall).
    intros [x Hx]. apply (Hfree x); [|done]. apply Hall.
      apply tc_nsteps in Hx as (k & Hk & Hsteps).
      inversion Hsteps as [|k' x' s z Hxs Hrest]; subst; [lia|].
      unfold edge, successors in Hxs.
      destruct (n2i !! x) as [succs|] eqn:Hlookup;
        [|by apply elem_of_nil in Hxs].
      apply list_elem_of_fmap. exists (x, succs). split; [done|].
      by apply elem_of_map_to_list.
  - done.
Qed.

End find_cycle_facts.

End graph_facts.

(** ** Construction *)

Lemma tc_mono {A} (R S : relation A) x y :
  (∀ a b, R a b → S a b) → tc R x y → tc S x y.
Proof.
  intros HRS. induction 1 as [x y Hxy|x y z Hxy _ IH].
  - by apply tc_once, HRS.
  - eapply tc_l; [by apply HRS|exact IH].
Qed.

(** With unique ids the scheduler records what the items declare. *)
Lemma declares_depends emails x y :
  NoDup (ids emails) →
  declares emails x y ↔ depends (Scheduler.build_deps_map emails) x y.
Proof.
  intros Hnd. unfold declares, depends.
  rewrite build_deps_map_emails. split.
  - intros (e & He & <- & Hy). eexists.
    rewrite lookup_fmap, (build_emails_unique emails e Hnd He). cbn.
    split; [done|]. by apply elem_of_list_to_set.
  - intros (deps & Hdeps & Hy). rewrite lookup_fmap in Hdeps.
    destruct (Scheduler.build_emails emails !! x) as [e|] eqn:He; [|done].
    apply build_emails_lookup in He as [He <-]. injection Hdeps as <-.
    apply elem_of_list_to_set in Hy.
    exists e. by split.
Qed.

Lemma cyclic_declares emails :
  NoDup (ids emails) →
  cyclic (declares emails) ↔ cyclic (depends (Scheduler.build_deps_map emails)).
Proof.
  intros Hnd. split; intros [x Hx]; exists x; revert Hx; apply tc_mono;
    intros a b; by rewrite declares_depends.
Qed.

(** [__init__] on a batch with unique ids: a scheduler when no item reaches
    itself through declared dependencies, [ValueError] when one does. *)
Lemma init_spec emails :
  NoDup (ids emails) →
  (¬ cyclic (declares emails) ∧ ∃ s, Scheduler.init emails = Ok s)
  ∨ (cyclic (declares emails)
     ∧ Scheduler.init emails = Raise (ValueError "Dependency cycle detected")).
Proof.
  intros Hnd. rewrite (cyclic_declares emails Hnd), <- cyclic_sorter.
  destruct (prepare_spec (Graphlib.sorter (Scheduler.build_deps_map emails)))
    as [[Hprep Hacyclic]|(c & Hprep & Hcyclic)].
  - left. split; [done|]. by apply init_prepare_ok.
  - right. split; [done|]. unfold Scheduler.init. by rewrite Hprep.
Qed.

(** C4. For a batch with unique ids: when the declared dependency relation
    has no cycle, construction gives a scheduler; when it has one,
    construction raises [ValueError] and gives no scheduler, so nothing can
    be popped. *)
Theorem init_succeeds_iff_acyclic (emails : list Models.EmailInternal) :
  NoDup (ids emails) →
  (¬ cyclic (declares emails) → ∃ s, Scheduler.init emails = Ok s)
  ∧ (cyclic (declares emails) →
     Scheduler.init emails = Raise (ValueError "Dependency cycle detected")
     ∧ ∀ s, Scheduler.init emails ≠ Ok s).
Proof.
  intros Hnd. destruct (init_spec emails Hnd) as [[Hno Hs]|[Hyes Hraise]].
  - split; [done|]. by intros ?.
  - split; [by intros ?|]. intros _. split; [done|].
    intros s. by rewrite Hraise.
Qed.

Lemma init_succeeds_iff_acyclic_witness :
  (¬ cyclic (declares [email_X; email_Y]) →
   ∃ s, Scheduler.init [email_X; email_Y] = Ok s)
  ∧ (cyclic (declares [email_X; email_Y]) →
     Scheduler.init [email_X; email_Y]
     = Raise (ValueError "Dependency cycle detected")
     ∧ ∀ s, Scheduler.init [email_X; email_Y] ≠ Ok s).
Proof.
  apply init_succeeds_iff_acyclic.
  apply (bool_decide_unpack _). vm_compute. exact I.
Defined.

(** C10 (as amended). In a batch with unique ids and no dependency cycle,
    an item that declares a dependency on an id of no item does not stop
    construction, and under any calls that mark only ids of the batch it is
    never returned by a pop and its id never enters the ready queue. *)
Theorem dangling_dependency_never_ready
    (emails : list Models.EmailInternal) (item : Models.EmailInternal)
    (dep : string) :
  NoDup (ids emails) →
  ¬ cyclic (declares emails) →
  item ∈ emails →
  dep ∈ Models.dependencies item →
  dep ∉ ids emails →
  ∃ s, Scheduler.init emails = Ok s
    ∧ ∀ ops, (∀ i, i ∈ marks ops → i ∈ ids emails) →
        ∃ evs s', run ops s = (Ok evs, s')
          ∧ (Popped item ∉ evs)
          ∧ ∀ d, (d, Models.email_id item) ∉ Scheduler._queue s'.
Proof.
  intros Hnd Hacyclic Hitem Hdep Hdangling.
  destruct (init_spec emails Hnd) as [[_ [s Hs]]|[Hcyclic _]]; [|done].
  exists s. split; [done|]. intros ops Hmarks.
  apply init_inv in Hs as (_ & _ & Hinv & _).
  destruct (run_spec emails ops ∅ s Hinv)
    as (evs & s' & Hrun & Hinv' & _ & Htrace & _ & Hmarked).
  exists evs, s'. split; [done|].
  assert (Marked dep ∉ evs) as Hnot
    by (intros ?; by apply Hdangling, Hmarks, Hmarked).
  split.
  - intros (pre & post & ->)%list_elem_of_split.
    destruct (trace_ok_split ∅ pre item post Htrace dep Hdep)
      as [?%not_elem_of_empty|Hpre]; [done|].
    apply Hnot, elem_of_app. by left.
  - intros d Hin.
    destruct (inv_queue _ _ _ Hinv' d _ Hin) as [_ Hempty].
    destruct (inv_deps _ _ _ Hinv' (Models.email_id item) item)
      as (deps & Hdeps & _ & Hsub).
    { rewrite (inv_emails _ _ _ Hinv'). by apply build_emails_unique. }
    assert (deps = ∅) as -> by congruence.
    apply (not_elem_of_empty (C:=gset string) dep), Hsub.
    apply elem_of_difference. split; [by apply elem_of_list_to_set|].
    rewrite (left_id_L ∅ (∪)), marked_of_elem. done.
Qed.

Lemma dangling_dependency_never_ready_witness :
  ∃ s, Scheduler.init [email_A; email_D] = Ok s
    ∧ ∀ ops, (∀ i, i ∈ marks ops → i ∈ ids [email_A; email_D]) →
        ∃ evs s', run ops s = (Ok evs, s')
          ∧ (Popped email_D ∉ evs)
          ∧ ∀ d, (d, Models.email_id email_D) ∉ Scheduler._queue s'.
Proof.
  assert (NoDup (ids [email_A; email_D])) as Hnd
    by (apply (bool_decide_unpack _); vm_compute; exact I).
  apply (dangling_dependency_never_ready [email_A; email_D] email_D "Z").
  - exact Hnd.
  - destruct (init_spec _ Hnd) as [[Hno _]|[_ Hraise]]; [exact Hno|].
    vm_compute in Hraise. discriminate Hraise.
  - right. left.
  - left.
  - apply (bool_decide_unpack _). vm_compute. exact I.
Defined.

(** C10 (counterexample). X declares a dependency on Z, the id of no item,
    and X and Y depend on each other: construction raises. *)
Lemma init_dangling_in_cycle :
  email_X ∈ [email_X; email_Y]
  ∧ "Z" ∈ Models.dependencies email_X
  ∧ ("Z" ∉ ids [email_X; email_Y])
  ∧ Scheduler.init [email_X; email_Y]
    = Raise (ValueError "Dependency cycle detected").
Proof.
  split; [left|]. split; [right; left|]. split.
  - apply (bool_decide_unpack _). vm_compute. exact I.
  - vm_compute. reflexivity.
Qed.

(** ** More on the sink *)

Section retry_facts.
Import Client Sink.
Variable post : nat → response.
Variable jitter : Z → float.
Variable payload : gmap string string.

(** [k] retriable responses in a row, none at the last allowed attempt: the
    loop takes [k] turns, each with one call, one sleep and one retry. *)
Lemma send_loop_retries k : ∀ (a n : nat) delay s,
  (k ≤ n)%nat →
  (∀ j, (j < k)%nat → retriable (post (calls s + j)%nat) = true) →
  Z.of_nat a + Z.of_nat k ≤ _max_retries s →
  ∃ s' delay',
    send_loop post jitter payload ((λ i : nat, Z.of_nat i) <$> seq a n) delay s
    = send_loop post jitter payload
        ((λ i : nat, Z.of_nat i) <$> seq (a + k) (n - k)) delay' s'
    ∧ calls s' = (calls s + k)%nat
    ∧ retry_count s' = retry_count s + Z.of_nat k
    ∧ success_count s' = success_count s
    ∧ failure_count s' = failure_count s
    ∧ _max_retries s' = _max_retries s
    ∧ sleeps s' = sleeps s ++ backoff_sleeps jitter (Z.of_nat a) delay k.
Proof.
  induction k as [|k IH]; intros a n delay s Hn Hpost Hmax.
  { exists s, delay. rewrite !Nat.add_0_r, Nat.sub_0_r, Z.add_0_r, app_nil_r.
    done. }
  destruct n as [|n]; [lia|].
  cbn [seq fmap list_fmap send_loop].
  pose proof (Hpost 0%nat ltac:(lia)) as H0. rewrite Nat.add_0_r in H0.
  destruct (post (calls s)) as [|[]]; try done. cbn [retriable] in H0.
  apply negb_true_iff in H0. rewrite H0.
  cbn [add_log add_call _max_retries].
  destruct (Z.geb_spec (Z.of_nat a) (_max_retries s)) as [?|_]; [lia|].
  match goal with |- context [send_loop _ _ _ _ ?d ?s1] =>
    destruct (IH (S a) n d s1) as (s' & delay' & Hloop & Hc & Hr & Hs & Hf & Hm & Hsl)
  end.
  - lia.
  - intros j Hj. cbn. replace (S (calls s + j)) with (calls s + S j)%nat by lia.
    apply Hpost. lia.
  - cbn. lia.
  - exists s', delay'. cbn in *.
    replace (a + S k)%nat with (S a + k)%nat by lia.
    split; [exact Hloop|]. split; [lia|]. split; [lia|].
    do 3 (split; [done|]). rewrite Hsl, <- app_assoc. cbn.
    by replace (Z.of_nat a + 1) with (Z.of_nat (S a)) by lia.
Qed.

End retry_facts.

Lemma range1_seq n : Sink.range1 n = (λ i : nat, Z.of_nat i) <$> seq 1 (Z.to_nat n).
Proof. done. Qed.

(** X1. If the first [k] responses are retriable status errors and the next
    call returns, with [k] below the cap, [send] makes [k + 1] calls, counts
    [k] retries and one success and no failure, and has slept [k] times with
    a back-off that starts at 0.2 s and doubles. *)
Theorem send_succeeds_after_retries
    (post : nat → Client.response) (jitter : Z → float)
    (payload : gmap string string) (s : Sink.ResponseSink) (k : nat) :
  Z.of_nat k < Sink._max_retries s →
  (∀ j, (j < k)%nat → retriable (post (Sink.calls s + j)%nat) = true) →
  post (Sink.calls s + k)%nat = Client.Returned →
  ∃ s', Sink.send post jitter payload s = (Ok (), s')
    ∧ Sink.calls s' = (Sink.calls s + k + 1)%nat
    ∧ Sink.retry_count s' = Sink.retry_count s + Z.of_nat k
    ∧ Sink.success_count s' = Sink.success_count s + 1
    ∧ Sink.failure_count s' = Sink.failure_count s
    ∧ Sink.sleeps s'
      = Sink.sleeps s
        ++ backoff_sleeps jitter 1 0x1.999999999999ap-3%float k.
Proof.
  intros Hk Hpost Hlast. unfold Sink.send. rewrite range1_seq.
  destruct (send_loop_retries post jitter payload k 1
              (Z.to_nat (Sink._max_retries s)) 0x1.999999999999ap-3%float s)
    as (s1 & delay & -> & Hc & Hr & Hs & Hf & Hm & Hsl); [lia|done|lia|].
  destruct (Z.to_nat (Sink._max_retries s) - k)%nat as [|n] eqn:Hn; [lia|].
  cbn [seq fmap list_fmap Sink.send_loop]. rewrite Hc, Hlast.
  eexists. split; [done|]. cbn. rewrite Hc, Hr, Hs, Hf, Hsl.
  repeat split; lia.
Qed.

Lemma send_succeeds_after_retries_witness :
  ∃ s', Sink.send (Client.dummy_post_response [503; 500; 201]) (λ _, 1%float)
          ∅ (Sink.init Config.defaults None) = (Ok (), s')
    ∧ Sink.calls s' = (Sink.calls (Sink.init Config.defaults None) + 2 + 1)%nat
    ∧ Sink.retry_count s'
      = Sink.retry_count (Sink.init Config.defaults None) + Z.of_nat 2
    ∧ Sink.success_count s'
      = Sink.success_count (Sink.init Config.defaults None) + 1
    ∧ Sink.failure_count s'
      = Sink.failure_count (Sink.init Config.defaults None)
    ∧ Sink.sleeps s'
      = Sink.sleeps (Sink.init Config.defaults None)
        ++ backoff_sleeps (λ _, 1%float) 1 0x1.999999999999ap-3%float 2.
Proof.
  apply (send_succeeds_after_retries _ _ _ _ 2).
  - cbn. lia.
  - intros [|[|j]] Hj; [reflexivity|reflexivity|lia].
  - reflexivity.
Defined.

(** X2. If the first [k] responses are retriable status errors and the next
    one is a 4xx status error, with [k] below the cap, [send] returns after
    [k + 1] calls with [k] retries and one failure counted: a client error
    is never retried. *)
Theorem send_drops_on_client_error
    (post : nat → Client.response) (jitter : Z → float)
    (payload : gmap string string) (s : Sink.ResponseSink) (k : nat)
    (status : Z) :
  Z.of_nat k < Sink._max_retries s →
  (∀ j, (j < k)%nat → retriable (post (Sink.calls s + j)%nat) = true) →
  post (Sink.calls s + k)%nat = Client.Raised (HTTPStatusError status) →
  400 ≤ status < 500 →
  ∃ s', Sink.send post jitter payload s = (Ok (), s')
    ∧ Sink.calls s' = (Sink.calls s + k + 1)%nat
    ∧ Sink.retry_count s' = Sink.retry_count s + Z.of_nat k
    ∧ Sink.success_count s' = Sink.success_count s
    ∧ Sink.failure_count s' = Sink.failure_count s + 1
    ∧ length (Sink.sleeps s') = (length (Sink.sleeps s) + k)%nat.
Proof.
  intros Hk Hpost Hlast Hstatus. unfold Sink.send. rewrite range1_seq.
  destruct (send_loop_retries post jitter payload k 1
              (Z.to_nat (Sink._max_retries s)) 0x1.999999999999ap-3%float s)
    as (s1 & delay & -> & Hc & Hr & Hs & Hf & Hm & Hsl); [lia|done|lia|].
  destruct (Z.to_nat (Sink._max_retries s) - k)%nat as [|n] eqn:Hn; [lia|].
  cbn [seq fmap list_fmap Sink.send_loop]. rewrite Hc, Hlast.
  replace ((400 <=? status) && (status <? 500)) with true
    by (symmetry; apply andb_true_iff; split; [apply Z.leb_le|apply Z.ltb_lt];
        lia).
  eexists. split; [done|]. cbn. rewrite Hc, Hr, Hs, Hf, Hsl, length_app.
  assert (∀ a d, length (backoff_sleeps jitter a d k) = k) as ->.
  { clear. induction k as [|k IH]; intros a d; [done|]. cbn. by rewrite IH. }
  repeat split; lia.
Qed.

Lemma send_drops_on_client_error_witness :
  ∃ s', Sink.send (Client.dummy_post_response [500; 404]) (λ _, 1%float)
          ∅ (Sink.init Config.defaults None) = (Ok (), s')
    ∧ Sink.calls s' = (Sink.calls (Sink.init Config.defaults None) + 1 + 1)%nat
    ∧ Sink.retry_count s'
      = Sink.retry_count (Sink.init Config.defaults None) + Z.of_nat 1
    ∧ Sink.success_count s'
      = Sink.success_count (Sink.init Config.defaults None)
    ∧ Sink.failure_count s'
      = Sink.failure_count (Sink.init Config.defaults None) + 1
    ∧ length (Sink.sleeps s')
      = (length (Sink.sleeps (Sink.init Config.defaults None)) + 1)%nat.
Proof.
  apply (send_drops_on_client_error _ _ _ _ 1 404).
  - cbn. lia.
  - intros [|j] Hj; [reflexivity|lia].
  - reflexivity.
  - lia.
Defined.

(** X3. If the collaborator answers every attempt up to the cap [m >= 1]
    with a retriable status error, [send] returns after exactly [m] calls
    with [m - 1] retries and one failure counted. *)
Theorem send_gives_up_at_cap
    (post : nat → Client.response) (jitter : Z → float)
    (payload : gmap string string) (s : Sink.ResponseSink) :
  1 ≤ Sink._max_retries s →
  (∀ j, Z.of_nat j < Sink._max_retries s →
        retriable (post (Sink.calls s + j)%nat) = true) →
  ∃ s', Sink.send post jitter payload s = (Ok (), s')
    ∧ Z.of_nat (Sink.calls s') = Z.of_nat (Sink.calls s) + Sink._max_retries s
    ∧ Sink.retry_count s' = Sink.retry_count s + Sink._max_retries s - 1
    ∧ Sink.success_count s' = Sink.success_count s
    ∧ Sink.failure_count s' = Sink.failure_count s + 1.
Proof.
  intros Hm Hpost. unfold Sink.send. rewrite range1_seq.
  destruct (send_loop_retries post jitter payload
              (Z.to_nat (Sink._max_retries s) - 1) 1
              (Z.to_nat (Sink._max_retries s)) 0x1.999999999999ap-3%float s)
    as (s1 & delay & -> & Hc & Hr & Hs & Hf & Hm1 & Hsl).
  { lia. }
  { intros j Hj. apply Hpost. lia. }
  { lia. }
  replace (Z.to_nat (Sink._max_retries s)
           - (Z.to_nat (Sink._max_retries s) - 1))%nat with 1%nat by lia.
  cbn [seq fmap list_fmap Sink.send_loop].
  pose proof (Hpost (Z.to_nat (Sink._max_retries s) - 1)%nat ltac:(lia)) as Hl.
  rewrite Hc. destruct (post _) as [|[]]; try done.
  cbn [retriable] in Hl. apply negb_true_iff in Hl. rewrite Hl.
  cbn [Sink.add_log Sink.add_call Sink._max_retries].
  destruct (Z.geb_spec
              (Z.of_nat (1 + (Z.to_nat (Sink._max_retries s) - 1)))
              (Sink._max_retries s1)) as [_|?]; [|lia].
  eexists. split; [done|]. cbn. rewrite Hc, Hr, Hs, Hf.
  repeat split; lia.
Qed.

Lemma send_gives_up_at_cap_witness :
  ∃ s', Sink.send always_500 (λ _, 1%float) ∅
          (Sink.init Config.defaults None) = (Ok (), s')
    ∧ Z.of_nat (Sink.calls s')
      = Z.of_nat (Sink.calls (Sink.init Config.defaults None))
        + Sink._max_retries (Sink.init Config.defaults None)
    ∧ Sink.retry_count s'
      = Sink.retry_count (Sink.init Config.defaults None)
        + Sink._max_retries (Sink.init Config.defaults None) - 1
    ∧ Sink.success_count s'
      = Sink.success_count (Sink.init Config.defaults None)
    ∧ Sink.failure_count s'
      = Sink.failure_count (Sink.init Config.defaults None) + 1.
Proof.
  apply send_gives_up_at_cap.
  - cbn. lia.
  - intros j _. reflexivity.
Defined.

(** X4. If the first [k] responses are retriable status errors and the next
    call raises anything but an HTTP status error, with [k] below the cap,
    [send] raises that exception after [k + 1] calls; neither a success nor
    a failure is counted. *)
Theorem send_propagates_other_errors
    (post : nat → Client.response) (jitter : Z → float)
    (payload : gmap string string) (s : Sink.ResponseSink) (k : nat)
    (e : exn) :
  Z.of_nat k < Sink._max_retries s →
  (∀ j, (j < k)%nat → retriable (post (Sink.calls s + j)%nat) = true) →
  post (Sink.calls s + k)%nat = Client.Raised e →
  (∀ status, e ≠ HTTPStatusError status) →
  ∃ s', Sink.send post jitter payload s = (Raise e, s')
    ∧ Sink.calls s' = (Sink.calls s + k + 1)%nat
    ∧ Sink.retry_count s' = Sink.retry_count s + Z.of_nat k
    ∧ Sink.success_count s' = Sink.success_count s
    ∧ Sink.failure_count s' = Sink.failure_count s.
Proof.
  intros Hk Hpost Hlast He. unfold Sink.send. rewrite range1_seq.
  destruct (send_loop_retries post jitter payload k 1
              (Z.to_nat (Sink._max_retries s)) 0x1.999999999999ap-3%float s)
    as (s1 & delay & -> & Hc & Hr & Hs & Hf & Hm & Hsl); [lia|done|lia|].
  destruct (Z.to_nat (Sink._max_retries s) - k)%nat as [|n] eqn:Hn; [lia|].
  cbn [seq fmap list_fmap Sink.send_loop]. rewrite Hc, Hlast.
  destruct e; try (by destruct (He status));
    (eexists; split; [done|]; cbn; rewrite Hc, Hr, Hs, Hf; repeat split; lia).
Qed.

Lemma send_propagates_other_errors_witness :
  ∃ s', Sink.send
          (λ _, Client.post_response (Client.HttpResponse 200 false))
          (λ _, 1%float) ∅ (Sink.init Config.defaults None)
        = (Raise JSONDecodeError, s')
    ∧ Sink.calls s' = (Sink.calls (Sink.init Config.defaults None) + 0 + 1)%nat
    ∧ Sink.retry_count s'
      = Sink.retry_count (Sink.init Config.defaults None) + Z.of_nat 0
    ∧ Sink.success_count s'
      = Sink.success_count (Sink.init Config.defaults None)
    ∧ Sink.failure_count s'
      = Sink.failure_count (Sink.init Config.defaults None).
Proof.
  apply (send_propagates_other_errors _ _ _ _ 0).
  - cbn. lia.
  - intros j Hj. lia.
  - reflexivity.
  - intros status. discriminate.
Defined.

(** X5. With a cap of zero or less [send] returns at once: the collaborator
    is not called and nothing is counted, slept or logged. A negative
    [max_retries] argument gives such a sink. *)
Theorem send_without_attempts
    (post : nat → Client.response) (jitter : Z → float)
    (payload : gmap string string) :
  (∀ s, Sink._max_retries s ≤ 0 → Sink.send post jitter payload s = (Ok (), s))
  ∧ (∀ settings m, m < 0 →
       Sink.send post jitter payload (Sink.init settings (Some m))
       = (Ok (), Sink.init settings (Some m))).
Proof.
  assert (∀ s, Sink._max_retries s ≤ 0 →
               Sink.send post jitter payload s = (Ok (), s)) as Hsend.
  { intros s Hs. unfold Sink.send. by rewrite range1_nonpos. }
  split; [done|]. intros settings m Hm. apply Hsend. cbn.
  destruct (Z.eqb_spec m 0); lia.
Qed.

Lemma send_without_attempts_witness :
  Sink.send unreachable (λ _, 1%float) ∅ (Sink.init Config.defaults (Some (-1)))
  = (Ok (), Sink.init Config.defaults (Some (-1))).
Proof.
  apply (proj2 (send_without_attempts unreachable (λ _, 1%float) ∅)). lia.
Defined.

Section send_bounds_facts.
Import Client Sink.
Variable post : nat → response.
Variable jitter : Z → float.
Variable payload : gmap string string.

Lemma send_loop_bounds attempts : ∀ delay s last_attempt,
  last attempts = Some last_attempt →
  _max_retries s ≤ last_attempt →
  let s' := (send_loop post jitter payload attempts delay s).2 in
  (calls s < calls s' ≤ calls s + length attempts)%nat
  ∧ retry_count s' = retry_count s + Z.of_nat (calls s' - calls s - 1)
  ∧ length (sleeps s') = (length (sleeps s) + (calls s' - calls s - 1))%nat
  ∧ success_count s ≤ success_count s'
  ∧ failure_count s ≤ failure_count s'
  ∧ success_count s' + failure_count s'
    ≤ success_count s + failure_count s + 1.
Proof.
  induction attempts as [|a rest IH]; intros delay s la Hlast Hle; [done|].
  cbn [send_loop length].
  destruct (post (calls s)) as [|[]]; cbn; try lia.
  destruct (_ && _); cbn; [lia|].
  destruct (Z.geb_spec a (_max_retries s)) as [?|Hlt]; cbn; [lia|].
  destruct rest as [|b rest].
  { cbn in Hlast. simplify_eq. lia. }
  match goal with |- context [send_loop _ _ _ _ ?d ?s1] =>
    specialize (IH d s1 la Hlast);
    destruct (send_loop post jitter payload (b :: rest) d s1) as [r s'] eqn:Hloop
  end.
  cbn in IH |- *. rewrite length_app in IH. cbn in IH. lia.
Qed.

End send_bounds_facts.

(** X6. Whatever the collaborator does, one [send] on a sink with cap
    [m >= 1] makes between 1 and [m] calls, counts one retry and one sleep
    for each call but the last, never lowers a counter, and counts at most
    one success or failure. *)
Theorem send_bounds
    (post : nat → Client.response) (jitter : Z → float)
    (payload : gmap string string) (s : Sink.ResponseSink) :
  1 ≤ Sink._max_retries s →
  ∃ r s', Sink.send post jitter payload s = (r, s')
    ∧ (Sink.calls s < Sink.calls s')%nat
    ∧ Z.of_nat (Sink.calls s') ≤ Z.of_nat (Sink.calls s) + Sink._max_retries s
    ∧ Sink.retry_count s'
      = Sink.retry_count s + Z.of_nat (Sink.calls s' - Sink.calls s - 1)
    ∧ length (Sink.sleeps s')
      = (length (Sink.sleeps s) + (Sink.calls s' - Sink.calls s - 1))%nat
    ∧ Sink.success_count s ≤ Sink.success_count s'
    ∧ Sink.failure_count s ≤ Sink.failure_count s'
    ∧ Sink.success_count s' + Sink.failure_count s'
      ≤ Sink.success_count s + Sink.failure_count s + 1
    ∧ Sink._max_retries s' = Sink._max_retries s.
Proof.
  intros Hm. unfold Sink.send.
  pose proof (send_loop_bounds post jitter payload
                (Sink.range1 (Sink._max_retries s))
                0x1.999999999999ap-3%float s (Sink._max_retries s)
                (last_range1 _ Hm) ltac:(lia)) as Hb.
  pose proof (send_loop_max_retries post jitter payload
                (Sink.range1 (Sink._max_retries s))
                0x1.999999999999ap-3%float s) as Hmax.
  destruct (Sink.send_loop _ _ _ _ _ _) as [r s']. cbn in Hb, Hmax.
  exists r, s'. split; [done|].
  assert (length (Sink.range1 (Sink._max_retries s))
          = Z.to_nat (Sink._max_retries s)) as Hlen
    by (unfold Sink.range1; by rewrite length_fmap, length_seq).
  rewrite Hlen in Hb. repeat split; try lia; done.
Qed.

Lemma send_bounds_witness :
  ∃ r s', Sink.send unreachable (λ _, 1%float) ∅
            (Sink.init Config.defaults None) = (r, s')
    ∧ (Sink.calls (Sink.init Config.defaults None) < Sink.calls s')%nat
    ∧ Z.of_nat (Sink.calls s')
      ≤ Z.of_nat (Sink.calls (Sink.init Config.defaults None))
        + Sink._max_retries (Sink.init Config.defaults None)
    ∧ Sink.retry_count s'
      = Sink.retry_count (Sink.init Config.defaults None)
        + Z.of_nat (Sink.calls s'
                    - Sink.calls (Sink.init Config.defaults None) - 1)
    ∧ length (Sink.sleeps s')
      = (length (Sink.sleeps (Sink.init Config.defaults None))
         + (Sink.calls s' - Sink.calls (Sink.init Config.defaults None) - 1))%nat
    ∧ Sink.success_count (Sink.init Config.defaults None)
      ≤ Sink.success_count s'
    ∧ Sink.failure_count (Sink.init Config.defaults None)
      ≤ Sink.failure_count s'
    ∧ Sink.success_count s' + Sink.failure_count s'
      ≤ Sink.success_count (Sink.init Config.defaults None)
        + Sink.failure_count (Sink.init Config.defaults None) + 1
    ∧ Sink._max_retries s'
      = Sink._max_retries (Sink.init Config.defaults None).
Proof.
  apply send_bounds. cbn. lia.
Defined.

(** ** More on the scheduler *)

Section mark_done_facts.
Import Models Scheduler.

Lemma heappush_perm (q : list entry) x :
  heap_ok entry_lt q → Heapq.heappush entry_lt q x ≡ₚ q ++ [x].
Proof.
  intros Hq. destruct (heappush_spec entry_lt q x Hq) as [_ ->].
  apply Permutation_cons_append.
Qed.

(** The loop of [mark_done] over distinct children: [email_id] leaves the
    unmet set of each child, and each child whose set becomes empty is
    pushed. *)
Lemma mark_done_loop_exact email_id children : ∀ s,
  NoDup children →
  heap_ok entry_lt (_queue s) →
  (∀ c, c ∈ children →
        is_Some (deps_map s !! c) ∧ is_Some (_emails s !! c)) →
  ∃ s', mark_done_loop email_id children s = (Ok (), s')
    ∧ _emails s' = _emails s
    ∧ dependents_map s' = dependents_map s
    ∧ (∀ c, deps_map s' !! c
            = if decide (c ∈ children)
              then (λ d, d ∖ {[email_id]}) <$> deps_map s !! c
              else deps_map s !! c)
    ∧ _queue s' ≡ₚ _queue s ++ omap (released email_id s) children
    ∧ heap_ok entry_lt (_queue s').
Proof.
  induction children as [|c children IH]; intros s Hnd Hheap Hdom.
  { exists s. do 3 (split; [done|]). split.
    - intros c. by rewrite decide_False by apply not_elem_of_nil.
    - cbn. by rewrite app_nil_r. }
  apply NoDup_cons in Hnd as [Hc Hnd].
  destruct (Hdom c) as [[deps Hdeps] [e He]]; [by left|].
  cbn [mark_done_loop omap list_omap]. unfold released at 1.
  rewrite Hdeps, He. unfold getitem at 1. rewrite Hdeps.
  set (s1 := set_deps c (deps ∖ {[email_id]}) s).
  assert (∀ c', c' ∈ children →
            deps_map s1 !! c' = deps_map s !! c'
            ∧ released email_id s1 c' = released email_id s c') as Hsame.
  { intros c' Hc'. assert (c ≠ c') by (intros ->; done).
    unfold released. cbn. by rewrite lookup_insert_ne. }
  assert (omap (released email_id s1) children
          = omap (released email_id s) children) as Homap.
  { clear -Hsame. induction children as [|c' children IH]; [done|].
    cbn. rewrite (proj2 (Hsame c' ltac:(by left))).
    rewrite IH; [done|]. intros c'' ?. apply Hsame. by right. }
  assert (∀ c', deps_map s1 !! c'
            = if decide (c' = c)
              then Some (deps ∖ {[email_id]}) else deps_map s !! c') as Hs1.
  { intros c'. cbn. destruct (decide (c' = c)) as [->|].
    - by rewrite lookup_insert_eq.
    - by rewrite lookup_insert_ne. }
  assert (∀ s2, _emails s2 = _emails s →
            (∀ c', deps_map s2 !! c' = deps_map s1 !! c') →
            ∀ c', c' ∈ children →
              is_Some (deps_map s2 !! c') ∧ is_Some (_emails s2 !! c'))
    as Hdom2.
  { intros s2 Hem Hdm c' Hc'. rewrite Hem, Hdm, (proj1 (Hsame c' Hc')).
    apply Hdom. by right. }
  assert (∀ s2 s', (∀ c', deps_map s2 !! c' = deps_map s1 !! c') →
            (∀ c', deps_map s' !! c'
                   = if decide (c' ∈ children)
                     then (λ d, d ∖ {[email_id]}) <$> deps_map s2 !! c'
                     else deps_map s2 !! c') →
            ∀ c', deps_map s' !! c'
                  = if decide (c' ∈ c :: children)
                    then (λ d, d ∖ {[email_id]}) <$> deps_map s !! c'
                    else deps_map s !! c') as Hfinal.
  { intros s2 s' Hdm Hs' c'. rewrite Hs', !Hdm, !Hs1.
    destruct (decide (c' = c)) as [->|Hne].
    - rewrite decide_False by done.
      rewrite decide_True by (by left). by rewrite Hdeps.
    - destruct (decide (c' ∈ children)) as [Hin|Hout].
      + by rewrite decide_True by (by right).
      + rewrite decide_False; [done|].
        by intros [?|?]%elem_of_cons. }
  case_decide as Hempty.
  - unfold getitem. cbn [_emails s1 set_deps]. rewrite He.
    set (s2 := set_queue _ s1).
    destruct (IH s2) as (s' & -> & Hem & Hdp & Hdm & Hq & Hh); [done| | |].
    + cbn. by apply heappush_heap_ok.
    + by apply Hdom2.
    + exists s'. split; [done|]. split; [done|]. split; [done|].
      split; [by apply (Hfinal s2)|]. split; [|done].
      rewrite Hq. cbn [s2 set_queue _queue s1 set_deps].
      rewrite heappush_perm by done.
      assert (omap (released email_id s2) children
              = omap (released email_id s1) children) as -> by done.
      rewrite Homap, <- app_assoc. done.
  - destruct (IH s1) as (s' & -> & Hem & Hdp & Hdm & Hq & Hh); [done..| |].
    + by apply Hdom2.
    + exists s'. split; [done|]. split; [done|]. split; [done|].
      split; [by apply (Hfinal s1)|]. split; [|done].
      by rewrite Hq, Homap.
Qed.


Lemma init_queue_perm dm emails : ∀ q q',
  init_queue dm emails q = Ok q' →
  heap_ok entry_lt q →
  q' ≡ₚ q ++ (entry_of <$> filter (λ e, dm !! email_id e = Some ∅) emails).
Proof.
  induction emails as [|e emails IH]; intros q q'; cbn [init_queue].
  { intros [= <-] _. by rewrite app_nil_r. }
  unfold getitem. destruct (dm !! email_id e) as [deps|] eqn:Hdeps; [|done].
  cbn [mbind result_bind]. case_decide as Hempty; intros Hloop Hq.
  - rewrite filter_cons, decide_True by (by rewrite Hdeps, Hempty).
    rewrite (IH _ _ Hloop) by by apply heappush_heap_ok.
    rewrite heappush_perm by done. cbn. by rewrite <- app_assoc.
  - rewrite filter_cons, decide_False by (rewrite Hdeps; congruence).
    by apply IH.
Qed.

(** The loop of [get_ready_batch] on a heap whose ids are all known: it pops
    as many entries as there is room and there are entries, smallest first,
    and returns the items they name. *)
Lemma get_ready_loop_exact room : ∀ s batch,
  heap_ok entry_lt (_queue s) →
  (∀ d i, (d, i) ∈ _queue s → is_Some (_emails s !! i)) →
  ∃ popped entries q,
    get_ready_loop room s batch = (Ok (batch ++ popped), set_queue q s)
    ∧ _queue s ≡ₚ entries ++ q
    ∧ heap_ok entry_lt q
    ∧ Forall2 (λ x e, _emails s !! x.2 = Some e) entries popped
    ∧ length popped = (room `min` length (_queue s))%nat
    ∧ StronglySorted entry_le entries
    ∧ (∀ x y, x ∈ entries → y ∈ q → entry_le x y).
Proof.
  assert (∀ s, set_queue (_queue s) s = s) as Hid by by intros [].
  induction room as [|room IH]; intros s batch Hheap Hknown.
  { exists [], [], (_queue s). rewrite app_nil_r, Hid.
    do 3 (split; [done|]). split; [constructor|]. split; [done|].
    split; [constructor|]. by intros x y ?%elem_of_nil. }
  cbn [get_ready_loop]. case_decide as Hempty.
  { exists [], [], (_queue s). rewrite app_nil_r, Hid, Hempty.
    do 3 (split; [done|]). split; [constructor|]. split; [done|].
    split; [constructor|]. by intros x y ?%elem_of_nil. }
  destruct (heappop_spec entry_lt (_queue s))
    as ([d i] & q & -> & Hperm & Hq & Hmin); [done..|].
  destruct (Hknown d i) as [e He]; [rewrite Hperm; by left|].
  unfold getitem. cbn [_emails set_queue]. rewrite He.
  destruct (IH (set_queue q s) (batch ++ [e]))
    as (popped & entries & q' & Hloop & Hperm' & Hq' & Hall & Hlen & Hsort
        & Hle).
  { done. }
  { intros d' i' Hin. apply (Hknown d'). rewrite Hperm. by right. }
  cbn [_queue set_queue _emails] in *.
  exists (e :: popped), ((d, i) :: entries), q'.
  rewrite Hloop, <- app_assoc. split; [done|].
  split; [by rewrite Hperm, Hperm'|]. split; [done|].
  split; [by constructor|]. split.
  { apply Permutation_length in Hperm. cbn [length] in Hperm |- *.
    rewrite Hlen, Hperm. lia. }
  assert (∀ y, y ∈ entries ++ q' → entry_le (d, i) y) as Hfirst.
  { intros y Hy. apply entry_lt_false_le, Hmin. rewrite Hperm, Hperm'.
    by right. }
  split.
  - constructor; [done|]. apply Forall_forall. intros y Hy.
    apply Hfirst, elem_of_app. by left.
  - intros x y [->|Hx]%elem_of_cons Hy; [|by apply Hle].
    apply Hfirst, elem_of_app. by right.
Qed.


Lemma omap_released_ids email_id s children :
  (omap (released email_id s) children).*2 `sublist_of` children.
Proof.
  induction children as [|c children IH]; [done|]. cbn.
  destruct (released email_id s c) as [[d c']|] eqn:Hrel.
  - assert (c' = c) as ->.
    { unfold released in Hrel. repeat case_match; by simplify_eq. }
    cbn. by apply sublist_skip.
  - by apply sublist_cons.
Qed.

Lemma difference_union_singleton (X done : gset string) i :
  X ∖ (done ∪ {[i]}) = X ∖ done ∖ {[i]}.
Proof.
  apply set_eq. intros x.
  rewrite !elem_of_difference, elem_of_union, elem_of_singleton. tauto.
Qed.

(** What [mark_done] does in a state of a run: the id leaves every unmet
    set, and the dependents left with no unmet dependency are pushed, each
    once. *)
Lemma mark_done_exact emails dn email_id s :
  sched_inv emails dn s →
  deps_exact dn s →
  ∃ s' rel, mark_done email_id s = (Ok (), s')
    ∧ sched_inv emails (dn ∪ {[email_id]}) s'
    ∧ deps_exact (dn ∪ {[email_id]}) s'
    ∧ (keys_ok s → keys_ok s')
    ∧ _queue s' ≡ₚ _queue s ++ rel
    ∧ NoDup rel.*2
    ∧ ∀ d c, (d, c) ∈ rel
        ↔ ∃ e, _emails s !! c = Some e ∧ d = deadline_ns e
               ∧ email_id ∈ dependencies e
               ∧ list_to_set (dependencies e) ∖ dn ⊆@{gset string}
                 {[email_id]}.
Proof.
  intros Hinv Hexact.
  destruct (mark_done_spec emails dn email_id s Hinv)
    as (s' & Hmark & Hinv' & Hkeys).
  set (children := elements (default ∅ (dependents_map s !! email_id))).
  assert (∀ c, c ∈ children
            ↔ ∃ e, _emails s !! c = Some e ∧ email_id ∈ dependencies e)
    as Hchildren.
  { intros c. unfold children. rewrite elem_of_elements.
    rewrite (inv_dependents _ _ _ Hinv), build_dependents_spec.
    unfold depends. rewrite build_deps_map_emails, (inv_emails _ _ _ Hinv).
    rewrite lookup_fmap. split.
    - intros (deps & Hdeps & Hin).
      destruct (build_emails emails !! c) as [e|]; [|done].
      injection Hdeps as <-. exists e. split; [done|].
      by apply elem_of_list_to_set in Hin.
    - intros (e & -> & Hin). eexists. split; [done|].
      by apply elem_of_list_to_set. }
  destruct (mark_done_loop_exact email_id children s)
    as (s'' & Hloop & Hem & Hdp & Hdm & Hq & _).
  { apply NoDup_elements. }
  { apply Hinv. }
  { intros c (e & He & _)%Hchildren. split; [|done].
    rewrite Hexact, lookup_fmap, He. done. }
  unfold mark_done in Hmark. fold children in Hmark.
  assert (s'' = s') as -> by congruence.
  exists s', (omap (released email_id s) children).
  do 2 (split; [done|]). split.
  { unfold deps_exact. apply map_eq. intros c. rewrite Hdm, Hem.
    rewrite Hexact, !lookup_fmap.
    destruct (_emails s !! c) as [e|] eqn:He; cbn; [|by case_decide].
    case_decide as Hc.
    - by rewrite difference_union_singleton.
    - f_equal. rewrite difference_union_singleton.
      apply set_eq. intros x. rewrite !elem_of_difference, elem_of_singleton.
      split; [|tauto]. intros [Hx ?]. split; [done|]. intros ->.
      apply Hc, Hchildren. exists e. split; [done|].
      by apply elem_of_list_to_set in Hx. }
  do 2 (split; [done|]). split.
  { apply (sublist_NoDup _ children);
      [apply NoDup_elements|apply omap_released_ids]. }
  intros d c. rewrite list_elem_of_omap. split.
  - intros (c' & Hc' & Hrel). unfold released in Hrel.
    rewrite Hexact, lookup_fmap in Hrel.
    destruct (_emails s !! c') as [e|] eqn:He; [|done]. cbn in Hrel.
    case_decide as Hempty; [|done]. injection Hrel as <- <-.
    apply Hchildren in Hc' as (e' & He' & Hin).
    assert (e' = e) as -> by congruence.
    exists e. do 3 (split; [done|]).
    intros x Hx. destruct (decide (x = email_id)) as [->|Hne].
    + by apply elem_of_singleton.
    + assert (x ∈ (∅ : gset string)) as []%not_elem_of_empty.
      rewrite <- Hempty. apply elem_of_difference. split; [done|].
      by intros ?%elem_of_singleton.
  - intros (e & He & -> & Hin & Hsub). exists c. split.
    + apply Hchildren. by exists e.
    + unfold released. rewrite Hexact, lookup_fmap, He. cbn.
      rewrite decide_True; [done|]. apply set_eq. intros x.
      rewrite elem_of_difference. split; [|by intros ?%not_elem_of_empty].
      intros [Hx Hne]. by apply Hsub in Hx.
Qed.


Lemma list_to_set_empty_nil (l : list string) :
  list_to_set l = (∅ : gset string) ↔ l = [].
Proof.
  split; [|by intros ->]. destruct l as [|x l]; [done|]. cbn. intros Hempty.
  assert (x ∈ (∅ : gset string)) as []%not_elem_of_empty.
  rewrite <- Hempty. apply elem_of_union_l. by apply elem_of_singleton.
Qed.

Lemma filter_iff_in {A} (P Q : A → Prop) `{!∀ x, Decision (P x)}
    `{!∀ x, Decision (Q x)} (l : list A) :
  (∀ x, x ∈ l → P x ↔ Q x) → filter P l = filter Q l.
Proof.
  induction l as [|x l IH]; intros Hiff; [done|].
  rewrite !filter_cons, IH by (intros; apply Hiff; by right).
  destruct (decide (P x)) as [HP|HP], (decide (Q x)) as [HQ|HQ]; try done;
    exfalso; apply (Hiff x ltac:(by left)) in HP || apply HP, (Hiff x ltac:(by left)); done.
Qed.

(** The scheduler just built, for a batch with unique ids. *)
Lemma init_exact emails s :
  NoDup (ids emails) → init emails = Ok s →
  sched_inv emails ∅ s ∧ keys_ok s ∧ deps_exact ∅ s
  ∧ _queue s ≡ₚ entry_of <$> filter (λ e, dependencies e = []) emails.
Proof.
  intros Hnd Hinit. pose proof (init_keys _ _ Hnd Hinit) as Hkeys.
  pose proof (init_inv _ _ Hinit) as (_ & Hdm & Hinv & _).
  do 2 (split; [done|]). split.
  - unfold deps_exact. rewrite Hdm, (inv_emails _ _ _ Hinv).
    rewrite build_deps_map_emails. apply map_fmap_ext. intros i e _.
    by rewrite difference_empty_L.
  - unfold init in Hinit.
    destruct (Graphlib.prepare _) as [[]|[]]; try done.
    destruct (init_queue (build_deps_map emails) emails []) as [q|] eqn:Hq;
      [|done].
    cbn in Hinit. injection Hinit as <-. cbn.
    rewrite (init_queue_perm _ _ _ _ Hq) by apply heap_ok_nil. cbn.
    f_equiv. erewrite filter_iff_in; [done|]. intros e He. cbn.
    rewrite build_deps_map_emails, lookup_fmap.
    rewrite (build_emails_unique emails e Hnd He). cbn.
    rewrite <- list_to_set_empty_nil. split; congruence.
Qed.

Lemma step_exact emails dn o s evs s' :
  sched_inv emails dn s → deps_exact dn s →
  step o s = (Ok evs, s') →
  deps_exact (dn ∪ marked_of evs) s'.
Proof.
  intros Hinv Hexact. destruct o as [|count|i]; cbn [step].
  - unfold pop_next, get_ready_batch.
    destruct (get_ready_loop_spec emails dn (Z.to_nat 1) s [] Hinv)
      as (popped & q & -> & _). intros [= <- <-].
    replace (marked_of _) with (∅ : gset string)
      by (by destruct (head popped)).
    by rewrite (right_id_L ∅ (∪)).
  - unfold get_ready_batch.
    destruct (get_ready_loop_spec emails dn (Z.to_nat count) s [] Hinv)
      as (popped & q & -> & _ & _ & _ & Hall). intros [= <- <-].
    destruct (trace_ok_popped emails dn popped Hall) as [_ ->].
    by rewrite (right_id_L ∅ (∪)).
  - destruct (mark_done_exact emails dn i s Hinv Hexact)
      as (s2 & rel & -> & _ & Hexact' & _). intros [= <- <-].
    replace (marked_of [Marked i]) with ({[i]} : gset string)
      by (unfold marked_of; cbn; by rewrite (right_id_L ∅ (∪))).
    done.
Qed.

(** Every state of a run from a scheduler with exact unmet sets. *)
Lemma run_exact emails ops : ∀ dn s,
  sched_inv emails dn s → keys_ok s → deps_exact dn s →
  ∃ evs s', run ops s = (Ok evs, s')
    ∧ sched_inv emails (dn ∪ marked_of evs) s'
    ∧ keys_ok s'
    ∧ deps_exact (dn ∪ marked_of evs) s'.
Proof.
  induction ops as [|o ops IH]; intros dn s Hinv Hkeys Hexact.
  { exists [], s. unfold marked_of. cbn. by rewrite (right_id_L ∅ (∪)). }
  cbn [run].
  destruct (step_spec emails dn o s Hinv)
    as (evs1 & s1 & Hstep & Hinv1 & Hkeys1 & _).
  pose proof (step_exact emails dn o s evs1 s1 Hinv Hexact Hstep) as Hexact1.
  rewrite Hstep.
  destruct (IH _ _ Hinv1 (Hkeys1 Hkeys) Hexact1)
    as (evs2 & s2 & -> & Hinv2 & Hkeys2 & Hexact2).
  exists (evs1 ++ evs2), s2. rewrite marked_of_app, (assoc_L (∪)). done.
Qed.

End mark_done_facts.

Section fresh_facts.
Import Models Scheduler.

Lemma popped_ids_popped batch : popped_ids (Popped <$> batch) = email_id <$> batch.
Proof. induction batch as [|e batch IH]; [done|]. cbn. by rewrite <- IH. Qed.

Lemma popped_ids_app evs1 evs2 :
  popped_ids (evs1 ++ evs2) = popped_ids evs1 ++ popped_ids evs2.
Proof. apply omap_app. Qed.

Lemma step_marked o s evs s' :
  step o s = (Ok evs, s') → marked_of evs = list_to_set (marks [o]).
Proof.
  destruct o as [|count|i]; cbn [step].
  - destruct (pop_next s) as [[r|x] s1]; [|done]. intros [= <- <-].
    by destruct r.
  - destruct (get_ready_batch count s) as [[batch|x] s1]; [|done].
    intros [= <- <-]. unfold marked_of. cbn.
    induction batch as [|e batch IH]; done.
  - destruct (mark_done i s) as [[[]|x] s1]; [|done]. by intros [= <- <-].
Qed.

(** What the pops of one call leave: the popped ids move from the queue to
    the popped ones. *)
Lemma pops_fresh emails dn s popped entries batch q :
  sched_inv emails dn s → fresh_inv popped s →
  _queue s ≡ₚ entries ++ q →
  Forall2 (λ x e, _emails s !! x.2 = Some e) entries batch →
  fresh_inv (popped ++ (email_id <$> batch)) (set_queue q s).
Proof.
  intros Hinv [Hnd Hempty] Hperm Hall.
  assert (entries.*2 = email_id <$> batch) as Hids.
  { clear Hperm. induction Hall as [|x e entries batch Hx _ IH]; [done|].
    cbn. rewrite IH. f_equal.
    rewrite (inv_emails _ _ _ Hinv) in Hx.
    by apply build_emails_lookup in Hx as [_ ->]. }
  split; cbn.
  - rewrite <- Hids. rewrite Hperm, fmap_app in Hnd.
    rewrite (comm (++) popped), (assoc (++)), (comm (++) q.*2). exact Hnd.
  - intros i [Hi|Hi]%elem_of_app; [by apply Hempty|].
    rewrite <- Hids in Hi. apply list_elem_of_fmap in Hi as ([d i'] & -> & Hin).
    apply (inv_queue _ _ _ Hinv d). rewrite Hperm. apply elem_of_app. by left.
Qed.

Lemma step_fresh emails dn o s popped evs s' :
  sched_inv emails dn s → deps_exact dn s → fresh_inv popped s →
  (∀ i, i ∈ marks [o] → i ∉ dn) →
  step o s = (Ok evs, s') →
  fresh_inv (popped ++ popped_ids evs) s'.
Proof.
  intros Hinv Hexact Hfresh Hmarks.
  assert (∀ d i, (d, i) ∈ _queue s → is_Some (_emails s !! i)) as Hknown
    by (intros d i Hin; by apply (inv_queue _ _ _ Hinv d)).
  destruct o as [|count|i]; cbn [step].
  - unfold pop_next, get_ready_batch.
    destruct (get_ready_loop_exact (Z.to_nat 1) s [] (inv_heap _ _ _ Hinv)
                Hknown)
      as (batch & entries & q & -> & Hperm & _ & Hall & Hlen & _).
    intros [= <- <-]. cbn [app].
    assert (option_list (head batch) = batch) as ->.
    { change (Z.to_nat 1) with 1%nat in Hlen.
      assert (length batch ≤ 1)%nat as Hle by lia. clear Hlen.
      destruct batch as [|e [|e' batch]]; try done.
      cbn [length] in Hle. lia. }
    rewrite popped_ids_popped. by eapply pops_fresh.
  - unfold get_ready_batch.
    destruct (get_ready_loop_exact (Z.to_nat count) s []
                (inv_heap _ _ _ Hinv) Hknown)
      as (batch & entries & q & -> & Hperm & _ & Hall & _).
    intros [= <- <-]. cbn [app].
    rewrite popped_ids_popped. by eapply pops_fresh.
  - destruct (mark_done_exact emails dn i s Hinv Hexact)
      as (s2 & rel & -> & Hinv' & Hexact' & _ & Hperm & Hndrel & Hrel).
    intros [= <- <-]. cbn. rewrite (right_id_L [] (++)).
    destruct Hfresh as [Hnd Hempty].
    assert (i ∉ dn) as Hi by (apply Hmarks; cbn; by left).
    assert (∀ c, c ∈ (_queue s).*2 ++ popped → deps_map s !! c = Some ∅)
      as Hold.
    { intros c [Hc|Hc]%elem_of_app; [|by apply Hempty].
      apply list_elem_of_fmap in Hc as ([d c'] & -> & Hin).
      by apply (inv_queue _ _ _ Hinv d). }
    split.
    + rewrite Hperm, fmap_app, <- (assoc_L (++)).
      rewrite (comm (++) rel.*2), (assoc_L (++)).
      apply NoDup_app. split; [done|]. split; [|done].
      intros c Hc Hcrel. apply Hold in Hc.
      apply list_elem_of_fmap in Hcrel as ([d c'] & -> & Hin).
      apply Hrel in Hin as (e & He & _ & Hdep & _). cbn in Hc.
      rewrite Hexact, lookup_fmap, He in Hc. cbn in Hc.
      injection Hc as Hc.
      apply (not_elem_of_empty (C:=gset string) i). rewrite <- Hc.
      apply elem_of_difference. split; [by apply elem_of_list_to_set|done].
    + intros c Hc. specialize (Hempty c Hc).
      rewrite Hexact, lookup_fmap in Hempty.
      rewrite Hexact', lookup_fmap.
      destruct (_emails s !! c) as [e|] eqn:He; [|done].
      cbn in Hempty. injection Hempty as Hempty.
      rewrite (inv_emails _ _ _ Hinv'), <- (inv_emails _ _ _ Hinv), He.
      cbn. f_equal. apply set_eq. intros x.
      rewrite elem_of_difference, elem_of_union.
      split; [|by intros ?%not_elem_of_empty].
      intros [Hx Hnot]. rewrite <- Hempty. apply elem_of_difference. tauto.
Qed.

(** Every state of a run in which no id is marked twice, nor marked before
    the run. *)
Lemma run_fresh emails ops : ∀ dn popped s,
  sched_inv emails dn s → keys_ok s → deps_exact dn s → fresh_inv popped s →
  NoDup (marks ops) → (∀ i, i ∈ marks ops → i ∉ dn) →
  ∃ evs s', run ops s = (Ok evs, s')
    ∧ sched_inv emails (dn ∪ marked_of evs) s'
    ∧ keys_ok s'
    ∧ deps_exact (dn ∪ marked_of evs) s'
    ∧ fresh_inv (popped ++ popped_ids evs) s'.
Proof.
  induction ops as [|o ops IH];
    intros dn popped s Hinv Hkeys Hexact Hfresh Hnd Hmarks.
  { exists [], s. unfold marked_of. cbn.
    by rewrite (right_id_L ∅ (∪)), (right_id_L [] (++)). }
  cbn [run].
  destruct (step_spec emails dn o s Hinv)
    as (evs1 & s1 & Hstep & Hinv1 & Hkeys1 & _).
  pose proof (step_exact emails dn o s evs1 s1 Hinv Hexact Hstep) as Hexact1.
  pose proof (step_marked o s evs1 s1 Hstep) as Hmarked.
  change (o :: ops) with ([o] ++ ops) in Hnd, Hmarks.
  unfold marks in Hnd, Hmarks. rewrite omap_app in Hnd, Hmarks.
  fold (marks [o]) in Hnd, Hmarks. fold (marks ops) in Hnd, Hmarks.
  apply NoDup_app in Hnd as (_ & Hdisj & Hnd).
  assert (fresh_inv (popped ++ popped_ids evs1) s1) as Hfresh1.
  { apply (step_fresh emails dn o s popped evs1 s1); try done.
    intros i Hi. apply Hmarks, elem_of_app. by left. }
  rewrite Hstep.
  destruct (IH _ _ _ Hinv1 (Hkeys1 Hkeys) Hexact1 Hfresh1 Hnd)
    as (evs2 & s2 & -> & Hinv2 & Hkeys2 & Hexact2 & Hfresh2).
  { intros i Hi. rewrite elem_of_union, Hmarked, elem_of_list_to_set.
    intros [Hdn|Ho].
    - revert Hdn. apply Hmarks, elem_of_app. by right.
    - by apply (Hdisj i Ho). }
  exists (evs1 ++ evs2), s2.
  rewrite marked_of_app, popped_ids_app, !(assoc_L (∪)), !(assoc_L (++)).
  done.
Qed.

End fresh_facts.

Section scheduler_extras.
Import Models Scheduler.

Lemma abc_nodup : NoDup (ids [email_A; email_B; email_C]).
Proof. apply (bool_decide_unpack _). vm_compute. exact I. Qed.

Lemma abc_init : ∃ s, init [email_A; email_B; email_C] = Ok s.
Proof. apply init_prepare_ok. vm_compute. reflexivity. Qed.

(** X7. The scheduler built from a batch with unique ids starts with a
    ready queue that holds exactly one entry, (deadline, id), for each item
    that declares no dependency, and nothing else. *)
Theorem init_queue_ready (emails : list EmailInternal)
    (s : DependencyScheduler) :
  NoDup (ids emails) →
  init emails = Ok s →
  _queue s ≡ₚ entry_of <$> filter (λ e, dependencies e = []) emails.
Proof. intros Hnd Hinit. by apply init_exact. Qed.

Lemma init_queue_ready_witness :
  ∃ s, init [email_A; email_B; email_C] = Ok s
    ∧ _queue s
      ≡ₚ entry_of
           <$> filter (λ e, dependencies e = []) [email_A; email_B; email_C].
Proof.
  destruct abc_init as [s Hs]. exists s. split; [exact Hs|].
  exact (init_queue_ready _ s abc_nodup Hs).
Defined.

Lemma entries_of_batch emails dn s entries batch :
  sched_inv emails dn s → keys_ok s →
  (∀ x, x ∈ entries → x ∈ _queue s) →
  Forall2 (λ x e, _emails s !! x.2 = Some e) entries batch →
  entries = entry_of <$> batch ∧ Forall (λ e, e ∈ emails) batch.
Proof.
  intros Hinv Hkeys Hin Hall.
  induction Hall as [|[d i] e entries batch He _ IH]; [done|].
  destruct IH as [-> Hbatch]; [intros x Hx; apply Hin; by right|].
  cbn in He. destruct (Hkeys d i) as (e' & He' & <-); [apply Hin; by left|].
  assert (e' = e) as -> by congruence.
  rewrite (inv_emails _ _ _ Hinv) in He.
  apply build_emails_lookup in He as [He <-].
  split; [done|]. by constructor.
Qed.

(** X8. In every state a run can reach from a batch with unique ids,
    [get_ready_batch count] raises nothing and returns
    min(count, queue length) items of the batch (none for a count of zero
    or less), in nondecreasing (deadline, id) order; it takes exactly their
    entries out of the queue, and no entry it leaves is before a returned
    one. *)
Theorem get_ready_batch_earliest (emails : list EmailInternal)
    (s : DependencyScheduler) (ops : list op) (count : Z) :
  NoDup (ids emails) →
  init emails = Ok s →
  ∃ evs s1, run ops s = (Ok evs, s1)
    ∧ ∃ batch q,
        get_ready_batch count s1 = (Ok batch, set_queue q s1)
        ∧ length batch = (Z.to_nat count `min` length (_queue s1))%nat
        ∧ Forall (λ e, e ∈ emails) batch
        ∧ _queue s1 ≡ₚ (entry_of <$> batch) ++ q
        ∧ StronglySorted entry_le (entry_of <$> batch)
        ∧ ∀ e y, e ∈ batch → y ∈ q → entry_le (entry_of e) y.
Proof.
  intros Hnd Hinit. pose proof (init_keys _ _ Hnd Hinit) as Hkeys.
  apply init_inv in Hinit as (_ & _ & Hinv & _).
  destruct (run_spec emails ops ∅ s Hinv)
    as (evs & s1 & Hrun & Hinv1 & Hkeys1 & _).
  specialize (Hkeys1 Hkeys).
  exists evs, s1. split; [done|]. unfold get_ready_batch.
  destruct (get_ready_loop_exact (Z.to_nat count) s1 []
              (inv_heap _ _ _ Hinv1))
    as (batch & entries & q & Heq & Hperm & _ & Hall & Hlen & Hsorted & Hle).
  { intros d i Hin. by apply (inv_queue _ _ _ Hinv1 d). }
  destruct (entries_of_batch _ _ s1 entries batch Hinv1 Hkeys1)
    as [-> Hbatch]; [|done|].
  { intros x Hx. rewrite Hperm. apply elem_of_app. by left. }
  exists batch, q. do 5 (split; [done|]).
  intros e y He. apply Hle. by apply list_elem_of_fmap_2.
Qed.

Lemma get_ready_batch_earliest_witness :
  ∃ s, init [email_A; email_B; email_C] = Ok s
    ∧ ∃ evs s1, run [PopNext; MarkDone "A"] s = (Ok evs, s1)
      ∧ ∃ batch q,
          get_ready_batch 5 s1 = (Ok batch, set_queue q s1)
          ∧ length batch = (Z.to_nat 5 `min` length (_queue s1))%nat
          ∧ Forall (λ e, e ∈ [email_A; email_B; email_C]) batch
          ∧ _queue s1 ≡ₚ (entry_of <$> batch) ++ q
          ∧ StronglySorted entry_le (entry_of <$> batch)
          ∧ ∀ e y, e ∈ batch → y ∈ q → entry_le (entry_of e) y.
Proof.
  destruct abc_init as [s Hs]. exists s. split; [exact Hs|].
  exact (get_ready_batch_earliest _ s _ 5 abc_nodup Hs).
Defined.

(** X9. In every state a run can reach, [mark_done] of an id that no item
    of the batch declares as a dependency, the id of an item or of none,
    raises nothing and leaves the scheduler as it was. *)
Theorem mark_done_without_dependents (emails : list EmailInternal)
    (s : DependencyScheduler) (ops : list op) (i : string) :
  init emails = Ok s →
  (∀ e, e ∈ emails → i ∉ dependencies e) →
  ∃ evs s1, run ops s = (Ok evs, s1) ∧ mark_done i s1 = (Ok (), s1).
Proof.
  intros (_ & _ & Hinv & _)%init_inv Hnone.
  destruct (run_spec emails ops ∅ s Hinv) as (evs & s1 & Hrun & Hinv1 & _).
  exists evs, s1. split; [done|]. unfold mark_done.
  replace (default ∅ (dependents_map s1 !! i)) with (∅ : gset string);
    [by rewrite elements_empty|].
  symmetry. apply set_eq. intros c.
  rewrite (inv_dependents _ _ _ Hinv1), build_dependents_spec.
  split; [|by intros ?%not_elem_of_empty].
  intros (deps & Hdeps & Hi). exfalso.
  rewrite build_deps_map_emails, lookup_fmap in Hdeps.
  destruct (build_emails emails !! c) as [e|] eqn:He; [|done].
  apply build_emails_lookup in He as [He _]. injection Hdeps as <-.
  apply elem_of_list_to_set in Hi. by apply (Hnone e).
Qed.

Lemma mark_done_without_dependents_witness :
  ∃ s, init [email_A; email_B; email_C] = Ok s
    ∧ ∃ evs s1, run [PopNext; MarkDone "A"; PopNext] s = (Ok evs, s1)
        ∧ mark_done "C" s1 = (Ok (), s1).
Proof.
  destruct abc_init as [s Hs]. exists s. split; [exact Hs|].
  apply (mark_done_without_dependents _ s _ "C" Hs).
  intros e He. apply (bool_decide_unpack _).
  repeat (apply elem_of_cons in He as [->|He]; [vm_compute; exact I|]).
  by apply elem_of_nil in He.
Defined.

(** X10. In every state a run can reach from a batch with unique ids,
    [mark_done i] raises nothing; it leaves the items and the dependents
    map as they are, makes the unmet dependencies of every item its
    declared ones less the ids marked so far and [i], and adds to the queue
    one entry, (deadline, id), for exactly the items that declare [i] and
    whose other declared dependencies have all been marked. *)
Theorem mark_done_releases (emails : list EmailInternal)
    (s : DependencyScheduler) (ops : list op) (i : string) :
  NoDup (ids emails) →
  init emails = Ok s →
  ∃ evs s1, run ops s = (Ok evs, s1)
    ∧ ∃ s2 rel,
        mark_done i s1 = (Ok (), s2)
        ∧ _emails s2 = _emails s1
        ∧ dependents_map s2 = dependents_map s1
        ∧ (∀ e, e ∈ emails →
             deps_map s2 !! email_id e
             = Some (list_to_set (dependencies e) ∖ (marked_of evs ∪ {[i]})))
        ∧ _queue s2 ≡ₚ _queue s1 ++ rel
        ∧ NoDup rel
        ∧ ∀ x, x ∈ rel ↔
            ∃ e, e ∈ emails ∧ x = entry_of e ∧ i ∈ dependencies e
                 ∧ ∀ y, y ∈ dependencies e → y = i ∨ Marked y ∈ evs.
Proof.
  intros Hnd Hinit.
  destruct (init_exact emails s Hnd Hinit) as (Hinv & Hkeys & Hexact & _).
  destruct (run_exact emails ops ∅ s Hinv Hkeys Hexact)
    as (evs & s1 & Hrun & Hinv1 & Hkeys1 & Hexact1).
  rewrite (left_id_L ∅ (∪)) in Hinv1, Hexact1.
  exists evs, s1. split; [done|].
  destruct (mark_done_exact emails (marked_of evs) i s1 Hinv1 Hexact1)
    as (s2 & rel & Heq & Hinv2 & Hexact2 & _ & Hperm & Hndrel & Hrel).
  exists s2, rel. split; [done|].
  split; [by rewrite (inv_emails _ _ _ Hinv2), (inv_emails _ _ _ Hinv1)|].
  split;
    [by rewrite (inv_dependents _ _ _ Hinv2), (inv_dependents _ _ _ Hinv1)|].
  split.
  { intros e He. rewrite Hexact2, lookup_fmap, (inv_emails _ _ _ Hinv2).
    by rewrite (build_emails_unique emails e Hnd He). }
  split; [done|]. split; [by apply NoDup_fmap_1 in Hndrel|].
  intros [d c]. rewrite Hrel, (inv_emails _ _ _ Hinv1). split.
  - intros (e & He & -> & Hi & Hsub).
    apply build_emails_lookup in He as [He <-].
    exists e. do 3 (split; [done|]). intros y Hy.
    destruct (decide (y = i)) as [->|Hne]; [by left|]. right.
    apply marked_of_elem. destruct (decide (y ∈ marked_of evs)); [done|].
    exfalso. apply Hne. apply (elem_of_singleton (C:=gset string)).
    apply Hsub, elem_of_difference.
    split; [by apply elem_of_list_to_set|done].
  - intros (e & He & [= -> ->] & Hi & Hall). exists e.
    split; [by apply build_emails_unique|]. do 2 (split; [done|]).
    intros y [Hy Hnot]%elem_of_difference. apply elem_of_list_to_set in Hy.
    apply (elem_of_singleton (C:=gset string)).
    destruct (Hall y Hy) as [->|Hm]; [done|].
    by apply marked_of_elem in Hm.
Qed.

Lemma mark_done_releases_witness :
  ∃ s, init [email_A; email_B; email_C] = Ok s
    ∧ ∃ evs s1, run [PopNext] s = (Ok evs, s1)
      ∧ ∃ s2 rel,
          mark_done "A" s1 = (Ok (), s2)
          ∧ _emails s2 = _emails s1
          ∧ dependents_map s2 = dependents_map s1
          ∧ (∀ e, e ∈ [email_A; email_B; email_C] →
               deps_map s2 !! email_id e
               = Some (list_to_set (dependencies e)
                       ∖ (marked_of evs ∪ {["A"]})))
          ∧ _queue s2 ≡ₚ _queue s1 ++ rel
          ∧ NoDup rel
          ∧ ∀ x, x ∈ rel ↔
              ∃ e, e ∈ [email_A; email_B; email_C] ∧ x = entry_of e
                   ∧ "A" ∈ dependencies e
                   ∧ ∀ y, y ∈ dependencies e → y = "A" ∨ Marked y ∈ evs.
Proof.
  destruct abc_init as [s Hs]. exists s. split; [exact Hs|].
  exact (mark_done_releases _ s _ "A" abc_nodup Hs).
Defined.

(** X11. From a batch with unique ids, under any calls that mark no id
    twice, no item is returned by two pops, and no popped item is left or
    put back in the ready queue. *)
Theorem no_item_popped_twice (emails : list EmailInternal)
    (s : DependencyScheduler) (ops : list op) :
  NoDup (ids emails) →
  init emails = Ok s →
  NoDup (marks ops) →
  ∃ evs s1, run ops s = (Ok evs, s1)
    ∧ NoDup (popped_ids evs)
    ∧ ∀ d i, (d, i) ∈ _queue s1 → i ∉ popped_ids evs.
Proof.
  intros Hnd Hinit Hmarks.
  destruct (init_exact emails s Hnd Hinit) as (Hinv & Hkeys & Hexact & Hq).
  assert (fresh_inv [] s) as Hfresh.
  { split; [|by intros i ?%elem_of_nil]. rewrite (right_id_L [] (++)), Hq.
    rewrite <- list_fmap_compose.
    apply (sublist_NoDup _ (ids emails)); [done|].
    apply fmap_sublist, sublist_filter. }
  destruct (run_fresh emails ops ∅ [] s Hinv Hkeys Hexact Hfresh Hmarks)
    as (evs & s1 & Hrun & _ & _ & _ & Hnd1 & _);
    [by intros i _ ?%not_elem_of_empty|].
  exists evs, s1. split; [done|]. cbn [app] in Hnd1.
  apply NoDup_app in Hnd1 as (_ & Hdisj & Hpop). split; [done|].
  intros d i Hin. apply Hdisj. by apply (list_elem_of_fmap_2 snd _ (d, i)).
Qed.

Lemma no_item_popped_twice_witness :
  ∃ s, init [email_A; email_B; email_C] = Ok s
    ∧ ∃ evs s1,
        run [PopNext; MarkDone "A"; GetReadyBatch 2; MarkDone "C"] s
        = (Ok evs, s1)
        ∧ NoDup (popped_ids evs)
        ∧ ∀ d i, (d, i) ∈ _queue s1 → i ∉ popped_ids evs.
Proof.
  destruct abc_init as [s Hs]. exists s. split; [exact Hs|].
  apply (no_item_popped_twice _ s _ abc_nodup Hs).
  apply (bool_decide_unpack _). vm_compute. exact I.
Defined.

(** X12. A batch with unique ids in which an item lists its own id among
    its dependencies gives no scheduler: construction raises [ValueError]. *)
Theorem init_self_dependency (emails : list EmailInternal)
    (e : EmailInternal) :
  NoDup (ids emails) →
  e ∈ emails →
  email_id e ∈ dependencies e →
  init emails = Raise (ValueError "Dependency cycle detected").
Proof.
  intros Hnd He Hself.
  destruct (init_spec emails Hnd) as [[Hno _]|[_ Hraise]]; [|done].
  destruct Hno. exists (email_id e). apply tc_once. by exists e.
Qed.

Lemma init_self_dependency_witness :
  init [email_A; email "S" 5 ["A"; "S"]]
  = Raise (ValueError "Dependency cycle detected").
Proof.
  apply (init_self_dependency _ (email "S" 5 ["A"; "S"])).
  - apply (bool_decide_unpack _). vm_compute. exact I.
  - right. left.
  - right. left.
Defined.

(** X13. Whatever the scheduler holds, [pop_next] returns [None] only on an
    empty queue: [has_work] is then false and the scheduler is unchanged,
    so a worker that gets [None] always finds no work and stops. *)
Theorem pop_next_none_no_work (s s' : DependencyScheduler) :
  pop_next s = (Ok None, s') →
  s' = s ∧ has_work s = false.
Proof.
  unfold pop_next, get_ready_batch, has_work.
  change (Z.to_nat 1) with 1%nat. cbn [get_ready_loop].
  destruct (decide (_queue s = [])) as [Hq|Hq].
  { intros [= <-]. split; [done|]. rewrite Hq. done. }
  destruct (Heapq.heappop entry_lt (_queue s)) as [[[d i] q]|]; [|done].
  destruct (getitem _ i) as [e|x]; [|done]. done.
Qed.

Lemma pop_next_none_no_work_witness :
  {| deps_map := {["B" := {["A"]}]}; dependents_map := {["A" := {["B"]}]};
     _queue := []; _emails := {["B" := email_B]} |}
  = {| deps_map := {["B" := {["A"]}]}; dependents_map := {["A" := {["B"]}]};
       _queue := []; _emails := {["B" := email_B]} |}
  ∧ has_work
      {| deps_map := {["B" := {["A"]}]}; dependents_map := {["A" := {["B"]}]};
         _queue := []; _emails := {["B" := email_B]} |} = false.
Proof. apply pop_next_none_no_work. reflexivity. Defined.

End scheduler_extras.

(** ** The worker pool *)

Section pool_facts.
Import Models Scheduler.

(** Replacing one item of a list. *)
Lemma insert_perm {A} (l : list A) i x y :
  l !! i = Some x → ∃ rest, l ≡ₚ x :: rest ∧ <[i := y]> l ≡ₚ y :: rest.
Proof.
  intros Hi. exists (take i l ++ drop (S i) l).
  pose proof (lookup_lt_Some _ _ _ Hi) as Hlt.
  split.
  - transitivity (take i l ++ x :: drop (S i) l);
      [by rewrite take_drop_middle|].
    symmetry. apply Permutation_middle.
  - rewrite insert_take_drop by done. symmetry. apply Permutation_middle.
Qed.

Lemma pool_inv_perm emails s ts ts' acts :
  ts ≡ₚ ts' → pool_inv emails s ts acts → pool_inv emails s ts' acts.
Proof.
  intros Hperm [H1 H2 H3 H4 H5 H6 H7 H8 H9 H10 H11 H12].
  assert (preparing ts ≡ₚ preparing ts') as Hp
    by (unfold preparing; by rewrite Hperm).
  assert (sent ts ≡ₚ sent ts') as Hs by (unfold sent; by rewrite Hperm).
  split; [exact H1|exact H2|exact H3|exact H4|..|exact H9| | |].
  - by rewrite <- Hp.
  - by rewrite <- Hs.
  - intros i. rewrite <- Hs. apply H7.
  - intros i. rewrite <- Hp. apply H8.
  - rewrite <- Hperm. intros Hno i Hi. rewrite <- Hs, <- Hp. by apply H10.
  - intros Hne Hall. apply H11; [|by rewrite Hperm].
    intros ->. apply Hne. by apply Permutation_nil_l in Hperm.
  - by rewrite <- Hperm.
Qed.

(** [pop_next] on a scheduler that keeps its invariant. *)
Lemma pop_next_exact emails dn s :
  sched_inv emails dn s → keys_ok s →
  (_queue s = [] ∧ pop_next s = (Ok None, s))
  ∨ (∃ e q, pop_next s = (Ok (Some e), set_queue q s)
       ∧ e ∈ emails
       ∧ (∀ x, x ∈ dependencies e → x ∈ dn)
       ∧ _queue s ≡ₚ entry_of e :: q).
Proof.
  intros Hinv Hkeys. unfold pop_next, get_ready_batch.
  change (Z.to_nat 1) with 1%nat. cbn [get_ready_loop].
  destruct (decide (_queue s = [])) as [Hq|Hq]; [left; by split|right].
  destruct (heappop_spec entry_lt (_queue s))
    as ([d i] & q & -> & Hperm & _); [apply Hinv|done|].
  assert ((d, i) ∈ _queue s) as Hin by (rewrite Hperm; by left).
  destruct (Hkeys d i Hin) as (e & He & <-).
  destruct (inv_queue _ _ _ Hinv _ _ Hin) as [_ Hempty].
  unfold getitem. cbn. rewrite He. cbn.
  destruct (inv_deps _ _ _ Hinv i e He) as (deps & Hdeps & _ & Hsub).
  assert (deps = ∅) as -> by congruence.
  rewrite (inv_emails _ _ _ Hinv) in He.
  apply build_emails_lookup in He as [He <-].
  exists e, q. split; [done|]. split; [done|]. split; [|done].
  intros x Hx. destruct (decide (x ∈ dn)) as [|Hdn]; [done|].
  exfalso. apply (not_elem_of_empty (C:=gset string) x), Hsub.
  apply elem_of_difference. split; [by apply elem_of_list_to_set|done].
Qed.

Lemma pops_of_app a b : pops_of (a ++ b) = pops_of a ++ pops_of b.
Proof. apply omap_app. Qed.

Lemma sends_of_app a b : sends_of (a ++ b) = sends_of a ++ sends_of b.
Proof. apply omap_app. Qed.

Lemma dones_of_app a b : dones_of (a ++ b) = dones_of a ++ dones_of b.
Proof. apply omap_app. Qed.

(** A task that ends by an exception. *)
Lemma crash_inv emails s t rest acts :
  pool_inv emails s (t :: rest) acts →
  pool_inv emails s (Responder.Crashed :: rest) acts.
Proof.
  intros [H1 H2 H3 H4 H5 H6 H7 H8 H9 H10 H11 H12].
  assert (preparing (Responder.Crashed :: rest) `sublist_of`
            preparing (t :: rest)) as Hp
    by (unfold preparing; cbn; destruct t; by repeat constructor).
  assert (sent (Responder.Crashed :: rest) `sublist_of` sent (t :: rest))
    as Hs by (unfold sent; cbn; destruct t; by repeat constructor).
  split; [exact H1|exact H2|exact H3|exact H4|..|exact H9| | |].
  - eapply sublist_NoDup; [exact H5|]. by apply sublist_app.
  - eapply sublist_NoDup; [exact H6|]. by apply sublist_app.
  - intros i [Hi|Hi]%elem_of_app; apply H7, elem_of_app; [by left|right].
    by eapply elem_of_sublist.
  - intros i [Hi|Hi]%elem_of_app; apply H8, elem_of_app; [by left|right].
    by eapply elem_of_sublist.
  - intros Hno. destruct Hno. by left.
  - intros _ Hall. by apply Forall_cons_1 in Hall as [? _].
  - intros [?|?]%elem_of_cons; [done|]. apply H12. by right.
Qed.

Lemma marked_of_nil_r (dn : gset string) e :
  dn ∪ marked_of [Popped e] = dn.
Proof. unfold marked_of. cbn. by rewrite (right_id_L ∅ (∪)). Qed.

(** The first [async with] block of the loop. *)
Lemma pop_inv emails s rest acts :
  pool_inv emails s (Responder.AtPop :: rest) acts →
  ∃ t' s' acts1,
    Responder._process_loop true Responder.AtPop s = (t', s', acts1)
    ∧ t' ≠ Responder.Crashed
    ∧ order_ok emails acts acts1
    ∧ pool_inv emails s' (t' :: rest) (acts ++ acts1).
Proof.
  intros [H1 H2 H3 H4 H5 H6 H7 H8 H9 H10 H11 H12].
  cbn [Responder._process_loop].
  destruct (pop_next_exact emails _ s H1 H2)
    as [[Hq Hpop]|(e & q & Hpop & He & Hdeps & Hperm)]; rewrite Hpop.
  - assert (has_work s = false) as ->
      by (unfold has_work; rewrite Hq; apply bool_decide_eq_false_2;
          intros Hne; by apply Hne).
    exists Responder.Returned, s, []. rewrite (right_id_L [] (++)).
    split; [done|]. split; [done|]. split; [exact I|].
    split; [exact H1|exact H2|exact H3|exact H4|exact H5|exact H6|exact H7
           |exact H8|exact H9| | |].
    + intros Hno. apply H10. intros [?|?]%elem_of_cons; [done|].
      apply Hno. by right.
    + done.
    + intros [?|?]%elem_of_cons; [done|]. apply H12. by right.
  - exists (Responder.Preparing e), (set_queue q s), [Responder.Pop e].
    split; [done|]. split; [done|].
    assert (step PopNext s = (Ok [Popped e], set_queue q s)) as Hstep
      by (cbn [step]; by rewrite Hpop).
    destruct (step_spec emails _ PopNext s H1)
      as (evs & s1 & Hstep' & Hinv1 & Hkeys1 & _).
    rewrite Hstep in Hstep'. injection Hstep' as <- <-.
    pose proof (step_exact emails _ PopNext s _ _ H1 H3 Hstep) as Hexact1.
    pose proof (step_fresh emails _ PopNext s _ _ _ H1 H3 H4
                  ltac:(by intros i ?%elem_of_nil) Hstep) as Hfresh1.
    rewrite marked_of_nil_r in Hinv1, Hexact1.
    change (popped_ids [Popped e]) with [email_id e] in Hfresh1.
    assert (email_id e ∉ pops_of acts) as Hnew.
    { destruct H4 as [Hnd _]. rewrite Hperm in Hnd. cbn in Hnd.
      apply NoDup_cons in Hnd as [Hnot _].
      intros Hin. apply Hnot, elem_of_app. by right. }
    split.
    { split; [|exact I]. split; [done|]. intros x Hx. specialize (Hdeps x Hx).
      apply elem_of_list_to_set in Hdeps. split; [|done].
      apply H7, elem_of_app. by left. }
    assert (pops_of (acts ++ [Responder.Pop e])
            = pops_of acts ++ [email_id e]) as Hp1 by apply pops_of_app.
    assert (sends_of (acts ++ [Responder.Pop e]) = sends_of acts) as Hp2
      by (rewrite sends_of_app; apply (right_id_L [] (++))).
    assert (dones_of (acts ++ [Responder.Pop e]) = dones_of acts) as Hp3
      by (rewrite dones_of_app; apply (right_id_L [] (++))).
    change (preparing (Responder.AtPop :: rest)) with (preparing rest)
      in H5, H8, H10.
    change (sent (Responder.AtPop :: rest)) with (sent rest) in H6, H7, H10.
    split; rewrite ?Hp1, ?Hp2, ?Hp3;
      change (preparing (Responder.Preparing e :: rest))
        with (email_id e :: preparing rest);
      change (sent (Responder.Preparing e :: rest)) with (sent rest);
      [exact Hinv1|by apply Hkeys1|exact Hexact1|exact Hfresh1| |exact H6
      |exact H7| | | | |].
    + rewrite <- Permutation_middle. apply NoDup_cons. split; [|done].
      intros Hin. by apply Hnew, H8.
    + intros i. rewrite <- Permutation_middle, elem_of_cons, !elem_of_app.
      rewrite list_elem_of_singleton.
      intros [->|Hi]; [by right|left; apply H8, elem_of_app; exact Hi].
    + intros i Hi. specialize (H9 i Hi). revert H9.
      rewrite Hperm. cbn. rewrite !elem_of_app, !elem_of_cons, elem_of_app.
      rewrite elem_of_nil. tauto.
    + intros Hno i. rewrite elem_of_app, list_elem_of_singleton.
      intros [Hi| ->].
      * assert (Responder.Crashed ∉ Responder.AtPop :: rest) as Hno'.
        { intros [?|?]%elem_of_cons; [done|]. apply Hno. by right. }
        specialize (H10 Hno' i Hi). revert H10.
        rewrite !elem_of_app, elem_of_cons. tauto.
      * rewrite !elem_of_app, elem_of_cons. tauto.
    + intros _ Hall. by apply Forall_cons_1 in Hall as [? _].
    + intros [?|?]%elem_of_cons; [done|]. apply H12. by right.
Qed.

(** From the pop to the return of [sink.send]. *)
Lemma send_inv emails s e rest acts :
  pool_inv emails s (Responder.Preparing e :: rest) acts →
  order_ok emails acts [Responder.Send e]
  ∧ pool_inv emails s (Responder.Sent e :: rest)
      (acts ++ [Responder.Send e]).
Proof.
  intros [H1 H2 H3 H4 H5 H6 H7 H8 H9 H10 H11 H12].
  change (preparing (Responder.Preparing e :: rest))
    with (email_id e :: preparing rest) in H5, H8, H10.
  change (sent (Responder.Preparing e :: rest)) with (sent rest)
    in H6, H7, H10.
  assert (pops_of (acts ++ [Responder.Send e]) = pops_of acts) as Hp1
    by (rewrite pops_of_app; apply (right_id_L [] (++))).
  assert (sends_of (acts ++ [Responder.Send e])
          = sends_of acts ++ [email_id e]) as Hp2 by apply sends_of_app.
  assert (dones_of (acts ++ [Responder.Send e]) = dones_of acts) as Hp3
    by (rewrite dones_of_app; apply (right_id_L [] (++))).
  assert (email_id e ∉ sends_of acts) as Hnew.
  { rewrite <- Permutation_middle in H5.
    apply NoDup_cons in H5 as [Hnot _]. intros ?. apply Hnot, elem_of_app.
    by left. }
  split.
  { split; [|exact I]. apply H8, elem_of_app. right. by left. }
  split; rewrite ?Hp1, ?Hp2, ?Hp3;
    change (preparing (Responder.Sent e :: rest)) with (preparing rest);
    change (sent (Responder.Sent e :: rest)) with (email_id e :: sent rest);
    [exact H1|exact H2|exact H3|exact H4| | | | |exact H9| | |].
  - by rewrite <- (assoc_L (++)).
  - rewrite <- Permutation_middle. apply NoDup_cons. split; [|done].
    intros Hin. by apply Hnew, H7.
  - intros i. rewrite <- Permutation_middle, elem_of_cons, !elem_of_app.
    rewrite list_elem_of_singleton.
    intros [->|Hi]; [by right|left; apply H7, elem_of_app; exact Hi].
  - intros i Hi. apply H8. by rewrite <- (assoc_L (++)) in Hi.
  - intros Hno i Hi.
    assert (Responder.Crashed ∉ Responder.Preparing e :: rest) as Hno'.
    { intros [?|?]%elem_of_cons; [done|]. apply Hno. by right. }
    specialize (H10 Hno' i Hi). revert H10.
    rewrite !elem_of_app, !elem_of_cons, ?elem_of_app. tauto.
  - intros _ Hall. by apply Forall_cons_1 in Hall as [? _].
  - intros [?|?]%elem_of_cons; [done|]. apply H12. by right.
Qed.

(** The second [async with] block of the loop. *)
Lemma done_inv emails s e rest acts :
  pool_inv emails s (Responder.Sent e :: rest) acts →
  ∃ s', mark_done (email_id e) s = (Ok (), s')
    ∧ order_ok emails acts [Responder.Done (email_id e)]
    ∧ pool_inv emails s' (Responder.AtPop :: rest)
        (acts ++ [Responder.Done (email_id e)]).
Proof.
  intros [H1 H2 H3 H4 H5 H6 H7 H8 H9 H10 H11 H12].
  change (preparing (Responder.Sent e :: rest)) with (preparing rest)
    in H5, H8, H10.
  change (sent (Responder.Sent e :: rest)) with (email_id e :: sent rest)
    in H6, H7, H10.
  set (i := email_id e) in *.
  assert (pops_of (acts ++ [Responder.Done i]) = pops_of acts) as Hp1
    by (rewrite pops_of_app; apply (right_id_L [] (++))).
  assert (sends_of (acts ++ [Responder.Done i]) = sends_of acts) as Hp2
    by (rewrite sends_of_app; apply (right_id_L [] (++))).
  assert (dones_of (acts ++ [Responder.Done i]) = dones_of acts ++ [i])
    as Hp3 by apply dones_of_app.
  assert (i ∉ dones_of acts) as Hnew.
  { rewrite <- Permutation_middle in H6.
    apply NoDup_cons in H6 as [Hnot _]. intros ?. apply Hnot, elem_of_app.
    by left. }
  destruct (mark_done_exact emails _ i s H1 H3)
    as (s2 & rel & Heq & Hinv2 & Hexact2 & Hkeys2 & Hperm & _ & Hrel).
  assert (list_to_set (dones_of acts) ∪ {[i]}
          = (list_to_set (dones_of acts ++ [i]) : gset string)) as Hdn.
  { rewrite list_to_set_app_L. cbn. by rewrite (right_id_L ∅ (∪)). }
  rewrite Hdn in Hinv2, Hexact2.
  assert (step (MarkDone i) s = (Ok [Marked i], s2)) as Hstep
    by (cbn [step]; by rewrite Heq).
  assert (fresh_inv (pops_of acts) s2) as Hfresh2.
  { rewrite <- (right_id_L [] (++) (pops_of acts)).
    apply (step_fresh emails _ (MarkDone i) s _ [Marked i] s2 H1 H3 H4);
      [|done].
    intros i' [->|[]%elem_of_nil]%elem_of_cons.
    by rewrite elem_of_list_to_set. }
  exists s2. split; [done|]. split.
  { split; [|exact I]. apply H7, elem_of_app. right. by left. }
  split; rewrite ?Hp1, ?Hp2, ?Hp3;
    change (preparing (Responder.AtPop :: rest)) with (preparing rest);
    change (sent (Responder.AtPop :: rest)) with (sent rest);
    [exact Hinv2|by apply Hkeys2|exact Hexact2|exact Hfresh2|exact H5| |
    |exact H8| | | |].
  - by rewrite <- (assoc_L (++)).
  - intros i' Hi. apply H7. by rewrite <- (assoc_L (++)) in Hi.
  - intros c Hc. rewrite Hperm, fmap_app, <- (assoc_L (++)).
    rewrite Hexact2, lookup_fmap in Hc.
    rewrite (inv_emails _ _ _ Hinv2), <- (inv_emails _ _ _ H1) in Hc.
    destruct (_emails s !! c) as [e'|] eqn:He'; [|done].
    cbn in Hc. injection Hc as Hc. rewrite <- Hdn in Hc.
    assert (∀ x, x ∈ dependencies e' → x ∈ dones_of acts ∨ x = i) as Hall.
    { intros x Hx. destruct (decide (x ∈ dones_of acts)); [by left|right].
      destruct (decide (x = i)) as [|Hne]; [done|]. exfalso.
      apply (not_elem_of_empty (C:=gset string) x). rewrite <- Hc.
      rewrite elem_of_difference, elem_of_union, !elem_of_list_to_set.
      rewrite elem_of_singleton. tauto. }
    destruct (decide (Forall (λ x, x ∈ dones_of acts) (dependencies e')))
      as [Hdone|Hnot].
    + assert (deps_map s !! c = Some ∅) as Hready.
      { rewrite H3, lookup_fmap, He'. cbn. f_equal. apply set_eq. intros x.
        rewrite elem_of_difference, !elem_of_list_to_set.
        split; [|by intros ?%not_elem_of_empty].
        intros [Hx Hnotin]. destruct Hnotin.
        by apply (proj1 (Forall_forall _ _) Hdone). }
      specialize (H9 c Hready). revert H9. rewrite !elem_of_app. tauto.
    + apply not_Forall_Exists in Hnot; [|apply _].
      apply Exists_exists in Hnot as (x & Hx & Hxnot).
      destruct (Hall x Hx) as [?| ->]; [done|].
      apply elem_of_app. right. apply elem_of_app. left.
      apply (list_elem_of_fmap_2 snd rel (deadline_ns e', c)).
      apply Hrel. exists e'. do 3 (split; [done|]).
      intros y [Hy Hynot]%elem_of_difference.
      apply elem_of_list_to_set in Hy. apply elem_of_singleton.
      destruct (Hall y Hy) as [Hin|]; [|done].
      destruct Hynot. by apply elem_of_list_to_set.
  - intros Hno i' Hi.
    assert (Responder.Crashed ∉ Responder.Sent e :: rest) as Hno'.
    { intros [?|?]%elem_of_cons; [done|]. apply Hno. by right. }
    specialize (H10 Hno' i' Hi). revert H10.
    rewrite !elem_of_app, !elem_of_cons, ?elem_of_app. tauto.
  - intros _ Hall. by apply Forall_cons_1 in Hall as [? _].
  - intros [?|?]%elem_of_cons; [done|]. apply H12. by right.
Qed.

(** One resumption of a task keeps the invariant; when its awaits complete
    it does not end by an exception. *)
Lemma process_loop_inv emails ok t s rest acts :
  pool_inv emails s (t :: rest) acts →
  ∃ t' s' acts1,
    Responder._process_loop ok t s = (t', s', acts1)
    ∧ (ok = true → t ≠ Responder.Crashed → t' ≠ Responder.Crashed)
    ∧ order_ok emails acts acts1
    ∧ pool_inv emails s' (t' :: rest) (acts ++ acts1).
Proof.
  intros Hinv.
  assert (∀ t', t' = t →
            ∃ t'' s' acts1, (t', s, @nil Responder.action) = (t'', s', acts1)
              ∧ (ok = true → t ≠ Responder.Crashed → t'' ≠ Responder.Crashed)
              ∧ order_ok emails acts acts1
              ∧ pool_inv emails s' (t'' :: rest) (acts ++ acts1)) as Hsame.
  { intros t' ->. exists t, s, []. rewrite (right_id_L [] (++)).
    split; [done|]. split; [done|]. split; [exact I|done]. }
  assert (t ≠ Responder.Returned → t ≠ Responder.Crashed →
            ∃ t'' s' acts1,
              (Responder.Crashed, s, @nil Responder.action) = (t'', s', acts1)
              ∧ (false = true → t ≠ Responder.Crashed
                 → t'' ≠ Responder.Crashed)
              ∧ order_ok emails acts acts1
              ∧ pool_inv emails s' (t'' :: rest) (acts ++ acts1)) as Hcrash.
  { intros _ _. exists Responder.Crashed, s, [].
    rewrite (right_id_L [] (++)).
    split; [done|]. split; [done|]. split; [exact I|].
    by apply (crash_inv emails s t). }
  destruct t as [| |e|e| |], ok; cbn [Responder._process_loop];
    try (by apply Hsame); try (by apply Hcrash).
  - destruct (pop_inv emails s rest acts Hinv)
      as (t' & s' & acts1 & Heq & Hne & Hord & Hinv').
    cbn [Responder._process_loop] in Heq. rewrite Heq.
    exists t', s', acts1. split; [done|]. split; [by intros|]. by split.
  - destruct (pi_idle _ _ _ _ Hinv). by left.
  - destruct (send_inv emails s e rest acts Hinv) as [Hord Hinv'].
    exists (Responder.Sent e), s, [Responder.Send e].
    split; [done|]. split; [by intros|]. by split.
  - destruct (done_inv emails s e rest acts Hinv)
      as (s' & -> & Hord & Hinv').
    exists Responder.AtPop, s', [Responder.Done (email_id e)].
    split; [done|]. split; [by intros|]. by split.
Qed.

Lemma turn_inv emails i ok p acts :
  pool_inv emails (Responder._scheduler p) (Responder.tasks p) acts →
  ∃ p' acts1, Responder.turn i ok p = (p', acts1)
    ∧ order_ok emails acts acts1
    ∧ pool_inv emails (Responder._scheduler p') (Responder.tasks p')
        (acts ++ acts1)
    ∧ length (Responder.tasks p') = length (Responder.tasks p)
    ∧ (ok = true → Responder.Crashed ∉ Responder.tasks p →
       Responder.Crashed ∉ Responder.tasks p').
Proof.
  intros Hinv. unfold Responder.turn.
  destruct (Responder.tasks p !! i) as [t|] eqn:Hi.
  2:{ exists p, []. rewrite (right_id_L [] (++)).
      split; [done|]. split; [exact I|]. split; [done|]. by split. }
  destruct (insert_perm (Responder.tasks p) i t) with (y := t)
    as (rest & Hperm & _); [done|].
  apply (pool_inv_perm _ _ _ _ _ Hperm) in Hinv.
  destruct (process_loop_inv emails ok t _ rest acts Hinv)
    as (t' & s' & acts1 & -> & Hne & Hord & Hinv').
  destruct (insert_perm (Responder.tasks p) i t t' Hi)
    as (rest' & Hperm1 & Hperm2).
  assert (rest ≡ₚ rest') as Hrest.
  { apply (Permutation_cons_inv (a:=t)). by rewrite <- Hperm, <- Hperm1. }
  eexists _, acts1. split; [reflexivity|]. cbn.
  split; [done|]. split.
  { apply (pool_inv_perm _ _ (t' :: rest)); [|done].
    by rewrite Hperm2, Hrest. }
  split; [by rewrite length_insert|].
  intros Hok Hno. rewrite Hperm2, not_elem_of_cons. split.
  - apply not_eq_sym, Hne; [done|]. intros ->. apply Hno. rewrite Hperm.
    by left.
  - intros Hin. apply Hno. rewrite Hperm1. by right.
Qed.

Lemma order_ok_app emails a1 : ∀ before a2,
  order_ok emails before a1 →
  order_ok emails (before ++ a1) a2 →
  order_ok emails before (a1 ++ a2).
Proof.
  induction a1 as [|a a1 IH]; intros before a2 H1 H2.
  { by rewrite (right_id_L [] (++)) in H2. }
  destruct H1 as [Ha H1]. split; [done|]. apply IH; [done|].
  by rewrite <- (assoc_L (++)).
Qed.

(** Every schedule keeps the invariant. *)
Lemma play_inv emails schedule : ∀ p acts,
  pool_inv emails (Responder._scheduler p) (Responder.tasks p) acts →
  ∃ p' acts1, Responder.play schedule p = (p', acts1)
    ∧ order_ok emails acts acts1
    ∧ pool_inv emails (Responder._scheduler p') (Responder.tasks p')
        (acts ++ acts1)
    ∧ length (Responder.tasks p') = length (Responder.tasks p)
    ∧ (Forall (λ x, x.2 = true) schedule →
       Responder.Crashed ∉ Responder.tasks p →
       Responder.Crashed ∉ Responder.tasks p').
Proof.
  induction schedule as [|[i ok] schedule IH]; intros p acts Hinv.
  { exists p, []. rewrite (right_id_L [] (++)).
    split; [done|]. split; [exact I|]. split; [done|]. by split. }
  cbn [Responder.play].
  destruct (turn_inv emails i ok p acts Hinv)
    as (p1 & acts1 & -> & Hord1 & Hinv1 & Hlen1 & Hno1).
  destruct (IH p1 _ Hinv1) as (p2 & acts2 & -> & Hord2 & Hinv2 & Hlen2 & Hno2).
  exists p2, (acts1 ++ acts2). split; [done|].
  split; [by apply order_ok_app|].
  split; [by rewrite (assoc_L (++))|]. split; [congruence|].
  intros [Hok Hall]%Forall_cons_1 Hno. by apply Hno2, Hno1.
Qed.

Lemma preparing_replicate n : preparing (replicate n Responder.AtPop) = [].
Proof. induction n as [|n IH]; [done|exact IH]. Qed.

Lemma sent_replicate n : sent (replicate n Responder.AtPop) = [].
Proof. induction n as [|n IH]; [done|exact IH]. Qed.

(** The pool [run] starts keeps the invariant. *)
Lemma run_inv emails settings workers s :
  NoDup (ids emails) → init emails = Ok s →
  pool_inv emails s (Responder.tasks (Responder.run settings workers s)) [].
Proof.
  intros Hnd Hinit.
  destruct (init_exact emails s Hnd Hinit) as (Hinv & Hkeys & Hexact & Hq).
  pose proof (init_inv _ _ Hinit) as (_ & Hdm & _ & Hin).
  unfold Responder.run. cbn [Responder.tasks].
  split; cbn [pops_of sends_of dones_of omap list_omap app list_to_set
              foldr]; rewrite ?preparing_replicate, ?sent_replicate;
    try done.
  - split; [|by intros i ?%elem_of_nil]. rewrite (right_id_L [] (++)), Hq.
    rewrite <- list_fmap_compose.
    apply (sublist_NoDup _ (ids emails)); [done|].
    apply fmap_sublist, sublist_filter.
  - constructor.
  - constructor.
  - intros i Hi. rewrite (right_id_L [] (++)).
    rewrite Hdm in Hi. pose proof Hi as Hi'.
    rewrite build_deps_map_emails, lookup_fmap in Hi'.
    destruct (build_emails emails !! i) as [e|] eqn:He; [|done].
    apply build_emails_lookup in He as [He <-].
    apply (list_elem_of_fmap_2 snd _ (deadline_ns e, email_id e)).
    apply Hin. by exists e.
  - intros Hne Hall. destruct (Z.to_nat _) as [|n]; [done|].
    by apply Forall_cons_1 in Hall as [? _].
  - by intros [? _]%elem_of_replicate.
Qed.

End pool_facts.

Section pool_graph.

Lemma tc_bypass {A} (R : relation A) (x : A) a b :
  tc (λ a b, R a b ∨ (R a x ∧ R x b)) a b → tc R a b.
Proof.
  induction 1 as [a b [Hab|[Hax Hxb]]|a b c [Hab|[Hax Hxb]] _ IH].
  - by apply tc_once.
  - eapply tc_l; [exact Hax|]. by apply tc_once.
  - by eapply tc_l.
  - eapply tc_l; [exact Hax|]. by eapply tc_l.
Qed.

(** In a finite non-empty set whose every member has a successor in the
    set, some member reaches itself. *)
Lemma no_sink_cyclic (n : nat) : ∀ (R : relation string) (U : gset string),
  size U = n → U ≠ ∅ →
  (∀ x, x ∈ U → ∃ y, y ∈ U ∧ R x y) →
  cyclic R.
Proof.
  induction n as [|n IH]; intros R U Hsize Hne Hsucc.
  { by apply size_empty_inv, leibniz_equiv in Hsize. }
  apply set_choose_L in Hne as [x Hx].
  destruct (Hsucc x Hx) as (y & Hy & Hxy).
  destruct (decide (y = x)) as [->|Hyx]; [exists x; by apply tc_once|].
  destruct (IH (λ a b, R a b ∨ (R a x ∧ R x b)) (U ∖ {[x]})) as [z Hz].
  - rewrite size_difference by (by apply singleton_subseteq_l).
    rewrite size_singleton. lia.
  - intros Hempty. apply (not_elem_of_empty (C:=gset string) y).
    rewrite <- Hempty. apply elem_of_difference. split; [done|].
    by rewrite elem_of_singleton.
  - intros a [Ha Hax]%elem_of_difference.
    rewrite elem_of_singleton in Hax.
    destruct (Hsucc a Ha) as (b & Hb & Hab).
    destruct (decide (b = x)) as [->|Hbx].
    + exists y. split; [|by right].
      apply elem_of_difference. by rewrite elem_of_singleton.
    + exists b. split; [|by left].
      apply elem_of_difference. by rewrite elem_of_singleton.
  - exists z. by apply (tc_bypass R x).
Qed.

End pool_graph.

Section pool_extras.
Import Models Scheduler.

Lemma order_ok_split emails pre a post : ∀ before,
  order_ok emails before (pre ++ a :: post) →
  match a with
  | Responder.Pop e =>
      e ∈ emails
      ∧ ∀ x, x ∈ dependencies e →
          x ∈ sends_of (before ++ pre) ∧ x ∈ dones_of (before ++ pre)
  | Responder.Send e => email_id e ∈ pops_of (before ++ pre)
  | Responder.Done i => i ∈ sends_of (before ++ pre)
  end.
Proof.
  induction pre as [|b pre IH]; intros before Hord.
  { rewrite (right_id_L [] (++)). by destruct Hord as [? _]. }
  destruct Hord as [_ Hord]. specialize (IH _ Hord).
  by rewrite <- (assoc_L (++)) in IH.
Qed.

(** The pool after any schedule. *)
Lemma pool_spec emails s settings workers schedule :
  NoDup (ids emails) → init emails = Ok s →
  let r := Responder.play schedule (Responder.run settings workers s) in
  order_ok emails [] r.2
  ∧ pool_inv emails (Responder._scheduler r.1) (Responder.tasks r.1) r.2
  ∧ length (Responder.tasks r.1)
    = Z.to_nat (default (Config.concurrency_limit settings) workers)
  ∧ (Forall (λ x, x.2 = true) schedule →
     Responder.Crashed ∉ Responder.tasks r.1).
Proof.
  intros Hnd Hinit r.
  destruct (play_inv emails schedule (Responder.run settings workers s) [])
    as (p & acts & Hplay & Hord & Hinv & Hlen & Hno);
    [by apply run_inv|].
  subst r. rewrite Hplay. cbn [fst snd]. cbn [app] in Hinv.
  split; [done|]. split; [done|]. split.
  - rewrite Hlen. unfold Responder.run. cbn. by rewrite length_replicate.
  - intros Hall. apply Hno; [done|].
    unfold Responder.run. cbn. by intros [? _]%elem_of_replicate.
Qed.

Lemma sched_ABC_init : init [email_A; email_B; email_C] = Ok sched_ABC.
Proof. vm_compute. reflexivity. Qed.

(** X14. From a batch with unique ids, however the event loop interleaves
    the tasks and whichever of them fail: an item is popped only after each
    of its declared dependencies has been sent and then marked done, an item
    is sent only after it was popped, and an id is marked done only after
    its item was sent. *)
Theorem pool_respects_dependencies (emails : list EmailInternal)
    (s : DependencyScheduler) (settings : Config.Settings)
    (workers : option Z) (schedule : list (nat * bool))
    (pre post : list Responder.action) (a : Responder.action) :
  NoDup (ids emails) →
  init emails = Ok s →
  (Responder.play schedule (Responder.run settings workers s)).2
  = pre ++ a :: post →
  match a with
  | Responder.Pop e =>
      e ∈ emails
      ∧ ∀ x, x ∈ dependencies e → x ∈ sends_of pre ∧ x ∈ dones_of pre
  | Responder.Send e => email_id e ∈ pops_of pre
  | Responder.Done i => i ∈ sends_of pre
  end.
Proof.
  intros Hnd Hinit Hacts.
  destruct (pool_spec emails s settings workers schedule Hnd Hinit)
    as (Hord & _).
  rewrite Hacts in Hord. exact (order_ok_split emails pre a post [] Hord).
Qed.

Lemma pool_respects_dependencies_witness :
  email_C ∈ [email_A; email_B; email_C]
  ∧ ∀ x, x ∈ dependencies email_C →
      x ∈ sends_of [Responder.Pop email_A; Responder.Send email_A;
                    Responder.Done "A"]
      ∧ x ∈ dones_of [Responder.Pop email_A; Responder.Send email_A;
                      Responder.Done "A"].
Proof.
  apply (pool_respects_dependencies [email_A; email_B; email_C] sched_ABC
           Config.defaults (Some 2)
           [(0%nat, true); (0%nat, true); (0%nat, true); (1%nat, true)]
           [Responder.Pop email_A; Responder.Send email_A;
            Responder.Done "A"]
           [] (Responder.Pop email_C)).
  - apply (bool_decide_unpack _). vm_compute. exact I.
  - vm_compute. reflexivity.
  - vm_compute. reflexivity.
Defined.

(** X15. From a batch with unique ids, however the event loop interleaves
    the tasks and whichever of them fail, no item is popped, sent or marked
    done twice. *)
Theorem pool_sends_at_most_once (emails : list EmailInternal)
    (s : DependencyScheduler) (settings : Config.Settings)
    (workers : option Z) (schedule : list (nat * bool)) :
  NoDup (ids emails) →
  init emails = Ok s →
  let acts :=
    (Responder.play schedule (Responder.run settings workers s)).2 in
  NoDup (pops_of acts) ∧ NoDup (sends_of acts) ∧ NoDup (dones_of acts).
Proof.
  intros Hnd Hinit acts.
  destruct (pool_spec emails s settings workers schedule Hnd Hinit)
    as (_ & Hinv & _).
  fold acts in Hinv. split; [|split].
  - destruct (pi_fresh _ _ _ _ Hinv) as [Hfresh _].
    by apply NoDup_app in Hfresh as (_ & _ & ?).
  - pose proof (pi_sends _ _ _ _ Hinv) as H.
    by apply NoDup_app in H as (? & _).
  - pose proof (pi_dones _ _ _ _ Hinv) as H.
    by apply NoDup_app in H as (? & _).
Qed.

Lemma pool_sends_at_most_once_witness :
  let acts :=
    (Responder.play
       [(0%nat, true); (1%nat, true); (0%nat, true); (0%nat, false);
        (1%nat, true)]
       (Responder.run Config.defaults (Some 2) sched_ABC)).2 in
  NoDup (pops_of acts) ∧ NoDup (sends_of acts) ∧ NoDup (dones_of acts).
Proof.
  apply (pool_sends_at_most_once [email_A; email_B; email_C]).
  - apply (bool_decide_unpack _). vm_compute. exact I.
  - vm_compute. reflexivity.
Defined.



Lemma completed_all p :
  Responder.completed p = true →
  Forall (λ t, t = Responder.Returned) (Responder.tasks p).
Proof.
  unfold Responder.completed.
  induction (Responder.tasks p) as [|t ts IH]; [constructor|].
  cbn. destruct t; try done. intros H. constructor; [done|by apply IH].
Qed.

Lemma all_returned ts :
  Forall (λ t, t = Responder.Returned) ts →
  preparing ts = [] ∧ sent ts = [] ∧ Responder.Crashed ∉ ts.
Proof.
  induction 1 as [|t ts -> _ (IH1 & IH2 & IH3)].
  { do 2 (split; [done|]). by intros ?%elem_of_nil. }
  do 2 (split; [done|]). by intros [?|?]%elem_of_cons.
Qed.

(** X17. From a batch with unique ids whose declared dependencies are all
    ids of the batch, run by at least one task: when every task has
    returned, every item of the batch has been popped, sent and marked done
    exactly once. *)
Theorem pool_completes_batch (emails : list EmailInternal)
    (s : DependencyScheduler) (settings : Config.Settings)
    (workers : option Z) (schedule : list (nat * bool)) :
  NoDup (ids emails) →
  closed emails →
  init emails = Ok s →
  1 ≤ default (Config.concurrency_limit settings) workers →
  let r := Responder.play schedule (Responder.run settings workers s) in
  Responder.completed r.1 = true →
  pops_of r.2 ≡ₚ ids emails
  ∧ sends_of r.2 ≡ₚ ids emails
  ∧ dones_of r.2 ≡ₚ ids emails.
Proof.
  intros Hnd Hclosed Hinit Hworkers r Hcompleted.
  destruct (pool_spec emails s settings workers schedule Hnd Hinit)
    as (_ & Hinv & Hlen & _).
  fold r in Hinv, Hlen. apply completed_all in Hcompleted.
  destruct (all_returned _ Hcompleted) as (Hprep & Hsent & Hno).
  destruct Hinv as [H1 H2 H3 H4 H5 H6 H7 H8 H9 H10 H11 H12].
  rewrite Hprep, ?Hsent, ?(right_id_L [] (++)) in *.
  assert (_queue (Responder._scheduler r.1) = []) as Hq.
  { apply H11; [|done]. intros Hnil. rewrite Hnil in Hlen. cbn in Hlen. lia. }
  rewrite Hq in H9. cbn in H9.
  specialize (H10 Hno).
  destruct H4 as [Hndpops Hempty]. rewrite Hq in Hndpops. cbn in Hndpops.
  assert (∀ i, i ∈ pops_of r.2 → i ∈ ids emails) as Hin.
  { intros i Hi. specialize (Hempty i Hi).
    rewrite H3, lookup_fmap in Hempty.
    destruct (_emails _ !! i) as [e|] eqn:He; [|done].
    rewrite (inv_emails _ _ _ H1) in He.
    apply build_emails_lookup in He as [He <-].
    by apply (list_elem_of_fmap_2 email_id). }
  assert (∀ i, i ∈ ids emails → i ∈ pops_of r.2) as Hall.
  { set (U := filter (λ i, i ∉ pops_of r.2)
                (list_to_set (ids emails) : gset string)).
    destruct (decide (U = ∅)) as [HU|HU].
    { intros i Hi. destruct (decide (i ∈ pops_of r.2)) as [|Hnot]; [done|].
      exfalso. apply (not_elem_of_empty (C:=gset string) i). rewrite <- HU.
      apply elem_of_filter. split; [done|]. by apply elem_of_list_to_set. }
    exfalso.
    destruct (init_spec emails Hnd) as [[Hacyclic _]|[_ Hraise]];
      [|congruence].
    apply Hacyclic, (no_sink_cyclic (size U) _ U); [done|done|].
    intros x [Hx Hxin]%elem_of_filter. apply elem_of_list_to_set in Hxin.
    apply list_elem_of_fmap in Hxin as (e & -> & He).
    assert (deps_map (Responder._scheduler r.1) !! email_id e
            = Some (list_to_set (dependencies e)
                    ∖ list_to_set (dones_of r.2))) as Hdeps.
    { rewrite H3, lookup_fmap, (inv_emails _ _ _ H1).
      by rewrite (build_emails_unique emails e Hnd He). }
    destruct (decide (Forall (λ y, y ∈ dones_of r.2) (dependencies e)))
      as [Hdone|Hnot].
    - destruct Hx. apply H9. rewrite Hdeps. f_equal. apply set_eq. intros y.
      rewrite elem_of_difference, !elem_of_list_to_set.
      split; [|by intros ?%not_elem_of_empty].
      intros [Hy Hnotin]. destruct Hnotin.
      by apply (proj1 (Forall_forall _ _) Hdone).
    - apply not_Forall_Exists in Hnot; [|apply _].
      apply Exists_exists in Hnot as (y & Hy & Hynot).
      exists y. split; [|by exists e].
      apply elem_of_filter. split.
      + intros Hpop. apply Hynot. by apply H10.
      + apply elem_of_list_to_set. by apply (Hclosed e). }
  assert (pops_of r.2 ≡ₚ ids emails) as Hpops.
  { apply NoDup_Permutation; [done|done|].
    intros i. split; [apply Hin|apply Hall]. }
  assert (∀ i, i ∈ pops_of r.2 ↔ i ∈ sends_of r.2) as Hsends.
  { intros i. split; [intros Hi; by apply H7, H10|apply H8]. }
  assert (∀ i, i ∈ pops_of r.2 ↔ i ∈ dones_of r.2) as Hdones.
  { intros i. split; [apply H10|intros Hi; by apply H8, H7]. }
  split; [done|]. split.
  - rewrite <- Hpops. apply NoDup_Permutation; [done|done|].
    intros i. by rewrite Hsends.
  - rewrite <- Hpops. apply NoDup_Permutation; [done|done|].
    intros i. by rewrite Hdones.
Qed.

Lemma pool_completes_batch_witness :
  let r :=
    Responder.play (replicate 10 (0%nat, true))
      (Responder.run Config.defaults (Some 1) sched_ABC) in
  pops_of r.2 ≡ₚ ids [email_A; email_B; email_C]
  ∧ sends_of r.2 ≡ₚ ids [email_A; email_B; email_C]
  ∧ dones_of r.2 ≡ₚ ids [email_A; email_B; email_C].
Proof.
  apply (pool_completes_batch [email_A; email_B; email_C]).
  - apply (bool_decide_unpack _). vm_compute. exact I.
  - intros e x He Hx. apply (bool_decide_unpack _).
    repeat (apply elem_of_cons in He as [->|He];
            [repeat (apply elem_of_cons in Hx as [->|Hx];
                     [vm_compute; exact I|]);
             by apply elem_of_nil in Hx|]).
    by apply elem_of_nil in He.
  - vm_compute. reflexivity.
  - cbn. lia.
  - vm_compute. reflexivity.
Defined.

End pool_extras.

(** ** The validator of the dependencies *)

Section str_facts.
Import Str.

Lemma whitespace_nonempty w : w ∈ whitespace → w ≠ [].
Proof.
  revert w. apply Forall_forall.
  apply (bool_decide_unpack _). vm_compute. exact I.
Qed.

Lemma find_prefix_Some (s w : list ascii) :
  find (λ w, bool_decide (w `prefix_of` s)) whitespace = Some w →
  w ∈ whitespace ∧ w `prefix_of` s.
Proof.
  intros [Hin Hp]%find_some. split; [by apply list_elem_of_In|].
  by apply bool_decide_eq_true in Hp.
Qed.

Lemma find_prefix_None (s : list ascii) :
  find (λ w, bool_decide (w `prefix_of` s)) whitespace = None ↔
  ∀ w, w ∈ whitespace → ¬ w `prefix_of` s.
Proof.
  split.
  - intros Hnone w Hw Hp.
    pose proof (find_none _ _ Hnone w (proj1 (list_elem_of_In _ _) Hw)) as H.
    cbn in H. by apply bool_decide_eq_false in H.
  - intros Hno. destruct (find _ _) as [w|] eqn:Hfind; [|done].
    apply find_prefix_Some in Hfind as [Hw Hp]. by destruct (Hno w Hw).
Qed.

Lemma find_suffix_Some (s w : list ascii) :
  find (λ w, bool_decide (w `suffix_of` s)) whitespace = Some w →
  w ∈ whitespace ∧ w `suffix_of` s.
Proof.
  intros [Hin Hp]%find_some. split; [by apply list_elem_of_In|].
  by apply bool_decide_eq_true in Hp.
Qed.

Lemma find_suffix_None (s : list ascii) :
  find (λ w, bool_decide (w `suffix_of` s)) whitespace = None ↔
  ∀ w, w ∈ whitespace → ¬ w `suffix_of` s.
Proof.
  split.
  - intros Hnone w Hw Hp.
    pose proof (find_none _ _ Hnone w (proj1 (list_elem_of_In _ _) Hw)) as H.
    cbn in H. by apply bool_decide_eq_false in H.
  - intros Hno. destruct (find _ _) as [w|] eqn:Hfind; [|done].
    apply find_suffix_Some in Hfind as [Hw Hp]. by destruct (Hno w Hw).
Qed.

(** [lstrip] takes a prefix off and leaves no whitespace in front. *)
Lemma lstrip_loop_spec fuel : ∀ s,
  (length s ≤ fuel)%nat →
  lstrip_loop fuel s `suffix_of` s
  ∧ ∀ w, w ∈ whitespace → ¬ w `prefix_of` lstrip_loop fuel s.
Proof.
  induction fuel as [|fuel IH]; intros s Hlen.
  { destruct s; [|cbn in Hlen; lia]. split; [done|].
    intros w Hw [k Hk]. symmetry in Hk. apply app_eq_nil in Hk as [-> _].
    by apply whitespace_nonempty in Hw. }
  cbn [lstrip_loop].
  destruct (find _ _) as [w|] eqn:Hfind.
  - apply find_prefix_Some in Hfind as [Hw [k ->]].
    rewrite drop_app_length.
    pose proof (whitespace_nonempty w Hw) as Hne.
    destruct (IH k) as [Hsuf Hno].
    { rewrite length_app in Hlen. destruct w; [done|]. cbn in Hlen. lia. }
    split; [|done]. etrans; [exact Hsuf|]. by apply suffix_app_r.
  - split; [done|]. by apply find_prefix_None.
Qed.

Lemma rstrip_loop_spec fuel : ∀ s,
  (length s ≤ fuel)%nat →
  rstrip_loop fuel s `prefix_of` s
  ∧ ∀ w, w ∈ whitespace → ¬ w `suffix_of` rstrip_loop fuel s.
Proof.
  induction fuel as [|fuel IH]; intros s Hlen.
  { destruct s; [|cbn in Hlen; lia]. split; [done|].
    intros w Hw [k Hk]. symmetry in Hk. apply app_eq_nil in Hk as [_ ->].
    by apply whitespace_nonempty in Hw. }
  cbn [rstrip_loop].
  destruct (find _ _) as [w|] eqn:Hfind.
  - apply find_suffix_Some in Hfind as [Hw [k ->]].
    rewrite length_app, Nat.add_sub, take_app_length.
    pose proof (whitespace_nonempty w Hw) as Hne.
    destruct (IH k) as [Hpre Hno].
    { rewrite length_app in Hlen. destruct w; [done|]. cbn in Hlen. lia. }
    split; [|done]. etrans; [exact Hpre|]. by apply prefix_app_r.
  - split; [done|]. by apply find_suffix_None.
Qed.

(** What [strip] returns is a part of the string with no whitespace at
    either end. *)
Lemma strip_spec s :
  trimmed (strip s) ∧ ∀ c, c ∈ strip s → c ∈ s.
Proof.
  unfold strip, rstrip, lstrip.
  destruct (lstrip_loop_spec (length s) s) as [Hsuf Hnopre]; [done|].
  set (y := lstrip_loop (length s) s) in *.
  destruct (rstrip_loop_spec (length y) y) as [Hpre Hnosuf]; [done|].
  split.
  - intros w Hw. split; [|by apply Hnosuf].
    intros Hp. apply (Hnopre w Hw). by etrans.
  - intros c Hc. destruct Hpre as [k1 Hk1], Hsuf as [k2 Hk2].
    rewrite Hk2, Hk1, !elem_of_app. tauto.
Qed.

(** A string with no whitespace at its ends is left as it is. *)
Lemma strip_trimmed s : trimmed s → strip s = s.
Proof.
  intros Htrim. unfold strip, rstrip, lstrip.
  assert (∀ fuel, lstrip_loop fuel s = s) as ->.
  { intros [|fuel]; [done|]. cbn [lstrip_loop].
    rewrite (proj2 (find_prefix_None s)); [done|].
    intros w Hw. by apply Htrim. }
  destruct (length s) as [|fuel]; [done|]. cbn [rstrip_loop].
  rewrite (proj2 (find_suffix_None s)); [done|].
  intros w Hw. by apply Htrim.
Qed.

(** No piece of [split] holds the separator. *)
Lemma split_no_sep sep s : Forall (λ piece, sep ∉ piece) (split sep s).
Proof.
  induction s as [|c s IH]; cbn.
  { constructor; [by intros ?%elem_of_nil|constructor]. }
  destruct (decide (c = sep)) as [->|Hne].
  { constructor; [by intros ?%elem_of_nil|done]. }
  destruct (split sep s) as [|piece pieces].
  { constructor; [|constructor].
    intros [?|?%elem_of_nil]%elem_of_cons; [done|done]. }
  apply Forall_cons_1 in IH as [Hp Hps]. constructor; [|done].
  by intros [?|?]%elem_of_cons.
Qed.

Lemma whitespace_comma_space w :
  w ∈ whitespace →
  (("," : ascii) ∉ w) ∧ ((" " : ascii) ∈ w → w = [" "%char]).
Proof.
  revert w. apply Forall_forall.
  apply (bool_decide_unpack _). vm_compute. exact I.
Qed.

Lemma prefix_app_cases {A} (w d x : list A) :
  w `prefix_of` d ++ x →
  w `prefix_of` d ∨ ∃ r, r ≠ [] ∧ w = d ++ r ∧ r `prefix_of` x.
Proof.
  revert w. induction d as [|a d IH]; intros w Hp.
  { destruct w as [|b w]; [left; by exists []|right].
    exists (b :: w). by split. }
  destruct w as [|b w]; [left; apply prefix_nil|].
  cbn in Hp. pose proof (prefix_cons_inv_1 _ _ _ _ Hp) as ->.
  apply prefix_cons_inv_2 in Hp.
  destruct (IH w Hp) as [Hw|(r & Hr & -> & Hrx)].
  - left. by apply prefix_cons.
  - right. exists r. by split.
Qed.

Lemma lstrip_loop_trimmed fuel s :
  (∀ w, w ∈ whitespace → ¬ w `prefix_of` s) → lstrip_loop fuel s = s.
Proof.
  intros Hno. destruct fuel as [|fuel]; [done|]. cbn [lstrip_loop].
  by rewrite (proj2 (find_prefix_None s)).
Qed.

(** Spaces in front of a string that starts with no whitespace. *)
Lemma lstrip_spaces n : ∀ fuel s,
  (n ≤ fuel)%nat →
  (∀ w, w ∈ whitespace → ¬ w `prefix_of` s) →
  lstrip_loop fuel (replicate n " "%char ++ s) = s.
Proof.
  induction n as [|n IH]; intros fuel s Hfuel Hno.
  { by apply lstrip_loop_trimmed. }
  destruct fuel as [|fuel]; [lia|]. cbn [lstrip_loop replicate app].
  destruct (find _ _) as [w|] eqn:Hfind.
  - apply find_prefix_Some in Hfind as [Hw Hp].
    destruct (whitespace_comma_space w Hw) as [_ Hspace].
    assert (w = [" "%char]) as ->.
    { apply Hspace. destruct w as [|c w]; [by apply whitespace_nonempty in Hw|].
      apply prefix_cons_inv_1 in Hp as ->. by left. }
    cbn [length drop]. rewrite drop_0. apply IH; [lia|done].
  - pose proof (proj1 (find_prefix_None _) Hfind) as Hnone.
    destruct (Hnone [" "%char]).
    + apply (bool_decide_unpack _). vm_compute. exact I.
    + by apply prefix_cons, prefix_nil.
Qed.

Lemma split_no_sep_id sep s : sep ∉ s → split sep s = [s].
Proof.
  induction s as [|c s IH]; [done|]. intros [Hc Hs]%not_elem_of_cons.
  cbn. rewrite decide_False by done. by rewrite IH.
Qed.

Lemma split_app_sep sep s rest :
  sep ∉ s → split sep (s ++ sep :: rest) = s :: split sep rest.
Proof.
  induction s as [|c s IH]; intros Hs.
  { cbn. by rewrite decide_True. }
  apply not_elem_of_cons in Hs as [Hc Hs].
  cbn. rewrite decide_False by done. by rewrite IH.
Qed.

Lemma join_cons sep d d' ds :
  join sep (d :: d' :: ds) = d ++ sep ++ join sep (d' :: ds).
Proof. done. Qed.

Lemma split_join_pad sep pad ds : ∀ d,
  sep ∉ pad → Forall (λ d, sep ∉ d) (d :: ds) →
  split sep (pad ++ join (sep :: pad) (d :: ds)) = (pad ++.) <$> (d :: ds).
Proof.
  induction ds as [|d' ds IH]; intros d Hpad Hall.
  { apply Forall_cons_1 in Hall as [Hd _]. cbn [join fmap list_fmap].
    apply split_no_sep_id. rewrite elem_of_app. tauto. }
  apply Forall_cons_1 in Hall as [Hd Hall].
  rewrite join_cons. cbn [app]. rewrite (assoc_L (++)), split_app_sep.
  - rewrite IH by done. done.
  - rewrite elem_of_app. tauto.
Qed.

Lemma split_join sep pad d ds :
  sep ∉ pad → Forall (λ d, sep ∉ d) (d :: ds) →
  split sep (join (sep :: pad) (d :: ds)) = d :: ((pad ++.) <$> ds).
Proof.
  intros Hpad Hall. destruct ds as [|d' ds].
  { apply Forall_cons_1 in Hall as [Hd _]. by apply split_no_sep_id. }
  apply Forall_cons_1 in Hall as [Hd Hall].
  rewrite join_cons. cbn [app]. rewrite split_app_sep by done.
  by rewrite split_join_pad.
Qed.

Lemma suffix_app_cases {A} (w x d : list A) :
  w `suffix_of` x ++ d →
  w `suffix_of` d ∨ ∃ r, r ≠ [] ∧ w = r ++ d ∧ r `suffix_of` x.
Proof.
  intros Hs. apply suffix_prefix_reverse in Hs. rewrite reverse_app in Hs.
  destruct (prefix_app_cases _ _ _ Hs) as [Hp|(r & Hr & Hw & Hp)].
  - left. by apply suffix_prefix_reverse.
  - right. exists (reverse r). split; [|split].
    + intros Hnil. apply Hr. by rewrite <- (reverse_involutive r), Hnil.
    + by rewrite <- (reverse_involutive w), Hw, reverse_app,
        reverse_involutive.
    + apply suffix_prefix_reverse. by rewrite reverse_involutive.
Qed.

Lemma sep_last n :
  ∃ x c, ("," :: replicate n " ")%char = x ++ [c]
         ∧ (c = "," ∨ c = " ")%char.
Proof.
  destruct n as [|n].
  - exists [], ","%char. by split; [|left].
  - exists ("," :: replicate n " ")%char, " "%char. split; [|by right].
    by rewrite replicate_S_end.
Qed.

(** Ids joined by a comma and spaces: the whole has no whitespace at its
    ends. *)
Lemma join_trimmed n ds : ∀ d,
  Forall (λ d, d ≠ [] ∧ trimmed d) (d :: ds) →
  join ("," :: replicate n " ")%char (d :: ds) ≠ []
  ∧ trimmed (join ("," :: replicate n " ")%char (d :: ds)).
Proof.
  induction ds as [|d' ds IH]; intros d Hall.
  { by apply Forall_cons_1 in Hall as [Hd _]. }
  apply Forall_cons_1 in Hall as [[Hd Htrim] Hall].
  destruct (IH d' Hall) as [Hne IHtrim].
  rewrite join_cons.
  set (J := join _ (d' :: ds)) in *. clearbody J.
  split; [by destruct d|]. intros w Hw.
  destruct (whitespace_comma_space w Hw) as [Hcomma Hspace]. split.
  - intros [Hp|(r & Hr & -> & Hp)]%prefix_app_cases;
      [by apply (proj1 (Htrim w Hw))|].
    destruct r as [|c r]; [done|]. cbn in Hp.
    apply prefix_cons_inv_1 in Hp as ->.
    apply Hcomma, elem_of_app. right. by left.
  - rewrite (assoc_L (++)).
    intros [Hs|(r & Hr & -> & Hs)]%suffix_app_cases;
      [by apply (proj2 (IHtrim w Hw))|].
    destruct (sep_last n) as (x & c & Hx & Hc).
    cbn [app] in Hs. rewrite Hx, (assoc_L (++)) in Hs.
    destruct r as [|c' r _] using rev_ind; [done|].
    destruct Hs as [k Hk]. rewrite (assoc_L (++)) in Hk.
    apply app_inj_tail in Hk as [_ <-].
    destruct Hc as [->| ->].
    + apply Hcomma. rewrite !elem_of_app, list_elem_of_singleton. tauto.
    + assert (length ((r ++ [" "%char]) ++ J) = 1%nat) as Hlen.
      { rewrite Hspace; [done|].
        rewrite !elem_of_app, list_elem_of_singleton. tauto. }
      rewrite !length_app in Hlen. cbn in Hlen.
      destruct J; [done|]. cbn in Hlen. lia.
Qed.

Lemma clean_bytes z :
  z ≠ [] → (("," : ascii) ∉ z) → trimmed z →
  clean (String.string_of_list_ascii z).
Proof.
  intros Hne Hcomma Htrim. unfold clean.
  rewrite String.list_ascii_of_string_of_list_ascii.
  split; [|done]. by destruct z.
Qed.

(** X18. Given a string, [_parse_deps] returns a list of ids that are not
    empty, hold no comma and have no whitespace character at either end,
    whatever the string. *)
Theorem parse_deps_clean (A : Type) (v : string) :
  ∃ l, Validators._parse_deps (A:=A) (inl v) = inl l ∧ Forall clean l.
Proof.
  unfold Validators._parse_deps. cbv zeta.
  destruct (decide _) as [|_]; [by exists []|].
  eexists. split; [reflexivity|].
  apply Forall_fmap, Forall_forall. intros z Hz. cbn.
  apply list_elem_of_omap in Hz as (piece & Hpiece & Hz).
  destruct (decide (strip piece = [])) as [|Hne]; [done|].
  injection Hz as <-.
  destruct (strip_spec piece) as [Htrim Hsub].
  apply clean_bytes; [done| |done].
  intros Hcomma%Hsub. revert Hcomma.
  pose proof (split_no_sep "," (strip (String.list_ascii_of_string v)))
    as Hall.
  by apply (proj1 (Forall_forall _ _) Hall piece).
Qed.

Lemma strip_pad n d :
  trimmed d → strip (replicate n " "%char ++ d) = d.
Proof.
  intros Htrim. unfold strip, lstrip.
  rewrite lstrip_spaces.
  - unfold rstrip. destruct (length d) as [|fuel]; [done|].
    cbn [rstrip_loop]. rewrite (proj2 (find_suffix_None d)); [done|].
    intros w Hw. by apply Htrim.
  - rewrite length_app, length_replicate. lia.
  - intros w Hw. by apply Htrim.
Qed.

(** X19. Ids that are not empty, hold no comma and have no whitespace at
    either end, joined by a comma followed by any number of spaces, are
    parsed back to the same ids in the same order. *)
Theorem parse_deps_join (A : Type) (l : list string) (n : nat) :
  Forall clean l →
  Validators._parse_deps (A:=A)
    (inl (String.string_of_list_ascii
            (join ("," :: replicate n " ")%char
               (String.list_ascii_of_string <$> l))))
  = inl l.
Proof.
  intros Hclean. unfold Validators._parse_deps. cbv zeta.
  rewrite String.list_ascii_of_string_of_list_ascii.
  destruct l as [|d l]; [done|].
  assert (Forall (λ z, z ≠ [] ∧ trimmed z)
            (String.list_ascii_of_string <$> d :: l)) as Htrim.
  { apply Forall_fmap. eapply Forall_impl; [exact Hclean|].
    intros x (Hx & _ & Ht). split; [|done]. cbn. intros Hnil. apply Hx.
    by rewrite <- (String.string_of_list_ascii_of_string x), Hnil. }
  assert (Forall (λ z, ("," : ascii) ∉ z)
            (String.list_ascii_of_string <$> d :: l)) as Hcomma.
  { apply Forall_fmap. eapply Forall_impl; [exact Hclean|].
    by intros x (_ & Hc & _). }
  cbn [fmap list_fmap] in *.
  destruct (join_trimmed n _ _ Htrim) as [Hne Hjoin].
  rewrite (strip_trimmed _ Hjoin), decide_False by done.
  rewrite split_join; [|by intros [[=] _]%elem_of_replicate|done].
  f_equal. cbn [omap list_omap].
  apply Forall_cons_1 in Htrim as [[Hd Hdt] Htrim].
  rewrite (strip_trimmed _ Hdt), decide_False by done.
  cbn [fmap list_fmap]. f_equal.
  { apply String.string_of_list_ascii_of_string. }
  clear -Htrim. induction l as [|x l IH]; [done|].
  apply Forall_cons_1 in Htrim as [[Hx Hxt] Htrim].
  cbn [fmap list_fmap omap list_omap].
  rewrite (strip_pad n _ Hxt), decide_False by done.
  cbn [fmap list_fmap]. f_equal; [|by apply IH].
  apply String.string_of_list_ascii_of_string.
Qed.

Lemma parse_deps_join_witness :
  Validators._parse_deps (A:=unit)
    (inl (String.string_of_list_ascii
            (join ("," :: replicate 1 " ")%char
               (String.list_ascii_of_string <$> ["a"; "b"; "c"]))))
  = inl ["a"; "b"; "c"].
Proof.
  apply parse_deps_join.
  constructor; [|constructor; [|constructor; [|constructor]]];
    (split; [done|split;
       [|intros w Hw; revert w Hw; apply Forall_forall];
       apply (bool_decide_unpack _); vm_compute; exact I]).
Defined.

(** The string of the specification's example. *)
Lemma parse_deps_example :
  Validators._parse_deps (A:=unit) (inl "a, b , c") = inl ["a"; "b"; "c"].
Proof. vm_compute. reflexivity. Qed.

End str_facts.

(** ** Offsets that are not finite *)

(** X20. An item whose deadline offset is NaN makes [from_external] raise
    [ValueError], and one whose offset is infinite makes it raise
    [OverflowError]: no item is built from either. *)
Theorem from_external_not_finite (raw : Models.EmailIn) (t : Z) :
  (Prim2SF (Models.in_deadline raw) = S754_nan →
   Models.from_external raw t
   = Raise (ValueError "cannot convert float NaN to integer"))
  ∧ (∀ sign, Prim2SF (Models.in_deadline raw) = S754_infinity sign →
       Models.from_external raw t = Raise OverflowError).
Proof.
  unfold Models.from_external, Models.int_of_float.
  rewrite mul_spec.
  let v := eval vm_compute in (Prim2SF 1000000000%float) in
  change (Prim2SF 1000000000%float) with v.
  split; [intros ->|intros sign ->]; reflexivity.
Qed.

Lemma from_external_not_finite_witness :
  Models.from_external
    {| Models.in_email_id := "A"; Models.in_subject := "";
       Models.in_body := ""; Models.in_deadline := infinity;
       Models.in_dependencies := [] |} 0
  = Raise OverflowError.
Proof.
  apply (proj2 (from_external_not_finite _ 0) false). reflexivity.
Defined.
